(** * zb store: derivations, store paths and source imports

    A shallow embedding of [zbstore/derivation.go] and [path_eval.go].
    Go strings and byte slices are both sequences of bytes and are
    modelled by [string] (a list of 8-bit characters).  Go maps are
    [gmap]s; the order in which Go iterates a map is unspecified, and the
    code sorts the keys before it uses them. *)

From Stdlib Require Import ZArith NArith List Ascii String Bool Lia.
From Stdlib Require Import DecimalString DecimalN.
From stdpp Require Import gmap strings list sorting.

Local Open Scope Z_scope.

(** ** Bytes *)

Module bytes.

Definition to_Z (c : ascii) : Z := Z.of_N (N_of_ascii c).
Definition of_Z (z : Z) : ascii := ascii_of_N (Z.to_N (z mod 256)).

Definition unpack (s : string) : list Z := map to_Z (list_ascii_of_string s).
Definition pack (l : list Z) : string := string_of_list_ascii (map of_Z l).

(** [strings.HasPrefix] / the test half of [strings.CutPrefix]. *)
Definition HasPrefix (s p : string) : bool := String.prefix p s.

(** [strings.CutPrefix(s, p)]: the rest of [s] after [p], when [s] starts
    with [p]. *)
Fixpoint CutPrefix (s p : string) : option string :=
  match p, s with
  | EmptyString, _ => Some s
  | String a p', String b s' =>
      if Ascii.eqb a b then CutPrefix s' p' else None
  | String _ _, EmptyString => None
  end.

Fixpoint join (sep : string) (l : list string) : string :=
  match l with
  | [] => ""
  | [x] => x
  | x :: rest => x +:+ sep +:+ join sep rest
  end.

Fixpoint concat (l : list string) : string :=
  match l with
  | [] => ""
  | x :: rest => x +:+ concat rest
  end.

End bytes.

(** ** encoding/hex *)

Module hex.

Definition digit (n : Z) : ascii :=
  nth (Z.to_nat n) (list_ascii_of_string "0123456789abcdef") "0"%char.

(** [hex.EncodeToString]: two lower-case digits per byte. *)
Fixpoint EncodeToString (s : string) : string :=
  match s with
  | EmptyString => ""
  | String c rest =>
      String (digit (bytes.to_Z c / 16))
        (String (digit (bytes.to_Z c mod 16)) (EncodeToString rest))
  end.

(** [fromHexChar]: digits, [a-f] and [A-F]. *)
Definition fromHexChar (c : ascii) : option Z :=
  let n := bytes.to_Z c in
  if (48 <=? n) && (n <=? 57) then Some (n - 48)
  else if (97 <=? n) && (n <=? 102) then Some (n - 97 + 10)
  else if (65 <=? n) && (n <=? 70) then Some (n - 65 + 10)
  else None.

(** [hex.DecodeString]: fails on a character that is no hex digit and on
    an odd number of digits. *)
Fixpoint DecodeString (s : string) : option string :=
  match s with
  | EmptyString => Some ""
  | String _ EmptyString => None
  | String a (String b rest) =>
      match fromHexChar a, fromHexChar b, DecodeString rest with
      | Some x, Some y, Some r => Some (String (bytes.of_Z (x * 16 + y)) r)
      | _, _, _ => None
      end
  end.

End hex.

(** ** crypto/sha256 (FIPS 180-4), on 32-bit words held in [Z] *)

Module sha256.

Definition add32 (x y : Z) : Z := (x + y) mod 2 ^ 32.
Definition rotr (n x : Z) : Z :=
  Z.lor (Z.shiftr x n) (Z.shiftl x (32 - n) mod 2 ^ 32).
Definition shr (n x : Z) : Z := Z.shiftr x n.

Definition Ch (x y z : Z) : Z :=
  Z.lxor (Z.land x y) (Z.land (Z.lxor x 0xffffffff) z).
Definition Maj (x y z : Z) : Z :=
  Z.lxor (Z.lxor (Z.land x y) (Z.land x z)) (Z.land y z).
Definition Sigma0 (x : Z) : Z := Z.lxor (Z.lxor (rotr 2 x) (rotr 13 x)) (rotr 22 x).
Definition Sigma1 (x : Z) : Z := Z.lxor (Z.lxor (rotr 6 x) (rotr 11 x)) (rotr 25 x).
Definition sigma0 (x : Z) : Z := Z.lxor (Z.lxor (rotr 7 x) (rotr 18 x)) (shr 3 x).
Definition sigma1 (x : Z) : Z := Z.lxor (Z.lxor (rotr 17 x) (rotr 19 x)) (shr 10 x).

(** The primes below 312: the first 64. *)
Definition is_prime (n : nat) : bool :=
  forallb (fun d => negb (n mod d =? 0)%nat) (seq 2 (n - 2)).
Definition primes : list Z := map Z.of_nat (List.filter is_prime (seq 2 310)).

(** The integer cube root, one bit at a time from bit [k - 1] down. *)
Fixpoint cbrt_bits (k : nat) (n r : Z) : Z :=
  match k with
  | O => r
  | S k' =>
      let r' := r + 2 ^ Z.of_nat k' in
      cbrt_bits k' n (if r' * r' * r' <=? n then r' else r)
  end.

(** The round constants: the first 32 bits of the fractional parts of the
    cube roots of the first 64 primes. *)
Definition K : list Z :=
  map (fun p => cbrt_bits 36 (p * 2 ^ 96) 0 mod 2 ^ 32) primes.

(** The eight working variables. *)
Record state := State { ha : Z; hb : Z; hc : Z; hd : Z; he : Z; hf : Z; hg : Z; hh : Z }.

(** The initial hash value: the first 32 bits of the fractional parts of
    the square roots of the first 8 primes. *)
Definition init : state :=
  let h := fun i => Z.sqrt (nth i primes 0 * 2 ^ 64) mod 2 ^ 32 in
  State (h 0%nat) (h 1%nat) (h 2%nat) (h 3%nat) (h 4%nat) (h 5%nat) (h 6%nat) (h 7%nat).

(** Big-endian words of a block. *)
Fixpoint words (l : list Z) (n : nat) : list Z :=
  match n, l with
  | S n', a :: b :: c :: d :: rest =>
      (((a * 256 + b) * 256 + c) * 256 + d) :: words rest n'
  | _, _ => []
  end.

(** The message schedule, newest word first. *)
Fixpoint schedule (n : nat) (wr : list Z) : list Z :=
  match n with
  | O => wr
  | S n' =>
      let w := add32 (add32 (sigma1 (nth 1 wr 0)) (nth 6 wr 0))
                     (add32 (sigma0 (nth 14 wr 0)) (nth 15 wr 0)) in
      schedule n' (w :: wr)
  end.

Definition round (s : state) (kw : Z * Z) : state :=
  let '(k, w) := kw in
  let t1 := add32 (add32 (add32 (hh s) (Sigma1 (he s))) (Ch (he s) (hf s) (hg s)))
                  (add32 k w) in
  let t2 := add32 (Sigma0 (ha s)) (Maj (ha s) (hb s) (hc s)) in
  State (add32 t1 t2) (ha s) (hb s) (hc s) (add32 (hd s) t1) (he s) (hf s) (hg s).

Definition block (s : state) (blk : list Z) : state :=
  let w := rev (schedule 48 (rev (words blk 16))) in
  let r := fold_left round (combine K w) s in
  State (add32 (ha s) (ha r)) (add32 (hb s) (hb r)) (add32 (hc s) (hc r))
        (add32 (hd s) (hd r)) (add32 (he s) (he r)) (add32 (hf s) (hf r))
        (add32 (hg s) (hg r)) (add32 (hh s) (hh r)).

Fixpoint blocks (n : nat) (s : state) (l : list Z) : state :=
  match n with
  | O => s
  | S n' => blocks n' (block s (firstn 64 l)) (skipn 64 l)
  end.

Definition be (nbytes : nat) (x : Z) : list Z :=
  map (fun i => Z.shiftr x (8 * Z.of_nat i) mod 256) (rev (seq 0 nbytes)).

Definition pad (l : list Z) : list Z :=
  let len := Z.of_nat (length l) in
  l ++ [0x80] ++ repeat 0 (Z.to_nat ((55 - len) mod 64)) ++ be 8 (8 * len).

Definition digest (s : state) : list Z :=
  be 4 (ha s) ++ be 4 (hb s) ++ be 4 (hc s) ++ be 4 (hd s) ++
  be 4 (he s) ++ be 4 (hf s) ++ be 4 (hg s) ++ be 4 (hh s).

(** [sha256.Sum256]: the 32-byte digest of a message. *)
Definition Sum256 (msg : string) : string :=
  let p := pad (bytes.unpack msg) in
  bytes.pack (digest (blocks (length p / 64) init p)).

End sha256.

(** ** zombiezen.com/go/nix: hashes, content addresses, base-32 *)

Module nixbase32.

Definition Alphabet : string := "0123456789abcdfghijklmnpqrsvwxyz".

Definition EncodedLen (n : nat) : nat :=
  match n with
  | O => O
  | _ => ((n * 8 - 1) / 5 + 1)%nat
  end.

Definition byte_at (src : list Z) (i : nat) : Z := nth i src 0.

(** One output character: the five bits of [src] starting at bit [5 * n],
    least significant bit first. *)
Definition char_at (src : list Z) (n : nat) : ascii :=
  let b := (n * 5)%nat in
  let i := (b / 8)%nat in
  let j := Z.of_nat (b mod 8) in
  let c := Z.shiftr (byte_at src i) j in
  let c := if (i + 1 <? length src)%nat
           then Z.lor c (Z.shiftl (byte_at src (i + 1)) (8 - j) mod 256)
           else c in
  nth (Z.to_nat (Z.land c 0x1f)) (list_ascii_of_string Alphabet) "0"%char.

(** [nixbase32.EncodeToString]: the characters for n = len-1 down to 0. *)
Definition EncodeToString (src : string) : string :=
  let l := bytes.unpack src in
  string_of_list_ascii (map (char_at l) (rev (seq 0 (EncodedLen (length l))))).

Definition is_char (c : ascii) : bool :=
  existsb (Ascii.eqb c) (list_ascii_of_string Alphabet).

End nixbase32.

Module nix.

(** [nix.HashType]; [0] is the zero value, which names no algorithm. *)
Inductive HashType := NoHashType | MD5 | SHA1 | SHA256 | SHA512.

Definition HashType_String (t : HashType) : string :=
  match t with
  | NoHashType => ""
  | MD5 => "md5"
  | SHA1 => "sha1"
  | SHA256 => "sha256"
  | SHA512 => "sha512"
  end.

Definition HashType_Size (t : HashType) : nat :=
  match t with
  | NoHashType => 0
  | MD5 => 16
  | SHA1 => 20
  | SHA256 => 32
  | SHA512 => 64
  end.

Definition ParseHashType (s : string) : option HashType :=
  if String.eqb s "md5" then Some MD5
  else if String.eqb s "sha1" then Some SHA1
  else if String.eqb s "sha256" then Some SHA256
  else if String.eqb s "sha512" then Some SHA512
  else None.

(** [nix.Hash]: an algorithm and the raw digest. *)
Record Hash := mkHash { hash_type : HashType; hash_bytes : string }.

Definition NewHash (t : HashType) (bits : string) : Hash := mkHash t bits.

Definition RawBase16 (h : Hash) : string := hex.EncodeToString (hash_bytes h).
Definition RawBase32 (h : Hash) : string := nixbase32.EncodeToString (hash_bytes h).
(** [Hash.Base16]: the digest in hex after the algorithm and a colon. *)
Definition Base16 (h : Hash) : string :=
  HashType_String (hash_type h) +:+ ":" +:+ RawBase16 h.

(** [nix.Hasher] for SHA-256: the bytes written so far. *)
Definition Hasher := string.
Definition NewHasher : Hasher := "".
Definition WriteString (h : Hasher) (s : string) : Hasher := h +:+ s.
Definition SumHash (h : Hasher) : Hash := mkHash SHA256 (sha256.Sum256 h).

(** [nix.CompressHash(dst, src)]: [dst] is zeroed, then
    [dst[i % len(dst)] ^= src[i]] for every index of [src]. *)
Fixpoint xor_fold (n : nat) (dst : list Z) (i : nat) (src : list Z) : list Z :=
  match src with
  | [] => dst
  | b :: rest =>
      let k := (i mod n)%nat in
      xor_fold n (<[k := Z.lxor (nth k dst 0) b]> dst) (S i) rest
  end.

Definition CompressHash (n : nat) (src : string) : string :=
  bytes.pack (xor_fold n (repeat 0 n) 0 (bytes.unpack src)).

(** [nix.ContentAddress]: one of three methods with a hash, or the zero
    value. *)
Inductive ContentAddress :=
| caZero
| caText (h : Hash)
| caFlat (h : Hash)
| caRecursive (h : Hash).

Definition TextContentAddress (h : Hash) := caText h.
Definition FlatFileContentAddress (h : Hash) := caFlat h.
Definition RecursiveFileContentAddress (h : Hash) := caRecursive h.

Definition zeroHash : Hash := mkHash NoHashType "".

Definition CA_Hash (ca : ContentAddress) : Hash :=
  match ca with
  | caZero => zeroHash
  | caText h | caFlat h | caRecursive h => h
  end.

Definition IsText (ca : ContentAddress) : bool :=
  match ca with caText _ => true | _ => false end.
Definition IsRecursiveFile (ca : ContentAddress) : bool :=
  match ca with caRecursive _ => true | _ => false end.

End nix.

(** ** Failures

    A Go [error] built by [fmt.Errorf] is kept as its format string and its
    arguments; a panic is a failure of its own.  [OutOfFuel] is what a loop
    of the model returns when it has used up its step count; the parser is
    shown never to do so. *)

Inductive failure :=
| Errorf (format : string) (args : list fmt_arg)
| Panic (msg : string)
| OutOfFuel
with fmt_arg :=
| fStr (s : string)
| fErr (e : failure)
| fInt (n : Z).

Definition result (A : Type) : Type := failure + A.
Definition Ok {A} (a : A) : result A := inr a.
Definition Fail {A} (e : failure) : result A := inl e.

Global Instance result_ret : MRet result := fun A a => inr a.
Global Instance result_bind : MBind result :=
  fun A B k r => match r with inr a => k a | inl e => inl e end.

Definition is_error {A} (r : result A) : Prop :=
  match r with inl (Errorf _ _) => True | _ => False end.

Definition is_ok {A} (r : result A) : bool :=
  match r with inr _ => true | inl _ => false end.

(** ** internal/sortedset *)

Module sortedset.

(** Modelled from the spec: [sortedset.Set] (package [internal/sortedset],
    not among the sources).  The spec calls the input sources and the
    output names of an input derivation a "sorted set" and has reference
    sets "iterate in lexicographic order"; the set is kept as the slice of
    its elements in ascending order without duplicates, [Add] inserts at
    the sorted position, [At] indexes the slice. *)
Definition t := list string.

Definition empty : t := [].

Fixpoint Add (s : t) (x : string) : t :=
  match s with
  | [] => [x]
  | y :: rest =>
      if String.eqb x y then s
      else if String.ltb x y then x :: s
      else y :: Add rest x
  end.

Definition Len (s : t) : nat := length s.
Definition At (s : t) (i : nat) : string := nth i s "".
Definition Clear (s : t) : t := [].
Definition AddSet (s other : t) : t := fold_left Add other s.
Definition of_list (l : list string) : t := fold_left Add l empty.

(** The invariant of the representation. *)
Definition lt (a b : string) : Prop := String.ltb a b = true.
Definition ok (s : t) : Prop := StronglySorted lt s.

Fixpoint okb (s : t) : bool :=
  match s with
  | [] => true
  | x :: rest =>
      match rest with
      | [] => true
      | y :: _ => String.ltb x y && okb rest
      end
  end.

End sortedset.

(** ** Store paths *)

Module storepath.

(** Modelled from the spec: [Path], [Directory], [ParsePath], [Path.Dir]
    and [Directory.Object] (file [zbstore/path.go], not among the
    sources).  The spec gives the grammar: a store path is
    [<dir>/<digest>-<name>], the digest is 32 characters of the Nix
    base-32 alphabet, the name matches [[A-Za-z0-9+\-._?=]+] and does not
    start with a dot, and the path is absolute. *)
Definition Path := string.
Definition Directory := string.

Definition digestLength : nat := 32.

Definition in_range (lo hi c : ascii) : bool :=
  (bytes.to_Z lo <=? bytes.to_Z c) && (bytes.to_Z c <=? bytes.to_Z hi).

Definition is_name_char (c : ascii) : bool :=
  in_range "A" "Z" c || in_range "a" "z" c || in_range "0" "9" c ||
  existsb (Ascii.eqb c) (list_ascii_of_string "+-._?=").

Definition valid_name (name : list ascii) : bool :=
  match name with
  | [] => false
  | c :: _ => negb (Ascii.eqb c ".") && forallb is_name_char name
  end.

Definition valid_object_name (base : string) : bool :=
  let l := list_ascii_of_string base in
  let dg := firstn digestLength l in
  (length dg =? digestLength)%nat && forallb nixbase32.is_char dg &&
  match skipn digestLength l with
  | c :: name => Ascii.eqb c "-" && valid_name name
  | [] => false
  end.

(** The text before and after the last slash. *)
Fixpoint split_last (s : string) : option (string * string) :=
  match s with
  | EmptyString => None
  | String c rest =>
      match split_last rest with
      | Some (d, b) => Some (String c d, b)
      | None => if Ascii.eqb c "/" then Some ("", rest) else None
      end
  end.

Definition is_abs (s : string) : bool :=
  match s with String c _ => Ascii.eqb c "/" | EmptyString => false end.

Definition Dir (p : Path) : Directory :=
  match split_last p with Some (d, _) => d | None => "" end.

Definition Name (p : Path) : string :=
  match split_last p with
  | Some (_, b) => string_of_list_ascii (skipn (S digestLength) (list_ascii_of_string b))
  | None => ""
  end.

Definition ParsePath (s : string) : result Path :=
  match split_last s with
  | Some (d, b) =>
      if is_abs d && valid_object_name b then Ok s
      else Fail (Errorf "parse zb store path %s: invalid object name" [fStr s])
  | None => Fail (Errorf "parse zb store path %s: not absolute" [fStr s])
  end.

Definition Object (dir : Directory) (name : string) : result Path :=
  if existsb (Ascii.eqb "/") (list_ascii_of_string name)
  then Fail (Errorf "parse zb store path %s: invalid object name %q"
               [fStr (dir +:+ "/" +:+ name); fStr name])
  else ParsePath (dir +:+ "/" +:+ name).

End storepath.

(** ** internal/aterm *)

Module aterm.

(** Modelled from the spec: [aterm.AppendString], [aterm.Scanner] and its
    tokens (package [internal/aterm], not among the sources).  Section 4.3
    of the specification: every string is quoted with ["], escaping [\],
    ["], and newline, carriage return and tab as [\n], [\r] and [\t]; the
    derivation is [Derive([output...], [inputDrv...], ...)], tuples in
    parentheses, lists in brackets, elements separated by commas.  The
    scanner hands out parentheses, brackets and strings; it reads the
    comma that separates an element from the one before it, and one
    token can be pushed back. *)

Definition dq : ascii := "034"%char.
Definition bs : ascii := "092"%char.
Definition lf : ascii := "010"%char.
Definition cr : ascii := "013"%char.
Definition tab : ascii := "009"%char.

Definition escape_char (c : ascii) : string :=
  if Ascii.eqb c dq then String bs (String dq "")
  else if Ascii.eqb c bs then String bs (String bs "")
  else if Ascii.eqb c lf then String bs "n"
  else if Ascii.eqb c cr then String bs "r"
  else if Ascii.eqb c tab then String bs "t"
  else String c "".

Fixpoint escape (s : string) : string :=
  match s with
  | EmptyString => ""
  | String c rest => escape_char c +:+ escape rest
  end.

Definition quoted (s : string) : string :=
  String dq (escape s +:+ String dq "").

Definition AppendString (dst s : string) : string := dst +:+ quoted s.

Inductive TokenKind := String_ | LParen | RParen | LBracket | RBracket.

Record Token := mkToken { Kind : TokenKind; Value : string }.

Definition kind_eqb (a b : TokenKind) : bool :=
  match a, b with
  | String_, String_ | LParen, LParen | RParen, RParen
  | LBracket, LBracket | RBracket, RBracket => true
  | _, _ => false
  end.

(** What [%v] prints for a token. *)
Definition show (t : Token) : string :=
  match Kind t with
  | String_ => quoted (Value t)
  | LParen => "("
  | RParen => ")"
  | LBracket => "["
  | RBracket => "]"
  end.

(** The scanner: the bytes not yet read, whether the last token ended an
    element (so that a comma must come before the next one), the token
    read last, and the token pushed back. *)
Record Scanner := mkScanner {
  input : string;
  afterValue : bool;
  last : option Token;
  pending : option Token
}.

Definition NewScanner (r : string) : Scanner := mkScanner r false None None.

(** [r.Len()] of the reader under the scanner. *)
Definition Len (s : Scanner) : nat := String.length (input s).

Definition unescape (c : ascii) : ascii :=
  if Ascii.eqb c "n" then lf
  else if Ascii.eqb c "r" then cr
  else if Ascii.eqb c "t" then tab
  else c.

(** The rest of a string token, after the opening quote. *)
Fixpoint scan_string (inp : string) : result (string * string) :=
  match inp with
  | EmptyString => Fail (Errorf "aterm: unterminated string" [])
  | String c rest =>
      if Ascii.eqb c dq then Ok (""%string, rest)
      else if Ascii.eqb c bs then
        match rest with
        | EmptyString => Fail (Errorf "aterm: unterminated string" [])
        | String e rest' =>
            match scan_string rest' with
            | inr (v, r) => Ok (String (unescape e) v, r)
            | inl err => inl err
            end
        end
      else
        match scan_string rest with
        | inr (v, r) => Ok (String c v, r)
        | inl err => inl err
        end
  end.

Definition starts_element (c : ascii) : bool :=
  Ascii.eqb c "(" || Ascii.eqb c "[" || Ascii.eqb c dq.

(** The token that starts with [c], and whether it ends an element. *)
Definition token_at (c : ascii) (rest : string) : result (Token * string * bool) :=
  if Ascii.eqb c "(" then Ok (mkToken LParen "", rest, false)
  else if Ascii.eqb c "[" then Ok (mkToken LBracket "", rest, false)
  else if Ascii.eqb c ")" then Ok (mkToken RParen "", rest, true)
  else if Ascii.eqb c "]" then Ok (mkToken RBracket "", rest, true)
  else if Ascii.eqb c dq then
    match scan_string rest with
    | inr (v, r) => Ok (mkToken String_ v, r, true)
    | inl err => inl err
    end
  else Fail (Errorf "aterm: unexpected character %q" [fStr (String c "")]).

Definition scan (inp : string) (after : bool) : result (Token * string * bool) :=
  match inp with
  | EmptyString => Fail (Errorf "EOF" [])
  | String c rest =>
      if Ascii.eqb c "," then
        if after then
          match rest with
          | EmptyString => Fail (Errorf "unexpected EOF" [])
          | String c' rest' =>
              if starts_element c' then token_at c' rest'
              else Fail (Errorf "aterm: unexpected character %q after ','"
                           [fStr (String c' "")])
          end
        else Fail (Errorf "aterm: unexpected ','" [])
      else if after && starts_element c
      then Fail (Errorf "aterm: expected ',' before %q" [fStr (String c "")])
      else token_at c rest
  end.

Definition ReadToken (s : Scanner) : result (Token * Scanner) :=
  match pending s with
  | Some t => Ok (t, mkScanner (input s) (afterValue s) (last s) None)
  | None =>
      match scan (input s) (afterValue s) with
      | inr (t, rest, after) => Ok (t, mkScanner rest after (Some t) None)
      | inl err => inl err
      end
  end.

Definition UnreadToken (s : Scanner) : Scanner :=
  mkScanner (input s) (afterValue s) (last s) (last s).

Definition tokString (s : string) : Token := mkToken String_ s.
Definition tokLP : Token := mkToken LParen "".
Definition tokRP : Token := mkToken RParen "".
Definition tokLB : Token := mkToken LBracket "".
Definition tokRB : Token := mkToken RBracket "".

(** The scanner right after the token [t]. *)
Definition after (t : Token) (ends : bool) (rest : string) : Scanner :=
  mkScanner rest ends (Some t) None.

End aterm.

(** ** zbstore: references and store path fingerprints *)

Module zbstore.

Import storepath.

(** [References]: other store paths and the self flag. *)
Record References := mkReferences { Self : bool; Others : sortedset.t }.

Definition noReferences : References := mkReferences false sortedset.empty.

(** The loop [for i := 0; i < refs.Others.Len(); i++] of [makeStorePath],
    with [k] iterations left. *)
Fixpoint writeOthers (k i : nat) (others : sortedset.t) (h : string) : string :=
  match k with
  | O => h
  | S k' =>
      let h := h +:+ ":" in
      let h := h +:+ sortedset.At others i in
      writeOthers k' (S i) others h
  end.

(** [makeStorePath]; [h] holds the bytes written to the SHA-256 hasher. *)
Definition makeStorePath (dir : Directory) (typ : string) (hash : nix.Hash)
    (name : string) (refs : References) : result Path :=
  let h := "" in
  let h := h +:+ typ in
  let h := writeOthers (sortedset.Len (Others refs)) 0 (Others refs) h in
  let h := if Self refs then h +:+ ":self" else h in
  let h := h +:+ ":" in
  let h := h +:+ nix.Base16 hash in
  let h := h +:+ ":" in
  let h := h +:+ dir in
  let h := h +:+ ":" in
  let h := h +:+ name in
  let fingerprintHash := sha256.Sum256 h in
  let compressed := nix.CompressHash 20 fingerprintHash in
  let digest := nixbase32.EncodeToString compressed in
  Object dir (digest +:+ "-" +:+ name).

(** [derivationOutputType] and [contentAddressMethod] are [int8]
    enumerations that start at 1; the first constructor stands for the
    values that name nothing (the zero value among them). *)
Inductive derivationOutputType :=
| unknownOutputType | fixedCAOutputType | floatingCAOutputType.

Inductive contentAddressMethod :=
| unknownMethod | textIngestionMethod | flatFileIngestionMethod
| recursiveFileIngestionMethod.

Definition outputType_eqb (a b : derivationOutputType) : bool :=
  match a, b with
  | unknownOutputType, unknownOutputType
  | fixedCAOutputType, fixedCAOutputType
  | floatingCAOutputType, floatingCAOutputType => true
  | _, _ => false
  end.

Definition DefaultDerivationOutputName : string := "out".
Definition DerivationExt : string := ".drv".

Record DerivationOutput := mkOutput {
  typ : derivationOutputType;
  ca : nix.ContentAddress;
  method : contentAddressMethod;
  hashAlgo : nix.HashType
}.

Definition zeroCA : nix.ContentAddress := nix.caZero.

(** The constructors return a pointer, which is never nil. *)
Definition FixedCAOutput (ca : nix.ContentAddress) : option DerivationOutput :=
  Some (mkOutput fixedCAOutputType ca unknownMethod nix.NoHashType).

Definition FlatFileFloatingCAOutput (hashAlgo : nix.HashType) : option DerivationOutput :=
  Some (mkOutput floatingCAOutputType zeroCA flatFileIngestionMethod hashAlgo).

Definition RecursiveFileFloatingCAOutput (hashAlgo : nix.HashType) : option DerivationOutput :=
  Some (mkOutput floatingCAOutputType zeroCA recursiveFileIngestionMethod hashAlgo).

(** Methods on [*DerivationOutput]: the receiver is [None] for nil. *)
Definition IsFixed (out : option DerivationOutput) : bool :=
  match out with
  | None => false
  | Some o => outputType_eqb (typ o) fixedCAOutputType
  end.

Definition IsFloating (out : option DerivationOutput) : bool :=
  match out with
  | None => false
  | Some o => outputType_eqb (typ o) fixedCAOutputType
  end.

Definition methodOfContentAddress (ca : nix.ContentAddress) : contentAddressMethod :=
  if nix.IsText ca then textIngestionMethod
  else if nix.IsRecursiveFile ca then recursiveFileIngestionMethod
  else flatFileIngestionMethod.

(** [contentAddressMethod.prefix]; it panics on an unknown method. *)
Definition prefix (m : contentAddressMethod) : result string :=
  match m with
  | textIngestionMethod => Ok "text:"
  | flatFileIngestionMethod => Ok ""
  | recursiveFileIngestionMethod => Ok "r:"
  | unknownMethod => Fail (Panic "unknown content address method")
  end.

Definition parseHashAlgorithm (s : string)
    : contentAddressMethod * result nix.HashType :=
  let '(method, s) :=
    match bytes.CutPrefix s "r:" with
    | Some s' => (recursiveFileIngestionMethod, s')
    | None =>
        match bytes.CutPrefix s "text:" with
        | Some s' => (textIngestionMethod, s')
        | None => (flatFileIngestionMethod, s)
        end
    end in
  match nix.ParseHashType s with
  | None => (method, Fail (Errorf "%q is not a valid hash type" [fStr s]))
  | Some t => (method, Ok t)
  end.

(** [HashPlaceholder] *)
Definition HashPlaceholder (outputName : string) : string :=
  let h := nix.NewHasher in
  let h := nix.WriteString h "nix-output:" in
  let h := nix.WriteString h outputName in
  "/" +:+ nix.RawBase32 (nix.SumHash h).

(** [UnknownCAOutputPlaceholder] needs [Path.Digest] and is not used by
    the functions below. *)

(** ** Derivations *)

Record Derivation := mkDerivation {
  Dir : Directory;
  Name : string;
  System : string;
  Builder : string;
  Args : list string;
  Env : gmap string string;
  InputSources : sortedset.t;
  InputDerivations : gmap string sortedset.t;
  Outputs : gmap string (option DerivationOutput)
}.

Definition set_Outputs (d : Derivation) (m : gmap string (option DerivationOutput)) :=
  mkDerivation (Dir d) (Name d) (System d) (Builder d) (Args d) (Env d)
    (InputSources d) (InputDerivations d) m.
Definition set_InputDerivations (d : Derivation) (m : gmap string sortedset.t) :=
  mkDerivation (Dir d) (Name d) (System d) (Builder d) (Args d) (Env d)
    (InputSources d) m (Outputs d).
Definition set_InputSources (d : Derivation) (x : sortedset.t) :=
  mkDerivation (Dir d) (Name d) (System d) (Builder d) (Args d) (Env d)
    x (InputDerivations d) (Outputs d).
Definition set_System (d : Derivation) (x : string) :=
  mkDerivation (Dir d) (Name d) x (Builder d) (Args d) (Env d)
    (InputSources d) (InputDerivations d) (Outputs d).
Definition set_Builder (d : Derivation) (x : string) :=
  mkDerivation (Dir d) (Name d) (System d) x (Args d) (Env d)
    (InputSources d) (InputDerivations d) (Outputs d).
Definition set_Args (d : Derivation) (x : list string) :=
  mkDerivation (Dir d) (Name d) (System d) (Builder d) x (Env d)
    (InputSources d) (InputDerivations d) (Outputs d).
Definition set_Env (d : Derivation) (x : gmap string string) :=
  mkDerivation (Dir d) (Name d) (System d) (Builder d) (Args d) x
    (InputSources d) (InputDerivations d) (Outputs d).

(** The sets of a derivation are sets: ascending slices. *)
Definition Derivation_ok (d : Derivation) : bool :=
  sortedset.okb (InputSources d) &&
  forallb (fun kv => sortedset.okb (snd kv)) (map_to_list (InputDerivations d)).

(** [sortedKeys]: the keys of a map, sorted. *)
Definition sortedKeys {V} (m : gmap string V) : list string :=
  merge_sort String.le (map fst (map_to_list m)).

(** *** Parsing

    A parser step reads from the scanner and returns a value and the
    scanner after it, or fails. *)
Definition P (A : Type) : Type := aterm.Scanner -> result (A * aterm.Scanner).

Definition retP {A} (a : A) : P A := fun s => Ok (a, s).
Definition raiseP {A} (e : failure) : P A := fun _ => Fail e.
Definition bindP {A B} (m : P A) (k : A -> P B) : P B :=
  fun s => match m s with
           | inr (a, s') => k a s'
           | inl e => inl e
           end.
Global Instance P_ret : MRet P := @retP.
Global Instance P_bind : MBind P := fun A B k m => bindP m k.

Definition liftP {A} (r : result A) : P A :=
  fun s => match r with inr a => Ok (a, s) | inl e => inl e end.

(** [fmt.Errorf(format, args..., err)] around a step. *)
Definition wrapP {A} (format : string) (args : list fmt_arg) (m : P A) : P A :=
  fun s => match m s with
           | inl e => inl (Errorf format (args ++ [fErr e]))
           | ok => ok
           end.

Definition ReadToken : P aterm.Token := aterm.ReadToken.
Definition UnreadToken : P unit := fun s => Ok (tt, aterm.UnreadToken s).

(** [if tok.Kind != kind { return fmt.Errorf(format, args..., tok) }] *)
Definition check (tok : aterm.Token) (kind : aterm.TokenKind)
    (format : string) (args : list fmt_arg) : P unit :=
  if aterm.kind_eqb (aterm.Kind tok) kind then retP tt
  else raiseP (Errorf format (args ++ [fStr (aterm.show tok)])).

(** [parseStringList]; the callback [f] updates the value [acc] that the
    Go closure has captured. *)
Fixpoint parseStringList_loop {A} (fuel : nat) (f : string -> A -> result A)
    (acc : A) : P A :=
  match fuel with
  | O => raiseP OutOfFuel
  | S fuel' =>
      tok ← ReadToken;
      match aterm.Kind tok with
      | aterm.String_ =>
          acc' ← liftP (f (aterm.Value tok) acc);
          parseStringList_loop fuel' f acc'
      | aterm.RBracket => retP acc
      | _ => raiseP (Errorf "expected string or ']', found %v" [fStr (aterm.show tok)])
      end
  end.

Definition parseStringList {A} (fuel : nat) (f : string -> A -> result A)
    (acc : A) : P A :=
  tok ← ReadToken;
  check tok aterm.LBracket "expected '[', found %v" [];;
  parseStringList_loop fuel f acc.

(** [parseDerivationOutput] *)
Definition parseDerivationOutput : P (string * option DerivationOutput) :=
  tok ← wrapP "parse output: %v" [] ReadToken;
  check tok aterm.LParen "parse output: expected '(', found %v" [];;
  tok ← wrapP "parse output: %v" [] ReadToken;
  check tok aterm.String_ "parse output: name: expected string, found %v" [];;
  let outName := aterm.Value tok in
  tok ← wrapP "parse %s output: %v" [fStr outName] ReadToken;
  check tok aterm.String_ "parse %s output: path: expected string, found %v"
    [fStr outName];;
  let path := aterm.Value tok in
  tok ← wrapP "parse %s output: %v" [fStr outName] ReadToken;
  check tok aterm.String_ "parse %s output: hash algorithm: expected string, found %v"
    [fStr outName];;
  let caInfo := aterm.Value tok in
  tok ← wrapP "parse %s output: %v" [fStr outName] ReadToken;
  check tok aterm.String_ "parse %s output: hash: expected string, found %v"
    [fStr outName];;
  let hashHex := aterm.Value tok in
  tok ← wrapP "parse %s output: %v" [fStr outName] ReadToken;
  check tok aterm.RParen "parse %s output: expected ')', found %v" [fStr outName];;
  let '(method, parsed) := parseHashAlgorithm caInfo in
  hashAlgo ← wrapP "parse %s output: hash algorithm: %v" [fStr outName] (liftP parsed);
  hashBits ← wrapP "parse %s output: hash: %v" [fStr outName]
    (liftP (match hex.DecodeString hashHex with
            | Some b => Ok b
            | None => Fail (Errorf "encoding/hex: invalid input" [])
            end));
  if String.eqb path "" && String.eqb hashHex "" then
    retP (outName, Some (mkOutput floatingCAOutputType zeroCA method hashAlgo))
  else if negb (String.eqb hashHex "") then
    if negb (String.length hashBits =? nix.HashType_Size hashAlgo)%nat then
      raiseP (Errorf
        "parse %s output: hash: incorrect size (got %d bytes but %v uses %d)"
        [fStr outName; fInt (Z.of_nat (String.length hashBits));
         fStr (nix.HashType_String hashAlgo);
         fInt (Z.of_nat (nix.HashType_Size hashAlgo))])
    else
      let h := nix.NewHash hashAlgo hashBits in
      match method with
      | flatFileIngestionMethod =>
          retP (outName, FixedCAOutput (nix.FlatFileContentAddress h))
      | recursiveFileIngestionMethod =>
          retP (outName, FixedCAOutput (nix.RecursiveFileContentAddress h))
      | textIngestionMethod =>
          retP (outName, FixedCAOutput (nix.TextContentAddress h))
      | unknownMethod =>
          raiseP (Errorf "parse %s output: unhandled hash algorithm %q"
                    [fStr outName; fStr caInfo])
      end
  else raiseP (Errorf "parse %s output: unknown type" [fStr outName]).

(** [parseInputDerivation] *)
Definition parseInputDerivation (fuel : nat) : P (Path * sortedset.t) :=
  tok ← wrapP "parse input derivation: %v" [] ReadToken;
  check tok aterm.LParen "parse input derivation: expected '(', found %v" [];;
  tok ← wrapP "parse input derivation: %v" [] ReadToken;
  check tok aterm.String_ "parse input derivation: name: expected string, found %v" [];;
  let drvPathString := aterm.Value tok in
  outputNames ← wrapP "parse input derivation %s: output names: %v" [fStr drvPathString]
    (parseStringList fuel (fun val names => Ok (sortedset.Add names val))
       sortedset.empty);
  tok ← wrapP "parse input derivation %s: %v" [fStr drvPathString] ReadToken;
  check tok aterm.RParen "parse input derivation %s: expected ')', found %v"
    [fStr drvPathString];;
  drvPath ← wrapP "parse input derivation %s: %v" [fStr drvPathString]
    (liftP (ParsePath drvPathString));
  retP (drvPath, outputNames).

(** The loop over the outputs in [parseTuple]. *)
Fixpoint parseOutputs (fuel : nat) (drv : Derivation) : P Derivation :=
  match fuel with
  | O => raiseP OutOfFuel
  | S fuel' =>
      tok ← ReadToken;
      if aterm.kind_eqb (aterm.Kind tok) aterm.RBracket then retP drv
      else
        UnreadToken;;
        o ← wrapP "parse %s derivation: %v" [fStr (Name drv)] parseDerivationOutput;
        let '(outName, outType) := o in
        match Outputs drv !! outName with
        | Some _ =>
            raiseP (Errorf "parse %s derivation: multiple outputs named %q"
                      [fStr (Name drv); fStr outName])
        | None =>
            parseOutputs fuel'
              (set_Outputs drv (<[outName := outType]> (Outputs drv)))
        end
  end.

(** The loop over the input derivations in [parseTuple]. *)
Fixpoint parseInputDerivations (fuel0 fuel : nat) (drv : Derivation) : P Derivation :=
  match fuel with
  | O => raiseP OutOfFuel
  | S fuel' =>
      tok ← ReadToken;
      if aterm.kind_eqb (aterm.Kind tok) aterm.RBracket then retP drv
      else
        UnreadToken;;
        i ← wrapP "parse %s derivation: %v" [fStr (Name drv)]
              (parseInputDerivation fuel0);
        let '(drvPath, outputNames) := i in
        if negb (String.eqb (storepath.Dir drvPath) (Dir drv)) then
          raiseP (Errorf "parse %s derivation: input derivation %s not in directory %s"
                    [fStr (Name drv); fStr drvPath; fStr (Dir drv)])
        else
          match InputDerivations drv !! drvPath with
          | Some _ =>
              raiseP (Errorf "parse %s derivation: multiple input derivations for %s"
                        [fStr (Name drv); fStr drvPath])
          | None =>
              parseInputDerivations fuel0 fuel'
                (set_InputDerivations drv
                   (<[drvPath := outputNames]> (InputDerivations drv)))
          end
  end.

(** The loop of [parseEnv]. *)
Fixpoint parseEnv_loop (fuel : nat) (drv : Derivation) : P Derivation :=
  match fuel with
  | O => raiseP OutOfFuel
  | S fuel' =>
      tok ← ReadToken;
      match aterm.Kind tok with
      | aterm.RBracket => retP drv
      | aterm.LParen =>
          tok ← ReadToken;
          check tok aterm.String_ "parse %s derivation: env: expected string, found %v"
            [fStr (Name drv)];;
          let k := aterm.Value tok in
          match Env drv !! k with
          | Some _ =>
              raiseP (Errorf "parse %s derivation: env: multiple entries for %s"
                        [fStr (Name drv); fStr k])
          | None =>
              tok ← ReadToken;
              check tok aterm.String_
                "parse %s derivation: env: %s: expected string, found %v"
                [fStr (Name drv); fStr k];;
              let v := aterm.Value tok in
              tok ← ReadToken;
              check tok aterm.RParen
                "parse %s derivation: env: %s: expected ')', found %v"
                [fStr (Name drv); fStr k];;
              parseEnv_loop fuel' (set_Env drv (<[k := v]> (Env drv)))
          end
      | _ =>
          raiseP (Errorf "parse %s derivation: env: expected ']' or '(', found %v"
                    [fStr (Name drv); fStr (aterm.show tok)])
      end
  end.

(** [Derivation.parseEnv] *)
Definition parseEnv (fuel : nat) (drv : Derivation) : P Derivation :=
  tok ← ReadToken;
  check tok aterm.LBracket "parse %s derivation: env: expected '[', found %v"
    [fStr (Name drv)];;
  parseEnv_loop fuel (set_Env drv ∅).

(** The callback that [parseTuple] hands to [parseStringList] for the input
    sources. *)
Definition addInputSource (val : string) (srcs : sortedset.t) : result sortedset.t :=
  match ParsePath val with
  | inr p => Ok (sortedset.Add srcs p)
  | inl err => inl err
  end.

(** [Derivation.parseTuple] *)
Definition parseTuple (fuel : nat) (drv : Derivation) : P Derivation :=
  tok ← ReadToken;
  check tok aterm.LParen "parse %s derivation: expected '(', found %v"
    [fStr (Name drv)];;
  (* Parse outputs. *)
  tok ← ReadToken;
  check tok aterm.LBracket "parse %s derivation: expected '[', found %v"
    [fStr (Name drv)];;
  drv ← parseOutputs fuel (set_Outputs drv ∅);
  (* Parse input derivations. *)
  tok ← ReadToken;
  check tok aterm.LBracket
    "parse %s derivation: expected '[' after outputs list, found %v"
    [fStr (Name drv)];;
  drv ← parseInputDerivations fuel fuel (set_InputDerivations drv ∅);
  (* Parse input sources. *)
  srcs ← wrapP "parse %s derivation: input sources: %v" [fStr (Name drv)]
    (parseStringList fuel addInputSource (sortedset.Clear (InputSources drv)));
  let drv := set_InputSources drv srcs in
  (* Parse system. *)
  tok ← ReadToken;
  check tok aterm.String_
    "parse %s derivation: system: expected string after input source list, found %v"
    [fStr (Name drv)];;
  let drv := set_System drv (aterm.Value tok) in
  (* Parse builder. *)
  tok ← ReadToken;
  check tok aterm.String_
    "parse %s derivation: builder: expected string after system, found %v"
    [fStr (Name drv)];;
  let drv := set_Builder drv (aterm.Value tok) in
  (* Parse builder arguments. *)
  args ← wrapP "parse %s derivation: builder args: %v" [fStr (Name drv)]
    (parseStringList fuel (fun arg args => Ok (args ++ [arg])) []);
  let drv := set_Args drv args in
  (* Parse environment. *)
  drv ← parseEnv fuel drv;
  (* Parse closing parenthesis. *)
  tok ← ReadToken;
  check tok aterm.RParen "parse %s derivation: expected ')', found %v"
    [fStr (Name drv)];;
  retP drv.

(** [ParseDerivation]; every loop may take as many steps as the input has
    bytes, and two more. *)
Definition ParseDerivation (dir : Directory) (name : string) (data : string)
    : result Derivation :=
  let drv := mkDerivation dir name "" "" [] ∅ sortedset.empty ∅ ∅ in
  match bytes.CutPrefix data "Derive" with
  | None =>
      Fail (Errorf "parse %s derivation: 'Derive' constructor not found"
              [fStr (Name drv)])
  | Some data =>
      let r := aterm.NewScanner data in
      match parseTuple (2 + String.length data) drv r with
      | inl err => inl err
      | inr (drv, r) =>
          if (0 <? aterm.Len r)%nat
          then Fail (Errorf "parse %s derivation: trailing data" [fStr (Name drv)])
          else Ok drv
      end
  end.

Section WithFixedCAOutputPath.

(** [FixedCAOutputPath] is declared in a file that is not among the
    sources; the functions that call it take it as a parameter.  It
    returns the path, or an error (and then the empty path). *)
Variable FixedCAOutputPath :
  Directory -> string -> nix.ContentAddress -> References -> result Path.

(** [DerivationOutput.Path] *)
Definition DerivationOutput_Path (out : option DerivationOutput) (store : Directory)
    (drvName outputName : string) : Path * bool :=
  match out with
  | None => ("", false)
  | Some o =>
      match typ o with
      | fixedCAOutputType =>
          let drvName :=
            if negb (String.eqb outputName DefaultDerivationOutputName)
            then drvName +:+ "-" +:+ outputName
            else drvName in
          match FixedCAOutputPath store drvName (ca o) noReferences with
          | inr p => (p, true)
          | inl _ => ("", false)
          end
      | _ => ("", false)
      end
  end.

(** *** Marshalling *)

(** [`,""`]: a comma and the empty ATerm string. *)
Definition commaEmpty : string := "," +:+ aterm.quoted "".

(** [DerivationOutput.marshalText] *)
Definition output_marshalText (out : option DerivationOutput) (dst : string)
    (storeDir : Directory) (drvName outName : string) (maskOutputs : bool)
    : result string :=
  let dst := dst +:+ "(" in
  let dst := aterm.AppendString dst outName in
  match out with
  | None => Ok (dst +:+ commaEmpty +:+ commaEmpty +:+ commaEmpty +:+ ")")
  | Some o =>
      match typ o with
      | fixedCAOutputType =>
          dst ←
            (if maskOutputs then Ok (dst +:+ commaEmpty)
             else
               let dst := dst +:+ "," in
               match DerivationOutput_Path out storeDir drvName outName with
               | (p, true) => Ok (aterm.AppendString dst p)
               | (_, false) =>
                   Fail (Errorf "marshal %s output: invalid path" [fStr outName])
               end);
          let dst := dst +:+ "," in
          let h := nix.CA_Hash (ca o) in
          pre ← prefix (methodOfContentAddress (ca o));
          let dst := aterm.AppendString dst
                       (pre +:+ nix.HashType_String (nix.hash_type h)) in
          let dst := dst +:+ "," in
          let dst := aterm.AppendString dst (nix.RawBase16 h) in
          Ok (dst +:+ ")")
      | floatingCAOutputType =>
          let dst := dst +:+ commaEmpty +:+ "," in
          pre ← prefix (method o);
          let dst := aterm.AppendString dst
                       (pre +:+ nix.HashType_String (hashAlgo o)) in
          let dst := dst +:+ commaEmpty in
          Ok (dst +:+ ")")
      | unknownOutputType =>
          Fail (Errorf "marshal %s output: invalid type %v"
                  [fStr outName; fInt 0])
      end
  end.

Section Marshal.

Variable drv : Derivation.
Variable maskOutputs : bool.

(** [for i, outName := range sortedKeys(drv.Outputs)] *)
Fixpoint marshalOutputs (keys : list string) (i : nat) (buf : string)
    : result string :=
  match keys with
  | [] => Ok buf
  | outName :: rest =>
      let buf := if (0 <? i)%nat then buf +:+ "," else buf in
      match output_marshalText (default None (Outputs drv !! outName)) buf
              (Dir drv) (Name drv) outName maskOutputs with
      | inl err =>
          Fail (Errorf "marshal %s derivation: %v" [fStr (Name drv); fErr err])
      | inr buf => marshalOutputs rest (S i) buf
      end
  end.

(** [for j := 0; j < outputs.Len(); j++], with [k] iterations left. *)
Fixpoint marshalOutputNames (outputs : sortedset.t) (k j : nat) (buf : string)
    : string :=
  match k with
  | O => buf
  | S k' =>
      let buf := if (0 <? j)%nat then buf +:+ "," else buf in
      let buf := aterm.AppendString buf (sortedset.At outputs j) in
      marshalOutputNames outputs k' (S j) buf
  end.

(** [for i, drvPath := range sortedKeys(drv.InputDerivations)] *)
Fixpoint marshalInputDerivations (keys : list string) (i : nat) (buf : string)
    : result string :=
  match keys with
  | [] => Ok buf
  | drvPath :: rest =>
      let buf := if (0 <? i)%nat then buf +:+ "," else buf in
      let buf := buf +:+ "(" in
      let got := storepath.Dir drvPath in
      if negb (String.eqb got (Dir drv)) then
        Fail (Errorf
          "marshal %s derivation: inputs: unexpected store directory %s (using %s)"
          [fStr (Name drv); fStr got; fStr (Dir drv)])
      else
        let buf := aterm.AppendString buf drvPath in
        let buf := buf +:+ ",[" in
        let outputs := default sortedset.empty (InputDerivations drv !! drvPath) in
        let buf := marshalOutputNames outputs (sortedset.Len outputs) 0 buf in
        let buf := buf +:+ "])" in
        marshalInputDerivations rest (S i) buf
  end.

(** [for i := 0; i < drv.InputSources.Len(); i++], with [k] iterations
    left. *)
Fixpoint marshalInputSources (k i : nat) (buf : string) : result string :=
  match k with
  | O => Ok buf
  | S k' =>
      let src := sortedset.At (InputSources drv) i in
      let buf := if (0 <? i)%nat then buf +:+ "," else buf in
      let got := storepath.Dir src in
      if negb (String.eqb got (Dir drv)) then
        Fail (Errorf
          "marshal %s derivation: inputs: unexpected store directory %s (using %s)"
          [fStr (Name drv); fStr got; fStr (Dir drv)])
      else
        let buf := aterm.AppendString buf src in
        marshalInputSources k' (S i) buf
  end.

(** [for i, arg := range drv.Args] *)
Fixpoint marshalArgs (args : list string) (i : nat) (buf : string) : string :=
  match args with
  | [] => buf
  | arg :: rest =>
      let buf := if (0 <? i)%nat then buf +:+ "," else buf in
      let buf := aterm.AppendString buf arg in
      marshalArgs rest (S i) buf
  end.

(** [for i, k := range sortedKeys(drv.Env)] *)
Fixpoint marshalEnv (keys : list string) (i : nat) (buf : string) : string :=
  match keys with
  | [] => buf
  | k :: rest =>
      let buf := if (0 <? i)%nat then buf +:+ "," else buf in
      let buf := buf +:+ "(" in
      let buf := aterm.AppendString buf k in
      let buf := buf +:+ "," in
      let buf := aterm.AppendString buf (default "" (Env drv !! k)) in
      let buf := buf +:+ ")" in
      marshalEnv rest (S i) buf
  end.

(** [Derivation.marshalText] *)
Definition marshalText : result string :=
  if String.eqb (Name drv) "" then
    Fail (Errorf "marshal derivation: missing name" [])
  else if String.eqb (Dir drv) "" then
    Fail (Errorf "marshal %s derivation: missing store directory"
            [fStr (Name drv)])
  else
    let buf := "" in
    let buf := buf +:+ "Derive([" in
    buf ← marshalOutputs (sortedKeys (Outputs drv)) 0 buf;
    let buf := buf +:+ "],[" in
    buf ← marshalInputDerivations (sortedKeys (InputDerivations drv)) 0 buf;
    let buf := buf +:+ "],[" in
    buf ← marshalInputSources (sortedset.Len (InputSources drv)) 0 buf;
    let buf := buf +:+ "]," in
    let buf := aterm.AppendString buf (System drv) in
    let buf := buf +:+ "," in
    let buf := aterm.AppendString buf (Builder drv) in
    let buf := buf +:+ ",[" in
    let buf := marshalArgs (Args drv) 0 buf in
    let buf := buf +:+ "],[" in
    let buf := marshalEnv (sortedKeys (Env drv)) 0 buf in
    let buf := buf +:+ "])" in
    Ok buf.

End Marshal.

(** [Derivation.MarshalText] *)
Definition MarshalText (drv : Derivation) : result string :=
  marshalText drv false.

End WithFixedCAOutputPath.

End zbstore.

(** ** The wording of the specification, for comparison with the code *)

Module spec.

(** Section 4.2 of the specification: the fingerprint is
    [typ [":" ref]* [":self"]? ":" hash.base16 ":" dir ":" name], the
    references in the order given. *)
Definition fingerprint (typ : string) (refs : list string) (self : bool)
    (hash16 dir name : string) : string :=
  typ +:+ bytes.concat (map (fun r => ":" +:+ r) refs)
      +:+ (if self then ":self" else "")
      +:+ ":" +:+ hash16 +:+ ":" +:+ dir +:+ ":" +:+ name.

(** Section 4.2: byte [i] of the output is the XOR of bytes [i] and
    [i + 20] of the input, the twelve tail bytes going into bytes 0..11. *)
Definition xor_fold20 (d : list Z) : list Z :=
  map (fun i => if (i <? 12)%nat
                then Z.lxor (nth i d 0) (nth (i + 20) d 0)
                else nth i d 0)
      (seq 0 20).

(** Section 4.2: SHA-256, XOR-fold to 20 bytes, Nix base 32. *)
Definition digest (fp : string) : string :=
  nixbase32.EncodeToString
    (bytes.pack (xor_fold20 (bytes.unpack (sha256.Sum256 fp)))).

(** Section 4.4: the name of a fixed output is the derivation's name,
    with ["-<outputName>"] appended iff the output is not ["out"]. *)
Definition outputObjectName (drvName outputName : string) : string :=
  if String.eqb outputName "out" then drvName
  else drvName +:+ "-" +:+ outputName.

End spec.

(** ** path_eval.go: the [path] and [toFile] primitives

    The functions talk to the Lua state, the file system, the cache
    database and the store's import endpoint.  What these answer is a
    parameter ([World]); what the functions do to them is recorded, in
    order, as a list of events. *)

Module zb.

Import storepath.

(** A Lua value, as far as the two primitives look at it: of a table,
    the fields [path] and [name] ([LuaNil] when absent). *)
Inductive lua_value :=
| LuaNil
| LuaString (s : string) (context : list string)
| LuaTable (path name : lua_value)
| LuaOther.

(** [lua.ToString] / [lua.CheckString] *)
Definition ToString (v : lua_value) : result string :=
  match v with
  | LuaString s _ => Ok s
  | _ => Fail (Errorf "string expected" [])
  end.

Definition StringContext (v : lua_value) : list string :=
  match v with LuaString _ c => c | _ => [] end.

(** [fs.FileMode] bits. *)
Definition ModeDir : Z := Z.shiftl 1 31.
Definition ModeSymlink : Z := Z.shiftl 1 27.
Definition ModeDevice : Z := Z.shiftl 1 26.
Definition ModeNamedPipe : Z := Z.shiftl 1 25.
Definition ModeSocket : Z := Z.shiftl 1 24.
Definition ModeCharDevice : Z := Z.shiftl 1 21.
Definition ModeIrregular : Z := Z.shiftl 1 19.
Definition ModeType : Z :=
  Z.lor ModeDir (Z.lor ModeSymlink (Z.lor ModeNamedPipe (Z.lor ModeSocket
    (Z.lor ModeDevice (Z.lor ModeCharDevice ModeIrregular))))).
Definition ModePerm : Z := 511. (* 0o777 *)
Definition Type_ (mode : Z) : Z := Z.land mode ModeType.
Definition Perm (mode : Z) : Z := Z.land mode ModePerm.

(** A row of the temporary table that [walkPath] fills. *)
Record walk_row := mkRow {
  row_path : string; row_mode : Z; row_size : Z; row_link_target : string
}.

(** [nar.Header], and the payload that follows it for a regular file. *)
Record nar_header := mkHeader {
  hPath : string; hMode : Z; hSize : Z; hLinkTarget : string
}.

Inductive event :=
| EvDropWalk
| EvStartImport
| EvNarHeader (h : nar_header)
| EvNarData (data : string)
| EvNarClose
| EvTrailer (storePath : Path) (references : list string)
| EvCloseImport
| EvUpdateCache (storePath : Path)
| EvPushStringContext (s : string) (context : list string).

Record World := mkWorld {
  storeDir : Directory;
  absSourcePath : string -> result string;
  filepath_Base : string -> string;
(** [walkPath]: the rows in the order of [walk/iterate.sql]. *)
walkPath : string -> result (list walk_row);
(** [find.sql]: the [path] column of the rows for a name. *)
find_rows : string -> list string;
Lstat : string -> bool;
startImport : result unit;
(** [nar.Writer.WriteHeader], given the headers written before. *)
WriteHeader : list nar_header -> nar_header -> result unit;
(** [os.Open] and [io.Copy] of a file into the [nar.Writer]: the bytes
    copied, or the error of either. *)
readFile : string -> result string;
(** [io.Copy] of the contents of a string into the [nar.Writer]. *)
nar_Write : string -> result unit;
(** The bytes of the archive made of the given headers and payloads. *)
nar_bytes : list (nar_header * string) -> string;
nar_Close : result unit;
Trailer : Path -> list string -> result unit;
Close : result unit;
updateCache : Path -> result unit;
fixedCAOutputPath :
  Directory -> string -> nix.ContentAddress -> zbstore.References -> result Path
}.

(** A computation that appends events and may fail. *)
Definition M (A : Type) : Type := list event -> result A * list event.
Definition ret {A} (a : A) : M A := fun tr => (Ok a, tr).
Definition raise {A} (e : failure) : M A := fun tr => (Fail e, tr).
Definition emit (e : event) : M unit := fun tr => (Ok tt, tr ++ [e]).
Definition lift {A} (r : result A) : M A := fun tr => (r, tr).
Definition bind {A B} (m : M A) (k : A -> M B) : M B :=
  fun tr => match m tr with
            | (inr a, tr') => k a tr'
            | (inl e, tr') => (inl e, tr')
            end.
(** [defer f] around a body: [f] runs when the body returns, failed or not. *)
Definition defer {A} (d : M unit) (body : M A) : M A :=
  fun tr => let '(r, tr') := body tr in (r, snd (d tr')).
(** Wrap the failure of [m], as [fmt.Errorf(format, ..., err)] does. *)
Definition wrap {A} (format : string) (args : list fmt_arg) (m : M A) : M A :=
  fun tr => match m tr with
            | (inl e, tr') => (inl (Errorf format (args ++ [fErr e])), tr')
            | ok => ok
            end.

Global Instance M_ret : MRet M := @ret.
Global Instance M_bind : MBind M := fun A B k m => bind m k.

Section WithWorld.

Variable w : World.

(** The [ResultFunc] of [checkStamp], run on each row in turn; [found]
    is the captured variable. *)
Fixpoint checkStamp_rows (path : string) (rows : list string) (found : Path)
    : result Path :=
  match rows with
  | [] => Ok found
  | row :: rest =>
      match ParsePath row with
      | inr p =>
          if negb (String.eqb (Dir p) (storeDir w))
          then checkStamp_rows path rest found
          else if negb (String.eqb found "")
          then Fail (Errorf "multiple store paths found for %s (hash collision)"
                       [fStr path])
          else checkStamp_rows path rest p
      | inl _ => checkStamp_rows path rest found
      end
  end.

(** [Eval.checkStamp] *)
Definition checkStamp (path name : string) : result Path :=
  match checkStamp_rows path (find_rows w name) "" with
  | inl err =>
      Fail (Errorf "check stamp for %s: find match: %v" [fStr path; fErr err])
  | inr found =>
      if String.eqb found ""
      then Fail (Errorf "check stamp for %s: no match" [fStr path])
      else Ok found
  end.

(** The [ResultFunc] of the walk iteration in [pathFunction]: one row. *)
Definition streamRow (p : string) (written : list nar_header) (row : walk_row)
    : M (nar_header * string) :=
  let fpath := row_path row in
  subpath ←
    (if negb (String.eqb fpath p) then
       match bytes.CutPrefix fpath (p +:+ "/") with
       | Some sub => ret sub
       | None => raise (Errorf "can't make %s relative to %s" [fStr fpath; fStr p])
       end
     else ret "");
  let mode := row_mode row in
  if Type_ mode =? ModeDir then
    let h := mkHeader subpath (Z.lor ModeDir ModePerm) 0 "" in
    lift (WriteHeader w written h);; emit (EvNarHeader h);; ret (h, "")
  else if Type_ mode =? ModeSymlink then
    let h := mkHeader subpath (Z.lor ModeSymlink ModePerm) 0 (row_link_target row) in
    lift (WriteHeader w written h);; emit (EvNarHeader h);; ret (h, "")
  else
    let size := row_size row in
    let h := mkHeader subpath (Perm mode) size "" in
    lift (WriteHeader w written h);; emit (EvNarHeader h);;
    data ← lift (readFile w fpath);
    emit (EvNarData data);;
    if negb (Z.of_nat (String.length data) =? size)
    then raise (Errorf "%s changed size during import" [fStr fpath])
    else ret (h, data).

Fixpoint streamRows (p : string) (rows : list walk_row)
    (done : list (nar_header * string)) : M (list (nar_header * string)) :=
  match rows with
  | [] => ret done
  | row :: rest =>
      e ← streamRow p (map fst done) row;
      streamRows p rest (done ++ [e])
  end.

(** The second half of [pathFunction], from [startImport] on: stream
    the archive to the store, announce the store path, update the
    cache. *)
Definition pathImport (p name : string) (rows : list walk_row) : M Z :=
  wrap "path: %v" [] (lift (startImport w));;
  emit EvStartImport;;
  defer (emit EvCloseImport) (
    entries ← wrap "path: %v" [] (streamRows p rows []);
    wrap "path: %v" [] (emit EvNarClose;; lift (nar_Close w));;
    let sum := nix.SumHash (nar_bytes w entries) in
    storePath ← wrap "path: %v" []
      (lift (fixedCAOutputPath w (storeDir w) name
               (nix.RecursiveFileContentAddress sum) zbstore.noReferences));
    wrap "path: %v" [] (emit (EvTrailer storePath []);;
                        lift (Trailer w storePath []));;
    wrap "path: %v" [] (emit EvCloseImport;; lift (Close w));;
    wrap "path: updating cache: %v" []
      (emit (EvUpdateCache storePath);; lift (updateCache w storePath));;
    emit (EvPushStringContext storePath [storePath]);;
    ret 1).

(** [Eval.pathFunction]; the result is the number of Lua results.  Of the
    Lua stack the events record the results that are pushed.  A table
    argument is taken as far as its fields [path] and [name] are strings
    or absent: the values that [l.Field] pushes and [l.Pop] removes while
    they are read are no events, [l.Field] does not fail, and a field that
    is no string is not converted. *)
Definition pathFunction (arg : lua_value) : M Z :=
  pn ←
    match arg with
    | LuaString p _ => ret (p, "")
    | LuaTable fpath fname =>
        match fpath with
        | LuaNil => raise (Errorf "bad argument #1: missing path" [])
        | v =>
            p ← wrap "path: %v" [] (lift (ToString v));
            match fname with
            | LuaString name _ => ret (p, name)
            | _ => ret (p, "")
            end
        end
    | _ => raise (Errorf "bad argument #1: string or table expected" [])
    end;
  let '(p, name) := pn in
  p ← wrap "path: %v" [] (lift (absSourcePath w p));
  let name := if String.eqb name "" then filepath_Base w p else name in
  rows ← wrap "path: %v" [] (lift (walkPath w p));
  defer (emit EvDropWalk) (
    (* If we already imported and it exists in the store, don't do an
       import. *)
    let reuse :=
      match checkStamp p name with
      | inr prevStorePath =>
          if Lstat w prevStorePath then Some prevStorePath else None
      | inl _ => None
      end in
    match reuse with
    | Some prevStorePath =>
        emit (EvPushStringContext prevStorePath [prevStorePath]);;
        ret 1
    | None => pathImport p name rows
    end).

(** A row that [checkStamp] does not skip. *)
Definition counted (row : string) : bool :=
  match ParsePath row with
  | inr p => String.eqb (Dir p) (storeDir w)
  | inl _ => false
  end.

(** The cache holds more than one store path for a name. *)
Definition ambiguous (name : string) : Prop :=
  (2 <= length (List.filter counted (find_rows w name)))%nat.

(** The loop over [l.StringContext(2)] in [toFileFunction]. *)
Fixpoint collectRefs (name : string) (deps : list string) (others : sortedset.t)
    : result sortedset.t :=
  match deps with
  | [] => Ok others
  | dep :: rest =>
      if bytes.HasPrefix dep "!"
      then Fail (Errorf "toFile %q: cannot depend on derivation outputs" [fStr name])
      else collectRefs name rest (sortedset.Add others dep)
  end.

(** [Eval.toFileFunction] *)
Definition toFileFunction (arg1 arg2 : lua_value) : M Z :=
  name ← lift (ToString arg1);
  s ← lift (ToString arg2);
  let h := nix.WriteString nix.NewHasher s in
  others ← lift (collectRefs name (StringContext arg2) sortedset.empty);
  let refs := zbstore.mkReferences false others in
  storePath ← wrap "toFile %q: %v" [fStr name]
    (lift (fixedCAOutputPath w (storeDir w) name
             (nix.TextContentAddress (nix.SumHash h)) refs));
  if Lstat w storePath then
    emit (EvPushStringContext storePath [storePath]);; ret 1
  else
    wrap "toFile %q: %v" [fStr name] (lift (startImport w));;
    emit EvStartImport;;
    defer (emit EvCloseImport) (
      (* writeSingleFileNAR *)
      let hdr := mkHeader "" 0 (Z.of_nat (String.length s)) "" in
      wrap "toFile %q: %v" [fStr name]
        (lift (WriteHeader w [] hdr);; emit (EvNarHeader hdr);;
         lift (nar_Write w s);; emit (EvNarData s);;
         emit EvNarClose;; lift (nar_Close w));;
      wrap "toFile %q: %v" [fStr name]
        (emit (EvTrailer storePath others);; lift (Trailer w storePath others));;
      wrap "toFile %q: %v" [fStr name] (emit EvCloseImport;; lift (Close w));;
      emit (EvPushStringContext storePath [storePath]);;
      ret 1).

End WithWorld.

(** The error of [checkStamp] for more than one match. *)
Definition collision (path : string) : failure :=
  Errorf "multiple store paths found for %s (hash collision)" [fStr path].

End zb.

(** ** Values for the examples *)

Module example.

(** Section 4.5 of the specification, step 6: the store path of a source
    import, [makeStorePath(dir, "source", hash, name, refs)].  The
    examples use it where a [FixedCAOutputPath] is needed. *)
Definition sourcePath (dir : storepath.Directory) (name : string)
    (ca : nix.ContentAddress) (refs : zbstore.References) : result storepath.Path :=
  zbstore.makeStorePath dir "source" (nix.CA_Hash ca) name refs.

Definition cached1 : string := "/zb/store/00000000000000000000000000000000-src".
Definition cached2 : string := "/zb/store/11111111111111111111111111111111-src".

(** A world in which everything succeeds, both cached paths exist in the
    store, and the cache has two store paths for every name. *)
Definition world2 : zb.World := {|
  zb.storeDir := "/zb/store";
  zb.absSourcePath := fun p => Ok p;
  zb.filepath_Base := fun _ => "src";
  zb.walkPath := fun p => Ok [zb.mkRow p zb.ModeDir (-1) ""];
  zb.find_rows := fun _ => [cached1; cached2];
  zb.Lstat := fun _ => true;
  zb.startImport := Ok tt;
  zb.WriteHeader := fun _ _ => Ok tt;
  zb.readFile := fun _ => Ok "";
  zb.nar_Write := fun _ => Ok tt;
  zb.nar_bytes := fun _ => "";
  zb.nar_Close := Ok tt;
  zb.Trailer := fun _ _ => Ok tt;
  zb.Close := Ok tt;
  zb.updateCache := fun _ => Ok tt;
  zb.fixedCAOutputPath := sourcePath
|}.

(** A derivation with a fixed and a floating output. *)
Definition drv : zbstore.Derivation := {|
  zbstore.Dir := "/zb/store";
  zbstore.Name := "hello";
  zbstore.System := "x86_64-linux";
  zbstore.Builder := "/bin/sh";
  zbstore.Args := ["-c"; "true"];
  zbstore.Env := <["out" := zbstore.HashPlaceholder "out"]> (<["a" := "1"]> ∅);
  zbstore.InputSources := sortedset.of_list [cached2; cached1];
  zbstore.InputDerivations :=
    <["/zb/store/00000000000000000000000000000000-a.drv" :=
        sortedset.of_list ["out"; "dev"]]> ∅;
  zbstore.Outputs :=
    <["out" := zbstore.FixedCAOutput
                 (nix.caFlat (nix.mkHash nix.SHA256 (sha256.Sum256 "hello")))]>
      (<["dev" := zbstore.FlatFileFloatingCAOutput nix.SHA256]> ∅)
|}.

(** Its ATerm. *)
Definition text : string :=
  Eval vm_compute in
    match zbstore.MarshalText sourcePath drv with
    | inr x => x
    | inl _ => ""
    end.

End example.

(** ** The ATerm grammar of the specification *)

Module grammar.

(** Section 4.3 of the specification: the text
    [Derive([output...], [inputDrv...], [inputSource...], system, builder,
    [arg...], [(k,v)...])], an output being [(name, path, caTag, hashHex)]
    and an input derivation [(drvPath, [outputName, ...])], every string
    quoted, nothing between the tokens but the commas. *)
Record Output := mkOutput {
  oName : string; oPath : string; oCA : string; oHash : string
}.

Record Derive := mkDerive {
  outputs : list Output;
  inputDrvs : list (string * list string);
  inputSrcs : list string;
  system : string;
  builder : string;
  args : list string;
  env : list (string * string)
}.

Definition tuple (l : list string) : string := "(" +:+ bytes.join "," l +:+ ")".
Definition list_ (l : list string) : string := "[" +:+ bytes.join "," l +:+ "]".

Definition print_output (o : Output) : string :=
  tuple [aterm.quoted (oName o); aterm.quoted (oPath o);
         aterm.quoted (oCA o); aterm.quoted (oHash o)].

Definition print_inputDrv (i : string * list string) : string :=
  tuple [aterm.quoted (fst i); list_ (map aterm.quoted (snd i))].

Definition print_env (kv : string * string) : string :=
  tuple [aterm.quoted (fst kv); aterm.quoted (snd kv)].

Definition print (t : Derive) : string :=
  "Derive" +:+
  tuple [list_ (map print_output (outputs t));
         list_ (map print_inputDrv (inputDrvs t));
         list_ (map aterm.quoted (inputSrcs t));
         aterm.quoted (system t);
         aterm.quoted (builder t);
         list_ (map aterm.quoted (args t));
         list_ (map print_env (env t))].

(** The elements of a list, each after its comma; [b] tells whether the
    first one has a comma too. *)
Fixpoint items (b : bool) (l : list string) : string :=
  match l with
  | [] => ""
  | x :: rest => (if b then "," else "") +:+ x +:+ items true rest
  end.

Definition ascending (l : list string) : Prop := StronglySorted sortedset.lt l.

(** The hash algorithms that a content address tag can name. *)
Definition hashAlgos : list nix.HashType := [nix.MD5; nix.SHA1; nix.SHA256; nix.SHA512].

(** The algorithm of a tag [<hashAlgo>], [r:<hashAlgo>] or
    [text:<hashAlgo>]; no other string is such a tag. *)
Definition caTag_algo (caTag : string) : option nix.HashType :=
  List.find
    (fun algo =>
       existsb (fun pre => String.eqb caTag (pre +:+ nix.HashType_String algo))
               [""; "r:"; "text:"])
    hashAlgos.

Definition is_hex_digit (c : ascii) : bool :=
  existsb (Ascii.eqb c) (list_ascii_of_string "0123456789abcdefABCDEF").

(** What "otherwise well-formed" asks of an output: a tag [<hashAlgo>],
    [r:<hashAlgo>] or [text:<hashAlgo>], hexadecimal digits for its hash,
    and either no path and no hash (floating) or a hash of the size of the
    algorithm, two digits a byte (fixed). *)
Definition output_ok (o : Output) : bool :=
  match caTag_algo (oCA o) with
  | Some algo =>
      forallb is_hex_digit (list_ascii_of_string (oHash o)) &&
      ((String.eqb (oPath o) "" && String.eqb (oHash o) "") ||
       (String.length (oHash o) =? 2 * nix.HashType_Size algo)%nat)
  | None => false
  end.

(** Modelled from the spec: the outputs of section 4.3, where the tag of
    an output is the empty string, [<hashAlgo>], [r:<hashAlgo>] or
    [text:<hashAlgo>]: the outputs above, and the outputs with the empty
    tag and no hash. *)
Definition output_listed (o : Output) : bool :=
  output_ok o || (String.eqb (oCA o) "" && String.eqb (oHash o) "").

Definition path_ok (p : string) : bool := is_ok (storepath.ParsePath p).

(** No output, input derivation or environment variable twice, every path
    a store path, every input derivation in the store directory [dir];
    [ok] says which outputs are taken. *)
Definition wellformed_with (ok : Output -> bool) (dir : string) (t : Derive) : bool :=
  forallb ok (outputs t) &&
  bool_decide (NoDup (map oName (outputs t))) &&
  forallb (fun i => path_ok (fst i) && String.eqb (storepath.Dir (fst i)) dir)
          (inputDrvs t) &&
  bool_decide (NoDup (map fst (inputDrvs t))) &&
  forallb path_ok (inputSrcs t) &&
  bool_decide (NoDup (map fst (env t))).

Definition wellformed : string -> Derive -> bool := wellformed_with output_ok.

(** Modelled from the spec: the trees of section 4.3. *)
Definition listed : string -> Derive -> bool := wellformed_with output_listed.

End grammar.

(** ** What the parser makes of a syntax tree

    The checks and the construction of [parseTuple] and of the functions it
    calls, on the strings of a syntax tree instead of the tokens of a
    scanner; the parser run on the text of a tree is shown to compute
    exactly this. *)

Module elab.

Import zbstore.

Definition output (o : grammar.Output) : result (string * option DerivationOutput) :=
  let outName := grammar.oName o in
  let path := grammar.oPath o in
  let caInfo := grammar.oCA o in
  let hashHex := grammar.oHash o in
  let '(method, parsed) := parseHashAlgorithm caInfo in
  match parsed with
  | inl err =>
      Fail (Errorf "parse %s output: hash algorithm: %v" [fStr outName; fErr err])
  | inr hashAlgo =>
      match hex.DecodeString hashHex with
      | None =>
          Fail (Errorf "parse %s output: hash: %v"
                  [fStr outName; fErr (Errorf "encoding/hex: invalid input" [])])
      | Some hashBits =>
          if String.eqb path "" && String.eqb hashHex "" then
            Ok (outName, Some (mkOutput floatingCAOutputType zeroCA method hashAlgo))
          else if negb (String.eqb hashHex "") then
            if negb (String.length hashBits =? nix.HashType_Size hashAlgo)%nat then
              Fail (Errorf
                "parse %s output: hash: incorrect size (got %d bytes but %v uses %d)"
                [fStr outName; fInt (Z.of_nat (String.length hashBits));
                 fStr (nix.HashType_String hashAlgo);
                 fInt (Z.of_nat (nix.HashType_Size hashAlgo))])
            else
              let h := nix.NewHash hashAlgo hashBits in
              match method with
              | flatFileIngestionMethod =>
                  Ok (outName, FixedCAOutput (nix.FlatFileContentAddress h))
              | recursiveFileIngestionMethod =>
                  Ok (outName, FixedCAOutput (nix.RecursiveFileContentAddress h))
              | textIngestionMethod =>
                  Ok (outName, FixedCAOutput (nix.TextContentAddress h))
              | unknownMethod =>
                  Fail (Errorf "parse %s output: unhandled hash algorithm %q"
                          [fStr outName; fStr caInfo])
              end
          else Fail (Errorf "parse %s output: unknown type" [fStr outName])
      end
  end.

Fixpoint outputs (drv : Derivation) (l : list grammar.Output) : result Derivation :=
  match l with
  | [] => Ok drv
  | o :: rest =>
      match output o with
      | inl err =>
          Fail (Errorf "parse %s derivation: %v" [fStr (Name drv); fErr err])
      | inr (outName, outType) =>
          match Outputs drv !! outName with
          | Some _ =>
              Fail (Errorf "parse %s derivation: multiple outputs named %q"
                      [fStr (Name drv); fStr outName])
          | None =>
              outputs (set_Outputs drv (<[outName := outType]> (Outputs drv))) rest
          end
      end
  end.

Definition inputDrv (i : string * list string) : result (storepath.Path * sortedset.t) :=
  match storepath.ParsePath (fst i) with
  | inl err =>
      Fail (Errorf "parse input derivation %s: %v" [fStr (fst i); fErr err])
  | inr drvPath => Ok (drvPath, sortedset.of_list (snd i))
  end.

Fixpoint inputDrvs (drv : Derivation) (l : list (string * list string))
    : result Derivation :=
  match l with
  | [] => Ok drv
  | i :: rest =>
      match inputDrv i with
      | inl err =>
          Fail (Errorf "parse %s derivation: %v" [fStr (Name drv); fErr err])
      | inr (drvPath, outputNames) =>
          if negb (String.eqb (storepath.Dir drvPath) (Dir drv)) then
            Fail (Errorf "parse %s derivation: input derivation %s not in directory %s"
                    [fStr (Name drv); fStr drvPath; fStr (Dir drv)])
          else
            match InputDerivations drv !! drvPath with
            | Some _ =>
                Fail (Errorf "parse %s derivation: multiple input derivations for %s"
                        [fStr (Name drv); fStr drvPath])
            | None =>
                inputDrvs
                  (set_InputDerivations drv
                     (<[drvPath := outputNames]> (InputDerivations drv))) rest
            end
      end
  end.

(** A string list under its callback. *)
Fixpoint strings {A} (f : string -> A -> result A) (acc : A) (l : list string)
    : result A :=
  match l with
  | [] => Ok acc
  | x :: rest =>
      match f x acc with
      | inl err => inl err
      | inr acc' => strings f acc' rest
      end
  end.

Fixpoint env (drv : Derivation) (l : list (string * string)) : result Derivation :=
  match l with
  | [] => Ok drv
  | (k, v) :: rest =>
      match Env drv !! k with
      | Some _ =>
          Fail (Errorf "parse %s derivation: env: multiple entries for %s"
                  [fStr (Name drv); fStr k])
      | None => env (set_Env drv (<[k := v]> (Env drv))) rest
      end
  end.

Definition derive (dir : storepath.Directory) (name : string) (t : grammar.Derive)
    : result Derivation :=
  let drv := mkDerivation dir name "" "" [] ∅ sortedset.empty ∅ ∅ in
  drv ← outputs (set_Outputs drv ∅) (grammar.outputs t);
  drv ← inputDrvs (set_InputDerivations drv ∅) (grammar.inputDrvs t);
  srcs ← match strings addInputSource sortedset.empty (grammar.inputSrcs t) with
          | inl err =>
              Fail (Errorf "parse %s derivation: input sources: %v"
                      [fStr (Name drv); fErr err])
          | inr srcs => Ok srcs
          end;
  let drv := set_InputSources drv srcs in
  let drv := set_System drv (grammar.system t) in
  let drv := set_Builder drv (grammar.builder t) in
  let drv := set_Args drv (grammar.args t) in
  env (set_Env drv ∅) (grammar.env t).

(** The outputs that the parser builds: floating with a method and an
    algorithm, or fixed with a content address whose hash has the size of
    its algorithm. *)
Definition hash_ok (h : nix.Hash) : bool :=
  match nix.hash_type h with
  | nix.NoHashType => false
  | t => (String.length (nix.hash_bytes h) =? nix.HashType_Size t)%nat
  end.

Definition canonical_output (out : option DerivationOutput) : bool :=
  match out with
  | None => false
  | Some (mkOutput floatingCAOutputType nix.caZero m a) =>
      match m, a with
      | unknownMethod, _ | _, nix.NoHashType => false
      | _, _ => true
      end
  | Some (mkOutput fixedCAOutputType c unknownMethod nix.NoHashType) =>
      match c with
      | nix.caZero => false
      | nix.caText h | nix.caFlat h | nix.caRecursive h => hash_ok h
      end
  | Some _ => false
  end.

(** The derivations that the parser builds. *)
Definition canonical (d : Derivation) : Prop :=
  (forall n o, Outputs d !! n = Some o -> canonical_output o = true) /\
  (forall p ns, InputDerivations d !! p = Some ns ->
                storepath.ParsePath p = inr p /\ sortedset.ok ns) /\
  sortedset.ok (InputSources d) /\
  Forall (fun s => storepath.ParsePath s = inr s) (InputSources d).

(** With text after the closing parenthesis, a tree that the parser would
    accept is rejected. *)
Definition derive_then (dir : storepath.Directory) (name : string)
    (t : grammar.Derive) (extra : string) : result Derivation :=
  match derive dir name t with
  | inl err => inl err
  | inr drv =>
      if (0 <? String.length extra)%nat
      then Fail (Errorf "parse %s derivation: trailing data" [fStr (Name drv)])
      else Ok drv
  end.

End elab.

(** ** What the marshaller writes, as a syntax tree

    The fields that [marshalText] writes for a derivation, in the order in
    which it writes them, and [None] where it fails; [marshalText] is shown
    to produce the text of this tree. *)

Module view.

Import zbstore.

Section WithFixedCAOutputPath.

Variable FixedCAOutputPath :
  storepath.Directory -> string -> nix.ContentAddress -> References ->
  result storepath.Path.

(** The fields of one output. *)
Definition output_of (dir : storepath.Directory) (drvName n : string)
    (out : option DerivationOutput) : option grammar.Output :=
  match out with
  | None => Some (grammar.mkOutput n "" "" "")
  | Some o =>
      match typ o with
      | fixedCAOutputType =>
          match DerivationOutput_Path FixedCAOutputPath (Some o) dir drvName n with
          | (p, true) =>
              match prefix (methodOfContentAddress (ca o)) with
              | inr pre =>
                  Some (grammar.mkOutput n p
                          (pre +:+ nix.HashType_String (nix.hash_type (nix.CA_Hash (ca o))))
                          (nix.RawBase16 (nix.CA_Hash (ca o))))
              | inl _ => None
              end
          | (_, false) => None
          end
      | floatingCAOutputType =>
          match prefix (method o) with
          | inr pre =>
              Some (grammar.mkOutput n ""
                      (pre +:+ nix.HashType_String (hashAlgo o)) "")
          | inl _ => None
          end
      | unknownOutputType => None
      end
  end.

Definition output (d : Derivation) (n : string) : option grammar.Output :=
  output_of (Dir d) (Name d) n (default None (Outputs d !! n)).

Definition inputDrv (d : Derivation) (p : string) : option (string * list string) :=
  if String.eqb (storepath.Dir p) (Dir d)
  then Some (p, default sortedset.empty (InputDerivations d !! p))
  else None.

Definition inputSrc (d : Derivation) (s : string) : option string :=
  if String.eqb (storepath.Dir s) (Dir d) then Some s else None.

Definition envEntry (d : Derivation) (k : string) : string * string :=
  (k, default "" (Env d !! k)).

Definition tree (d : Derivation) : option grammar.Derive :=
  if String.eqb (Name d) "" then None
  else if String.eqb (Dir d) "" then None
  else
    outs ← mapM (output d) (sortedKeys (Outputs d));
    ins ← mapM (inputDrv d) (sortedKeys (InputDerivations d));
    srcs ← mapM (inputSrc d) (InputSources d);
    Some (grammar.mkDerive outs ins srcs (System d) (Builder d) (Args d)
            (map (envEntry d) (sortedKeys (Env d)))).

End WithFixedCAOutputPath.

(** A result and what it should be: the given value, or a failure. *)
Definition agrees {A} (r : result A) (o : option A) : Prop :=
  match o with
  | Some x => r = inr x
  | None => is_ok r = false
  end.

End view.

(** ** Texts and derivations for the round trip *)

Module cases.

Import zbstore.

(** A tree whose outputs, input sources and variables are not in order. *)
Definition unsorted_tree : grammar.Derive := {|
  grammar.outputs := [grammar.mkOutput "out" "" "r:sha256" "";
                      grammar.mkOutput "dev" "" "sha256" ""];
  grammar.inputDrvs := [("/zb/store/00000000000000000000000000000000-a.drv", ["out"; "dev"])];
  grammar.inputSrcs := [example.cached2; example.cached1];
  grammar.system := "x86_64-linux";
  grammar.builder := "/bin/sh";
  grammar.args := ["-c"; "true"];
  grammar.env := [("b", "2"); ("a", "1")]
|}.

Definition unsorted : string := Eval vm_compute in grammar.print unsorted_tree.

(** What the parser makes of it. *)
Definition parsed : Derivation := {|
  Dir := "/zb/store";
  Name := "hello";
  System := "x86_64-linux";
  Builder := "/bin/sh";
  Args := ["-c"; "true"];
  Env := <["a" := "1"]> (<["b" := "2"]> ∅);
  InputSources := [example.cached1; example.cached2];
  InputDerivations :=
    <["/zb/store/00000000000000000000000000000000-a.drv" := ["dev"; "out"]]> ∅;
  Outputs :=
    <["out" := RecursiveFileFloatingCAOutput nix.SHA256]>
      (<["dev" := FlatFileFloatingCAOutput nix.SHA256]> ∅)
|}.

(** The same tree in the order of the marshaller. *)
Definition sorted_tree : grammar.Derive := {|
  grammar.outputs := [grammar.mkOutput "dev" "" "sha256" "";
                      grammar.mkOutput "out" "" "r:sha256" ""];
  grammar.inputDrvs := [("/zb/store/00000000000000000000000000000000-a.drv", ["dev"; "out"])];
  grammar.inputSrcs := [example.cached1; example.cached2];
  grammar.system := "x86_64-linux";
  grammar.builder := "/bin/sh";
  grammar.args := ["-c"; "true"];
  grammar.env := [("a", "1"); ("b", "2")]
|}.

Definition sorted : string := Eval vm_compute in grammar.print sorted_tree.

(** A text with an input source of another store directory. *)
Definition foreign_source : string :=
  "/other/store/00000000000000000000000000000000-src".

Definition foreign : string :=
  Eval vm_compute in
    grammar.print
      (grammar.mkDerive [] [] [foreign_source] "x86_64-linux" "/bin/sh" [] []).

Definition foreign_drv : Derivation :=
  mkDerivation "/zb/store" "hello" "x86_64-linux" "/bin/sh" [] ∅ [foreign_source] ∅ ∅.

(** A derivation with a floating output and the input source of another
    store directory: [marshalText] writes the output, with the prefix of
    its method, and then refuses the input source. *)
Definition floating_foreign_drv : Derivation :=
  mkDerivation "/zb/store" "hello" "x86_64-linux" "/bin/sh" [] ∅ [foreign_source] ∅
    (<["out" := RecursiveFileFloatingCAOutput nix.SHA256]> ∅).

(** A derivation with an output that is nil. *)
Definition nil_drv : Derivation :=
  mkDerivation "/zb/store" "hello" "x86_64-linux" "/bin/sh" [] ∅ [] ∅
    (<["out" := None]> ∅).

Definition nil_tree : grammar.Derive :=
  grammar.mkDerive [grammar.mkOutput "out" "" "" ""] [] []
    "x86_64-linux" "/bin/sh" [] [].

Definition nil_text : string := Eval vm_compute in grammar.print nil_tree.

End cases.

(** ** The step count of the parser

    A failure that comes from the step count of the model, at any depth of
    wrapping, and not from the code. *)
Fixpoint exhausted (e : failure) : bool :=
  match e with
  | OutOfFuel => true
  | Panic _ => false
  | Errorf _ args =>
      (fix any (l : list fmt_arg) : bool :=
         match l with
         | [] => false
         | a :: l' =>
             match a with
             | fErr e' => exhausted e'
             | _ => false
             end || any l'
         end) args
  end.

Module progress.

Import aterm zbstore.

(** What a scanner can still hand out: a token for every byte, and the
    token pushed back. *)
Definition steps (s : Scanner) : nat :=
  (Len s + match pending s with Some _ => 1 | None => 0 end)%nat.

(** A parser step from [s] does not run out of steps, and its result
    satisfies [Q]. *)
Definition good {A} (m : P A) (s : Scanner) (Q : A -> Scanner -> Prop) : Prop :=
  match m s with
  | inl e => exhausted e = false
  | inr (a, s') => Q a s'
  end.

End progress.

(** ** path_eval.go: the collation of paths *)

Module collation.

Section WithPlatform.

(** [filepath.Clean] and [os.IsPathSeparator] belong to the Go library and
    depend on the platform; [collatePath] is modelled for any of them. *)
Variable Clean : string -> string.
Variable IsPathSeparator : ascii -> bool.

(** The loop [for i := 0; i < len(a) && i < len(b); i++] of [collatePath]
    and the comparison of the lengths after it, on what is left of [a] and
    [b] from index [i] on. *)
Fixpoint collate (a b : string) : Z :=
  match a, b with
  | String x a', String y b' =>
      let aSep := IsPathSeparator x in
      let bSep := IsPathSeparator y in
      if aSep && negb bSep then -1
      else if negb aSep && bSep then 1
      else if negb aSep && negb bSep && negb (Ascii.eqb x y) then
        if (nat_of_ascii x <? nat_of_ascii y)%nat then -1 else 1
      else collate a' b'
  | EmptyString, String _ _ => -1
  | String _ _, EmptyString => 1
  | EmptyString, EmptyString => 0
  end.

(** [collatePath] *)
Definition collatePath (a b : string) : Z :=
  let a := Clean a in
  let b := Clean b in
  collate a b.

(** Two bytes that [collatePath] does not tell apart: both separators, or
    the same byte. *)
Definition alike (x y : ascii) : bool :=
  (IsPathSeparator x && IsPathSeparator y) ||
  (negb (IsPathSeparator x) && negb (IsPathSeparator y) && Ascii.eqb x y).

Fixpoint alike_all (a b : string) : bool :=
  match a, b with
  | String x a', String y b' => alike x y && alike_all a' b'
  | EmptyString, EmptyString => true
  | _, _ => false
  end.

End WithPlatform.

(** [os.IsPathSeparator] on Unix. *)
Definition unix_separator (c : ascii) : bool := Ascii.eqb c "/".

End collation.

(** ** derivation.go: reading a slice full from a byte reader *)

Module bytereader.

(** The errors that [byteReaderReadFull] tells apart: [io.EOF],
    [io.ErrUnexpectedEOF], and the others. *)
Inductive io_error :=
| EOF
| ErrUnexpectedEOF
| other_error (msg : string).

Definition is_EOF (e : io_error) : bool :=
  match e with EOF => true | _ => false end.

(** What [io.ReadFull] and [byteReaderReadFull] return, with the slice
    [p] as it is afterwards. *)
Record outcome := mkOutcome {
  slice : list ascii;
  count : nat;
  err : option io_error
}.

Section WithReader.

(** An [io.ByteReader]: its state, [ReadByte] (which returns a byte also
    with an error), and, when the value is an [io.Reader] as well, what
    [io.ReadFull] does on it. *)
Variable R : Type.
Variable ReadByte : R -> (ascii * option io_error) * R.
Variable ReadFull : option (R -> list ascii -> outcome * R).

(** [for i := range p]: [done] holds [p[:i]] and [todo] holds [p[i:]]. *)
Fixpoint fill (r : R) (done todo : list ascii) (i : nat) : outcome * R :=
  match todo with
  | [] => (mkOutcome done i None, r)
  | _ :: rest =>
      let '((c, e), r') := ReadByte r in
      match e with
      | Some e =>
          let e := if (0 <? i)%nat && is_EOF e then ErrUnexpectedEOF else e in
          (mkOutcome (done ++ c :: rest) i (Some e), r')
      | None => fill r' (done ++ [c]) rest (S i)
      end
  end.

(** [byteReaderReadFull] *)
Definition byteReaderReadFull (r : R) (p : list ascii) : outcome * R :=
  match ReadFull with
  | Some readFull => readFull r p
  | None => fill r [] p 0
  end.

(** [k] bytes read one after the other, when none of the reads fails. *)
Fixpoint read_bytes (r : R) (k : nat) : option (list ascii * R) :=
  match k with
  | O => Some ([], r)
  | S k' =>
      match ReadByte r with
      | ((c, None), r') =>
          match read_bytes r' k' with
          | Some (l, r'') => Some (c :: l, r'')
          | None => None
          end
      | ((_, Some _), _) => None
      end
  end.

End WithReader.

(** A byte reader for the examples: it hands out the bytes of a string,
    then [io.EOF] with a zero byte. *)
Definition from_string (s : string) : (ascii * option io_error) * string :=
  match s with
  | String c s' => ((c, None), s')
  | EmptyString => (("000"%char, Some EOF), EmptyString)
  end.

End bytereader.

(** ** derivation.go: references and export *)

Module export.

Import zbstore.

(** [for k := range m] visits every key of the map once, in an order that
    Go leaves open: sorted, the keys visited are the sorted keys. *)
Definition enumerates {V} (order : list string) (m : gmap string V) : Prop :=
  merge_sort String.le order = sortedKeys m.

(** [Derivation.References], with the order in which the loop ranges over
    [drv.InputDerivations]; [Grow] only reserves room. *)
Definition References_in (order : list string) (drv : Derivation) : References :=
  let others := sortedset.empty in
  let others := sortedset.AddSet others (InputSources drv) in
  let others := fold_left sortedset.Add order others in
  mkReferences false others.

(** [Derivation.References], ranging over the keys in ascending order. *)
Definition Derivation_References (drv : Derivation) : References :=
  References_in (sortedKeys (InputDerivations drv)) drv.

Section WithLibrary.

(** [FixedCAOutputPath] is not among the sources; [Sum hashType data] is
    what [nix.NewHasher(hashType)] returns from [SumHash] after [data] was
    written to it. *)
Variable FixedCAOutputPath :
  storepath.Directory -> string -> nix.ContentAddress -> References ->
  result storepath.Path.
Variable Sum : nix.HashType -> string -> nix.Hash.

(** [Derivation.Export]: the path, the data ([None] for nil) and the
    error ([None] for nil). *)
Definition Export (order : list string) (drv : Derivation) (hashType : nix.HashType)
    : storepath.Path * option string * option failure :=
  if String.eqb (Name drv) "" then
    (""%string, None, Some (Errorf "export derivation: missing name" []))
  else if String.eqb (Dir drv) "" then
    (""%string, None,
     Some (Errorf "export %s derivation: missing store directory" [fStr (Name drv)]))
  else
    match marshalText FixedCAOutputPath drv false with
    | inl err => (""%string, None, Some err)
    | inr data =>
        let h := Sum hashType data in
        match FixedCAOutputPath (Dir drv) (Name drv +:+ DerivationExt)
                (nix.TextContentAddress h) (References_in order drv) with
        | inl err => (""%string, Some data, Some err)
        | inr p => (p, Some data, None)
        end
    end.

End WithLibrary.

(** The hasher of the examples: SHA-256, whatever the type asked for. *)
Definition sha256_hasher (hashType : nix.HashType) (data : string) : nix.Hash :=
  nix.SumHash (nix.WriteString nix.NewHasher data).

End export.

(** ** Trees without output paths *)

Module masked.

(** An output, and a tree, with the path of every output left empty. *)
Definition output (g : grammar.Output) : grammar.Output :=
  grammar.mkOutput (grammar.oName g) "" (grammar.oCA g) (grammar.oHash g).

Definition tree (t : grammar.Derive) : grammar.Derive :=
  grammar.mkDerive (map output (grammar.outputs t)) (grammar.inputDrvs t)
    (grammar.inputSrcs t) (grammar.system t) (grammar.builder t) (grammar.args t)
    (grammar.env t).

End masked.

(** ** Failures that are panics *)

(** A failure that is a panic, at any depth of wrapping. *)
Fixpoint panics (e : failure) : bool :=
  match e with
  | Panic _ => true
  | OutOfFuel => false
  | Errorf _ args =>
      (fix any (l : list fmt_arg) : bool :=
         match l with
         | [] => false
         | a :: l' =>
             match a with
             | fErr e' => panics e'
             | _ => false
             end || any l'
         end) args
  end.

(** ** The events of an import *)

Module trace.

Import zb.

(** The events that stream the archive: headers and file contents. *)
Definition is_nar_event (e : event) : bool :=
  match e with
  | EvNarHeader _ | EvNarData _ => true
  | _ => false
  end.

Definition is_push (e : event) : bool :=
  match e with EvPushStringContext _ _ => true | _ => false end.

(** What [pathImport] appends after the archive when it gets as far as
    [stage]: closing the archive, announcing the store path, closing the
    connection, updating the cache, pushing the result. *)
Definition tail (stage : nat) (storePath : string) : list event :=
  firstn stage
    [EvNarClose; EvTrailer storePath []; EvCloseImport; EvUpdateCache storePath;
     EvPushStringContext storePath [storePath]].

(** The world of [example.world2] with one store path in the cache for
    every name. *)
Definition world1 : World := {|
  storeDir := storeDir example.world2;
  absSourcePath := absSourcePath example.world2;
  filepath_Base := filepath_Base example.world2;
  walkPath := walkPath example.world2;
  find_rows := fun _ => [example.cached1];
  Lstat := Lstat example.world2;
  startImport := startImport example.world2;
  WriteHeader := WriteHeader example.world2;
  readFile := readFile example.world2;
  nar_Write := nar_Write example.world2;
  nar_bytes := nar_bytes example.world2;
  nar_Close := nar_Close example.world2;
  Trailer := Trailer example.world2;
Close := Close example.world2;
updateCache := updateCache example.world2;
fixedCAOutputPath := fixedCAOutputPath example.world2
|}.

(** The world of [example.world2] with nothing in the store. *)
Definition world0 : World := {|
  storeDir := storeDir example.world2;
  absSourcePath := absSourcePath example.world2;
  filepath_Base := filepath_Base example.world2;
  walkPath := walkPath example.world2;
  find_rows := find_rows example.world2;
  Lstat := fun _ => false;
  startImport := startImport example.world2;
  WriteHeader := WriteHeader example.world2;
  readFile := readFile example.world2;
  nar_Write := nar_Write example.world2;
  nar_bytes := nar_bytes example.world2;
  nar_Close := nar_Close example.world2;
  Trailer := Trailer example.world2;
  Close := Close example.world2;
  updateCache := updateCache example.world2;
  fixedCAOutputPath := fixedCAOutputPath example.world2
|}.

End trace.

(** ** path_eval.go: stamps *)

Module stamps.

(** [%d] of [fmt.Sprintf]: the decimal digits, after a minus sign for a
    negative number. *)
Definition udec (n : N) : string := NilZero.string_of_uint (N.to_uint n).

Definition fmt_d (z : Z) : string :=
  if z <? 0 then String "-" (udec (Z.to_N (- z))) else udec (Z.to_N z).

(** [%06d]: zeros before the digits, up to six characters with the sign. *)
Definition pad (width : nat) (s : string) : string :=
  string_of_list_ascii (repeat "0"%char (width - String.length s)) +:+ s.

Definition fmt_06d (z : Z) : string :=
  if z <? 0 then String "-" (pad 5 (udec (Z.to_N (- z)))) else pad 6 (udec (Z.to_N z)).

(** What the stamp reads of an [fs.FileInfo]: the mode, the modification
    time as [Unix()] and [UTC().Nanosecond()], and the size. *)
Record FileInfo := mkInfo {
  Mode : Z;
  ModTime_Unix : Z;
  ModTime_Nanosecond : Z;
  Size : Z
}.

(** [FileMode.IsDir] *)
Definition IsDir (info : FileInfo) : bool :=
  negb (Z.land (Mode info) zb.ModeDir =? 0).

Section WithPlatform.

(** [inode] and [owner] are in files of the platform that are not among
    the sources; [os.Readlink] reads the file system. *)
Variable inode : FileInfo -> Z.
Variable owner : FileInfo -> Z * Z.
Variable Readlink : string -> result string.

(** [stampFileInfo] *)
Definition stampFileInfo (info : FileInfo) : string :=
  if IsDir info then "dir"
  else
    let '(uid, gid) := owner info in
    fmt_d (ModTime_Unix info) +:+ "." +:+
    fmt_06d (Z.quot (ModTime_Nanosecond info) 1000) +:+ "-" +:+
    fmt_d (Size info) +:+ "-" +:+
    fmt_d (inode info) +:+ "-" +:+
    fmt_d (Mode info) +:+ "-" +:+
    fmt_d uid +:+ "-" +:+
    fmt_d gid.

(** [stamp] *)
Definition stamp (path : string) (info : FileInfo) : result string :=
  if zb.Type_ (Mode info) =? zb.ModeSymlink then
    match Readlink path with
    | inl err => inl err
    | inr target => Ok ("link:" +:+ target)
    end
  else Ok (stampFileInfo info).

End WithPlatform.

(** The three kinds of entries that [stamp] tells apart. *)
Inductive kind := symlink | directory | file.

Definition kind_of (info : FileInfo) : kind :=
  if zb.Type_ (Mode info) =? zb.ModeSymlink then symlink
  else if IsDir info then directory
  else file.

Definition is_digit (c : ascii) : bool :=
  (48 <=? nat_of_ascii c)%nat && (nat_of_ascii c <=? 57)%nat.

End stamps.

(** ** derivation.go: the placeholder of an unknown output *)

Module placeholder.

(** Modelled from the spec: [Path.Digest] (file [zbstore/path.go], not
    among the sources), the 32 characters before the dash in the last
    element of a store path [<dir>/<digest>-<name>]. *)
Definition Digest (p : storepath.Path) : string :=
  match storepath.split_last p with
  | Some (_, b) =>
      string_of_list_ascii (firstn storepath.digestLength (list_ascii_of_string b))
  | None => ""
  end.

(** [strings.TrimSuffix] *)
Definition TrimSuffix (s suffix : string) : string :=
  let n := (String.length s - String.length suffix)%nat in
  if (String.length suffix <=? String.length s)%nat &&
     String.eqb (substring n (String.length suffix) s) suffix
  then substring 0 n s
  else s.

(** [UnknownCAOutputPlaceholder] *)
Definition UnknownCAOutputPlaceholder (drvPath : storepath.Path) (outputName : string)
    : string :=
  let drvName := TrimSuffix (storepath.Name drvPath) zbstore.DerivationExt in
  let h := nix.NewHasher in
  let h := nix.WriteString h "nix-upstream-output:" in
  let h := nix.WriteString h (Digest drvPath) in
  let h := nix.WriteString h ":" in
  let h := nix.WriteString h drvName in
  let h :=
    if negb (String.eqb outputName zbstore.DefaultDerivationOutputName) then
      let h := nix.WriteString h "-" in
      nix.WriteString h outputName
    else h in
  "/" +:+ nix.RawBase32 (nix.SumHash h).

End placeholder.

(** * Properties *)

(** ** SHA-256 on the test vectors of FIPS 180 *)

Example sha256_abc :
  hex.EncodeToString (sha256.Sum256 "abc")
  = "ba7816bf8f01cfea414140de5dae2223b00361a396177a9cb410ff61f20015ad".
Proof. vm_compute. reflexivity. Qed.

Example sha256_empty :
  hex.EncodeToString (sha256.Sum256 "")
  = "e3b0c44298fc1c149afbf4c8996fb92427ae41e4649b934ca495991b7852b855".
Proof. vm_compute. reflexivity. Qed.

Example sha256_two_blocks :
  hex.EncodeToString
    (sha256.Sum256 "abcdbcdecdefdefgefghfghighijhijkijkljklmklmnlmnomnopnopq")
  = "248d6a61d20638b8e5c026930c3e6039a33ce45964ff2167f6ecedd419db06c1".
Proof. vm_compute. reflexivity. Qed.

(** ** Strings *)

Section StringFacts.

Lemma str_app_nil_l (s : string) : "" +:+ s = s.
Proof. reflexivity. Qed.

Lemma str_app_cons (c : ascii) (a b : string) :
  String c a +:+ b = String c (a +:+ b).
Proof. reflexivity. Qed.

Lemma str_app_nil_r (s : string) : s +:+ "" = s.
Proof. induction s as [|c s IH]; [reflexivity | now rewrite str_app_cons, IH]. Qed.

Lemma str_app_assoc (a b c : string) : (a +:+ b) +:+ c = a +:+ (b +:+ c).
Proof. induction a as [|x a IH]; [reflexivity | now rewrite !str_app_cons, IH]. Qed.

Lemma str_length_app (a b : string) :
  String.length (a +:+ b) = (String.length a + String.length b)%nat.
Proof.
  induction a as [|x a IH]; [reflexivity|].
  rewrite str_app_cons. simpl. now rewrite IH.
Qed.

Lemma str_length_of_list (l : list ascii) :
  String.length (string_of_list_ascii l) = length l.
Proof. induction l as [|x l IH]; simpl; [reflexivity | now rewrite IH]. Qed.

Lemma str_of_list_app (l1 l2 : list ascii) :
  string_of_list_ascii (l1 ++ l2)
  = string_of_list_ascii l1 +:+ string_of_list_ascii l2.
Proof.
  induction l1 as [|x l1 IH]; simpl; [reflexivity | now rewrite IH, str_app_cons].
Qed.

Lemma str_to_list_app (a b : string) :
  list_ascii_of_string (a +:+ b)
  = list_ascii_of_string a ++ list_ascii_of_string b.
Proof.
  induction a as [|x a IH]; [reflexivity|].
  rewrite str_app_cons. simpl. now rewrite IH.
Qed.

Lemma str_length_to_list (s : string) :
  length (list_ascii_of_string s) = String.length s.
Proof. induction s as [|x s IH]; simpl; [reflexivity | now rewrite IH]. Qed.

End StringFacts.

(** ** The order on strings *)

Section StringOrder.

Lemma ltb_leb (a b : string) : String.ltb a b = true -> String.leb a b = true.
Proof. unfold String.ltb, String.leb. destruct (String.compare a b); easy. Qed.

Lemma ltb_irrefl (a : string) : String.ltb a a = false.
Proof.
  unfold String.ltb.
  destruct (String.compare a a) eqn:E; try reflexivity.
  pose proof (String.compare_antisym a a) as H. rewrite E in H. discriminate.
Qed.

Lemma ltb_neq (a b : string) : String.ltb a b = true -> a <> b.
Proof. intros H ->. rewrite ltb_irrefl in H. discriminate. Qed.

Lemma leb_neq_ltb (a b : string) :
  String.leb a b = true -> a <> b -> String.ltb a b = true.
Proof.
  unfold String.ltb, String.leb. intros H Hne.
  destruct (String.compare a b) eqn:E; try easy.
  apply String.compare_eq_iff in E. contradiction.
Qed.

Lemma ltb_trans (a b c : string) :
  String.ltb a b = true -> String.ltb b c = true -> String.ltb a c = true.
Proof.
  intros Hab Hbc.
  assert (Lab : String.le a b) by (apply Is_true_true, ltb_leb, Hab).
  assert (Lbc : String.le b c) by (apply Is_true_true, ltb_leb, Hbc).
  apply leb_neq_ltb.
  - apply Is_true_true. etrans; eassumption.
  - intros ->. apply (ltb_neq _ _ Hab).
    apply (anti_symm String.le); assumption.
Qed.

Lemma not_ltb_gt (a b : string) :
  String.eqb a b = false -> String.ltb a b = false -> String.ltb b a = true.
Proof.
  intros Hne Hlt. apply String.eqb_neq in Hne.
  destruct (String.leb_total a b) as [H|H].
  - rewrite (leb_neq_ltb _ _ H Hne) in Hlt. discriminate.
  - apply leb_neq_ltb; [assumption | congruence].
Qed.

Global Instance sortedset_lt_trans : Transitive sortedset.lt.
Proof. intros a b c. apply ltb_trans. Qed.

End StringOrder.

(** ** sortedset: [Add] keeps the slice ascending and adds one element *)

Section SortedSetFacts.

Lemma Add_In (s : sortedset.t) (x y : string) :
  In y (sortedset.Add s x) <-> y = x \/ In y s.
Proof.
  induction s as [|z s IH]; simpl.
  - intuition.
  - destruct (String.eqb x z) eqn:E.
    + apply String.eqb_eq in E. subst. simpl. intuition.
    + destruct (String.ltb x z); simpl; [intuition|].
      rewrite IH. intuition.
Qed.

Lemma Add_ok (s : sortedset.t) (x : string) :
  sortedset.ok s -> sortedset.ok (sortedset.Add s x).
Proof.
  unfold sortedset.ok. induction 1 as [|z s Hs IH Hz]; simpl.
  - repeat constructor.
  - destruct (String.eqb x z) eqn:E; [constructor; assumption|].
    destruct (String.ltb x z) eqn:L.
    + constructor; [constructor; assumption|].
      constructor; [exact L|].
      eapply Forall_impl; [exact Hz|]. intros w Hw.
      eapply ltb_trans; [exact L | exact Hw].
    + constructor; [assumption|].
      apply Forall_forall. intros w Hw. apply list_elem_of_In, Add_In in Hw.
      destruct Hw as [->|Hw].
      * apply not_ltb_gt; assumption.
      * rewrite Forall_forall in Hz. apply Hz, list_elem_of_In, Hw.
Qed.

Lemma fold_Add_ok (l : list string) (s : sortedset.t) :
  sortedset.ok s -> sortedset.ok (fold_left sortedset.Add l s).
Proof. revert s. induction l; simpl; auto using Add_ok. Qed.

Lemma fold_Add_In (l : list string) (s : sortedset.t) (y : string) :
  In y (fold_left sortedset.Add l s) <-> In y s \/ In y l.
Proof.
  revert s. induction l as [|x l IH]; simpl; intros s; [intuition|].
  rewrite IH, Add_In. intuition.
Qed.

Lemma of_list_ok (l : list string) : sortedset.ok (sortedset.of_list l).
Proof. apply fold_Add_ok. constructor. Qed.

Lemma of_list_In (l : list string) (y : string) :
  In y (sortedset.of_list l) <-> In y l.
Proof. unfold sortedset.of_list. rewrite fold_Add_In. simpl. intuition. Qed.

(** An ascending slice is determined by its elements. *)
Lemma ok_ext (s t : sortedset.t) :
  sortedset.ok s -> sortedset.ok t -> (forall x, In x s <-> In x t) -> s = t.
Proof.
  unfold sortedset.ok. intros Hs. revert t.
  induction Hs as [|a s Hs IH Ha]; intros t Ht Hext.
  - destruct t as [|b t]; [reflexivity|].
    exfalso. apply (Hext b). now left.
  - destruct Ht as [|b t Ht Hb].
    { exfalso. apply (Hext a). now left. }
    rewrite Forall_forall in Ha, Hb.
    assert (a = b) as <-.
    { destruct (proj1 (Hext a) (or_introl eq_refl)) as [E|Hin]; [congruence|].
      destruct (proj2 (Hext b) (or_introl eq_refl)) as [E|Hin']; [congruence|].
      apply list_elem_of_In, Hb in Hin. apply list_elem_of_In, Ha in Hin'.
      pose proof (ltb_trans _ _ _ Hin Hin') as C.
      rewrite ltb_irrefl in C. discriminate. }
    f_equal. apply IH; [assumption|].
    intros x. split; intros Hx.
    + destruct (proj1 (Hext x) (or_intror Hx)) as [E|Hin]; [|assumption].
      subst. apply list_elem_of_In, Ha in Hx. unfold sortedset.lt in Hx.
      rewrite ltb_irrefl in Hx. discriminate.
    + destruct (proj2 (Hext x) (or_intror Hx)) as [E|Hin]; [|assumption].
      subst. apply list_elem_of_In, Hb in Hx. unfold sortedset.lt in Hx.
      rewrite ltb_irrefl in Hx. discriminate.
Qed.

End SortedSetFacts.

(** ** Digests *)

Section DigestFacts.

Lemma length_pack (l : list Z) : String.length (bytes.pack l) = length l.
Proof. unfold bytes.pack. now rewrite str_length_of_list, length_map. Qed.

Lemma length_unpack (s : string) : length (bytes.unpack s) = String.length s.
Proof. unfold bytes.unpack. now rewrite length_map, str_length_to_list. Qed.

Lemma to_Z_range (c : ascii) : 0 <= bytes.to_Z c < 256.
Proof.
  unfold bytes.to_Z. pose proof (N_ascii_bounded c). lia.
Qed.

Lemma of_to_Z (c : ascii) : bytes.of_Z (bytes.to_Z c) = c.
Proof.
  unfold bytes.of_Z. rewrite Z.mod_small by apply to_Z_range.
  unfold bytes.to_Z. rewrite N2Z.id. apply ascii_N_embedding.
Qed.

Lemma pack_unpack (s : string) : bytes.pack (bytes.unpack s) = s.
Proof.
  unfold bytes.pack, bytes.unpack. rewrite map_map.
  rewrite (map_ext _ (fun c => c)) by apply of_to_Z.
  rewrite map_id. apply string_of_list_ascii_of_string.
Qed.

Lemma length_be (n : nat) (x : Z) : length (sha256.be n x) = n.
Proof. unfold sha256.be. now rewrite length_map, length_rev, length_seq. Qed.

(** A SHA-256 digest has 32 bytes. *)
Lemma length_Sum256 (msg : string) : String.length (sha256.Sum256 msg) = 32%nat.
Proof.
  unfold sha256.Sum256. rewrite length_pack. unfold sha256.digest.
  rewrite !length_app, !length_be. reflexivity.
Qed.

Lemma length_EncodeToString (src : string) :
  String.length (nixbase32.EncodeToString src)
  = nixbase32.EncodedLen (String.length src).
Proof.
  unfold nixbase32.EncodeToString.
  now rewrite str_length_of_list, length_map, length_rev, length_seq, length_unpack.
Qed.

Lemma char_at_is_char (l : list Z) (n : nat) :
  nixbase32.is_char (nixbase32.char_at l n) = true.
Proof.
  unfold nixbase32.char_at.
  match goal with |- context [Z.land ?c 31] => generalize c end.
  intros c. change 31 with (Z.ones 5). rewrite Z.land_ones by lia.
  pose proof (Z.mod_pos_bound c (2 ^ 5) eq_refl) as Hb.
  remember (Z.to_nat (c mod 2 ^ 5)) as k eqn:Hk.
  assert (k < 32)%nat as Hlt by (subst k; change (2 ^ 5) with 32 in *; lia).
  clear Hk Hb.
  do 32 (destruct k as [|k]; [reflexivity|]). lia.
Qed.

Lemma EncodeToString_alphabet (src : string) :
  forallb nixbase32.is_char
    (list_ascii_of_string (nixbase32.EncodeToString src)) = true.
Proof.
  unfold nixbase32.EncodeToString.
  rewrite list_ascii_of_string_of_list_ascii.
  apply forallb_forall. intros c Hc. apply in_map_iff in Hc.
  destruct Hc as (n & <- & _). apply char_at_is_char.
Qed.

(** On a 32-byte input the library's folding loop is the fold of the
    specification. *)
Lemma xor_fold_20_32 (l : list Z) :
  length l = 32%nat ->
  nix.xor_fold 20 (repeat 0 20) 0 l = spec.xor_fold20 l.
Proof.
  intros H.
  do 32 (destruct l as [|? l]; [discriminate H|]).
  destruct l; [|discriminate H].
  cbn -[Z.lxor]. rewrite !Z.lxor_0_l. reflexivity.
Qed.

Lemma CompressHash_fold (s : string) :
  String.length s = 32%nat ->
  nix.CompressHash 20 s = bytes.pack (spec.xor_fold20 (bytes.unpack s)).
Proof.
  intros H. unfold nix.CompressHash.
  now rewrite xor_fold_20_32 by (rewrite length_unpack; exact H).
Qed.

Lemma length_xor_fold20 (d : list Z) : length (spec.xor_fold20 d) = 20%nat.
Proof. unfold spec.xor_fold20. now rewrite length_map, length_seq. Qed.

(** The digest of a store path: 32 characters of the base-32 alphabet. *)
Lemma length_digest (fp : string) : String.length (spec.digest fp) = 32%nat.
Proof.
  unfold spec.digest.
  now rewrite length_EncodeToString, length_pack, length_xor_fold20.
Qed.

End DigestFacts.

(** ** Store path fingerprints *)

Section Fingerprint.

Import zbstore.

Lemma At_app (pre post : list string) (x : string) :
  sortedset.At (pre ++ x :: post) (length pre) = x.
Proof. unfold sortedset.At. induction pre; simpl; auto. Qed.

Lemma writeOthers_app (post pre : list string) (h : string) :
  writeOthers (length post) (length pre) (pre ++ post) h
  = h +:+ bytes.concat (map (fun r => ":" +:+ r) post).
Proof.
  revert pre h. induction post as [|x post IH]; intros pre h; simpl.
  - now rewrite str_app_nil_r.
  - rewrite At_app.
    replace (pre ++ x :: post) with ((pre ++ [x]) ++ post)
      by (now rewrite <- app_assoc).
    replace (S (length pre)) with (length (pre ++ [x]))
      by (rewrite length_app; simpl; lia).
    rewrite IH. now rewrite !str_app_assoc.
Qed.

Lemma makeStorePath_spec (dir typ : string) (hash : nix.Hash) (name : string)
    (refs : References) :
  makeStorePath dir typ hash name refs
  = storepath.Object dir
      (spec.digest
         (spec.fingerprint typ (Others refs) (Self refs) (nix.Base16 hash) dir name)
       +:+ "-" +:+ name).
Proof.
  unfold makeStorePath, sortedset.Len.
  pose proof (writeOthers_app (Others refs) [] ("" +:+ typ)) as W.
  simpl in W. rewrite W. clear W.
  rewrite CompressHash_fold by apply length_Sum256.
  unfold spec.digest, spec.fingerprint.
  do 3 f_equal. f_equal. f_equal.
  destruct (Self refs); rewrite ?str_app_assoc, ?str_app_nil_l; reflexivity.
Qed.

End Fingerprint.

(** C1. [makeStorePath] hashes, with SHA-256, the type tag, then every
    reference in ascending order behind a colon, then [":self"] exactly when
    the self flag is set, then the base-16 hash, the directory and the name,
    each behind a colon and with nothing after the name; the digest is
    XOR-folded to 20 bytes and written in 32 characters of the Nix base-32
    alphabet, and the result is the object [<digest>-<name>] of [dir].  The
    references may be added to the set in any order and more than once. *)
Theorem makeStorePath_fingerprint
    (dir typ : string) (hash : nix.Hash) (name : string)
    (self : bool) (added : list string) :
  exists (rs : list string) (digest : string),
    StronglySorted sortedset.lt rs /\
    (forall r, In r rs <-> In r added) /\
    digest
    = nixbase32.EncodeToString
        (bytes.pack (spec.xor_fold20 (bytes.unpack (sha256.Sum256
           (typ +:+ bytes.concat (map (fun r => ":" +:+ r) rs)
                +:+ (if self then ":self" else "")
                +:+ ":" +:+ nix.Base16 hash +:+ ":" +:+ dir +:+ ":" +:+ name))))) /\
    String.length (sha256.Sum256
           (spec.fingerprint typ rs self (nix.Base16 hash) dir name)) = 32%nat /\
    String.length digest = 32%nat /\
    forallb nixbase32.is_char (list_ascii_of_string digest) = true /\
    zbstore.makeStorePath dir typ hash name
      (zbstore.mkReferences self (sortedset.of_list added))
    = storepath.Object dir (digest +:+ "-" +:+ name).
Proof.
  exists (sortedset.of_list added).
  eexists. split; [apply of_list_ok|]. split; [apply of_list_In|].
  split; [reflexivity|]. split; [apply length_Sum256|].
  split; [apply length_digest|]. split; [apply EncodeToString_alphabet|].
  apply makeStorePath_spec.
Qed.

(** ** Derivation outputs *)

(** C5. For a non-nil output, [IsFloating] is true exactly for the outputs
    of the fixed type: it agrees with [IsFixed], and it is false for what
    [FlatFileFloatingCAOutput] and [RecursiveFileFloatingCAOutput] return.
    (The comment above [IsFloating] in the source promises the opposite
    for these two.) *)
Theorem IsFloating_is_IsFixed (o : zbstore.DerivationOutput) :
  (zbstore.IsFloating (Some o) = true <-> zbstore.typ o = zbstore.fixedCAOutputType) /\
  zbstore.IsFloating (Some o) = zbstore.IsFixed (Some o) /\
  (forall ca, zbstore.IsFloating (zbstore.FixedCAOutput ca) = true) /\
  (forall h, zbstore.IsFloating (zbstore.FlatFileFloatingCAOutput h) = false) /\
  (forall h, zbstore.IsFloating (zbstore.RecursiveFileFloatingCAOutput h) = false).
Proof.
  split; [|repeat split].
  unfold zbstore.IsFloating.
  destruct (zbstore.typ o); simpl; split; congruence.
Qed.

(** C8. For every output of the fixed type, [Path] asks [FixedCAOutputPath]
    for the object named after the derivation when the output is ["out"],
    and named [<drvName>-<outputName>] otherwise, under the given store
    directory, with the output's content address and no references:
    ["hello"] with ["out"] gives ["hello"], with ["dev"] it gives
    ["hello-dev"]. *)
Theorem Path_object_name
    (FixedCAOutputPath :
       storepath.Directory -> string -> nix.ContentAddress ->
       zbstore.References -> result storepath.Path)
    (ca : nix.ContentAddress) (method : zbstore.contentAddressMethod)
    (hashAlgo : nix.HashType) (store : storepath.Directory)
    (drvName outputName : string) :
  let out := Some (zbstore.mkOutput zbstore.fixedCAOutputType ca method hashAlgo) in
  let name := if String.eqb outputName "out" then drvName
              else drvName +:+ "-" +:+ outputName in
  zbstore.IsFixed out = true /\
  name = spec.outputObjectName drvName outputName /\
  zbstore.DerivationOutput_Path FixedCAOutputPath out store drvName outputName
  = match FixedCAOutputPath store name ca zbstore.noReferences with
    | inr p => (p, true)
    | inl _ => (""%string, false)
    end /\
  spec.outputObjectName "hello" "out" = "hello" /\
  spec.outputObjectName "hello" "dev" = "hello-dev".
Proof.
  simpl. repeat split.
  unfold zbstore.DerivationOutput_Path; simpl.
  unfold zbstore.DefaultDerivationOutputName.
  destruct (String.eqb outputName "out"); reflexivity.
Qed.

(** C9. [HashPlaceholder] is a slash followed by the Nix base-32 form of
    the SHA-256 digest of ["nix-output:"] and the output name; the result
    has 53 characters, and for ["out"] it is the placeholder that Nix uses. *)
Theorem HashPlaceholder_spec (outputName : string) :
  zbstore.HashPlaceholder outputName
  = "/" +:+ nixbase32.EncodeToString (sha256.Sum256 ("nix-output:" +:+ outputName)) /\
  String.length (zbstore.HashPlaceholder outputName) = 53%nat /\
  zbstore.HashPlaceholder "out"
  = "/" +:+ nixbase32.EncodeToString (sha256.Sum256 "nix-output:out") /\
  zbstore.HashPlaceholder "out"
  = "/1rz4g4znpzjwh1xymhjpm42vipw92pr73vdgl6xs1hycac8kf2n9".
Proof.
  split; [reflexivity|]. split; [|split; [reflexivity | vm_compute; reflexivity]].
  unfold zbstore.HashPlaceholder, nix.RawBase32, nix.SumHash. simpl nix.hash_bytes.
  rewrite str_length_app, length_EncodeToString, length_Sum256. reflexivity.
Qed.

(** C10. On a nil receiver the public methods of [*DerivationOutput] return
    without touching the pointer: [IsFixed] and [IsFloating] are false and
    [Path] is the empty path with [ok = false]. *)
Theorem nil_output_methods
    (FixedCAOutputPath :
       storepath.Directory -> string -> nix.ContentAddress ->
       zbstore.References -> result storepath.Path)
    (store : storepath.Directory) (drvName outputName : string) :
  zbstore.IsFixed None = false /\
  zbstore.IsFloating None = false /\
  zbstore.DerivationOutput_Path FixedCAOutputPath None store drvName outputName
  = (""%string, false).
Proof. repeat split. Qed.

(** ** The [toFile] and [path] primitives *)

Section ToFile.

Import zb.

Lemma collectRefs_output (name : string) (deps : list string) (others : sortedset.t) :
  Exists (fun dep => bytes.HasPrefix dep "!" = true) deps ->
  collectRefs name deps others
  = Fail (Errorf "toFile %q: cannot depend on derivation outputs" [fStr name]).
Proof.
  intros H. revert others. induction H as [dep deps H | dep deps H IH]; intros others; simpl.
  - now rewrite H.
  - destruct (bytes.HasPrefix dep "!"); [reflexivity | apply IH].
Qed.

End ToFile.

(** C7. When a dependency in the string context of the contents starts
    with ["!"], [toFile] fails with its "cannot depend on derivation
    outputs" error and the list of events is the one it started with:
    no import connection is opened, no archive bytes are sent, no trailer
    announces a store object, and nothing is pushed on the Lua stack. *)
Theorem toFile_rejects_outputs
    (w : zb.World) (name contents : string) (nameContext context : list string)
    (tr : list zb.event) :
  Exists (fun dep => bytes.HasPrefix dep "!" = true) context ->
  zb.toFileFunction w (zb.LuaString name nameContext) (zb.LuaString contents context) tr
  = (Fail (Errorf "toFile %q: cannot depend on derivation outputs" [fStr name]), tr).
Proof.
  intros H. unfold zb.toFileFunction.
  cbv [mbind zb.M_bind zb.bind zb.lift zb.ToString Ok zb.StringContext].
  now rewrite (collectRefs_output name context sortedset.empty H).
Qed.

Lemma toFile_rejects_outputs_witness :
  zb.toFileFunction example.world2 (zb.LuaString "n" [])
    (zb.LuaString "text" ["/zb/store/00000000000000000000000000000000-src";
                          "!/zb/store/11111111111111111111111111111111-x.drv-out"]) []
  = (Fail (Errorf "toFile %q: cannot depend on derivation outputs" [fStr "n"]), []).
Proof.
  apply toFile_rejects_outputs.
  apply Exists_cons_tl, Exists_cons_hd. reflexivity.
Defined.

Section PathCache.

Import zb.

Variable w : World.

Lemma ParsePath_nonempty (row : string) (p : storepath.Path) :
  storepath.ParsePath row = inr p -> p <> ""%string.
Proof.
  unfold storepath.ParsePath.
  destruct row as [|c row]; [discriminate|].
  destruct (storepath.split_last (String c row)) as [[d b]|]; [|discriminate].
  destruct (_ && _); [|discriminate]. intros [= <-]. discriminate.
Qed.

Lemma checkStamp_rows_found (path : string) (rows : list string) (found : storepath.Path) :
  found <> ""%string ->
  (1 <= length (List.filter (counted w) rows))%nat ->
  checkStamp_rows w path rows found = Fail (collision path).
Proof.
  intros Hf. induction rows as [|row rows IH]; simpl; [lia|].
  unfold counted at 1.
  destruct (storepath.ParsePath row) as [e|p] eqn:E; simpl; [exact IH|].
  destruct (String.eqb (storepath.Dir p) (storeDir w)); simpl; [|exact IH].
  intros _. destruct (String.eqb found "") eqn:F; [|reflexivity].
  apply String.eqb_eq in F. contradiction.
Qed.

Lemma checkStamp_rows_collision (path : string) (rows : list string) :
  (2 <= length (List.filter (counted w) rows))%nat ->
  checkStamp_rows w path rows "" = Fail (collision path).
Proof.
  induction rows as [|row rows IH]; simpl; [lia|].
  unfold counted at 1.
  destruct (storepath.ParsePath row) as [e|p] eqn:E; simpl; [exact IH|].
  destruct (String.eqb (storepath.Dir p) (storeDir w)); simpl; [|exact IH].
  intros H. apply checkStamp_rows_found; [|lia].
  eapply ParsePath_nonempty; eassumption.
Qed.

Lemma checkStamp_collision (path name : string) :
  (2 <= length (List.filter (counted w) (find_rows w name)))%nat ->
  checkStamp w path name
  = Fail (Errorf "check stamp for %s: find match: %v" [fStr path; fErr (collision path)]).
Proof.
  intros H. unfold checkStamp. now rewrite checkStamp_rows_collision.
Qed.

End PathCache.

(** C6, as the code has it.  When the cache holds more than one store
    path for the name, [checkStamp] returns its hash-collision error, and
    [pathFunction] treats it as it treats every failed lookup: it reuses
    neither entry and runs a fresh import; the operation fails only if the
    import does. *)
Theorem path_collision_reimports
    (w : zb.World) (p0 : string) (context : list string) (p : string)
    (rows : list zb.walk_row) (tr : list zb.event) :
  zb.absSourcePath w p0 = inr p ->
  zb.walkPath w p = inr rows ->
  zb.ambiguous w (zb.filepath_Base w p) ->
  zb.checkStamp w p (zb.filepath_Base w p)
  = Fail (Errorf "check stamp for %s: find match: %v" [fStr p; fErr (zb.collision p)]) /\
  zb.pathFunction w (zb.LuaString p0 context) tr
  = (fst (zb.pathImport w p (zb.filepath_Base w p) rows tr),
     snd (zb.pathImport w p (zb.filepath_Base w p) rows tr) ++ [zb.EvDropWalk]).
Proof.
  intros Habs Hwalk Hamb.
  pose proof (checkStamp_collision w p _ Hamb) as Hcs.
  split; [exact Hcs|].
  unfold zb.pathFunction.
  cbv [mbind zb.M_bind zb.bind zb.ret zb.wrap zb.lift zb.defer zb.emit Ok].
  cbv iota beta. rewrite Habs. cbv iota beta. rewrite Hwalk. cbv iota beta.
  rewrite String.eqb_refl. rewrite Hcs. unfold Fail. cbv iota beta.
  destruct (zb.pathImport w p (zb.filepath_Base w p) rows tr) as [r tr']. reflexivity.
Qed.

Lemma path_collision_reimports_witness :
  zb.pathFunction example.world2 (zb.LuaString "/src" []) []
  = (fst (zb.pathImport example.world2 "/src" "src" [zb.mkRow "/src" zb.ModeDir (-1) ""] []),
     snd (zb.pathImport example.world2 "/src" "src" [zb.mkRow "/src" zb.ModeDir (-1) ""] [])
     ++ [zb.EvDropWalk]).
Proof.
  refine (proj2 (path_collision_reimports example.world2 "/src" [] "/src"
                   [zb.mkRow "/src" zb.ModeDir (-1) ""] [] _ _ _)).
  - reflexivity.
  - reflexivity.
  - unfold zb.ambiguous. vm_compute. lia.
Defined.

(** C6, as the specification has it, fails: with two store paths cached
    for the name, both present in the store, the [path] primitive succeeds;
    it opens an import connection and pushes the path it has imported. *)
Lemma path_collision_not_fatal :
  zb.ambiguous example.world2 "src" /\
  exists tr storePath,
    zb.pathFunction example.world2 (zb.LuaString "/src" []) [] = (Ok 1, tr) /\
    In zb.EvStartImport tr /\
    In (zb.EvPushStringContext storePath [storePath]) tr /\
    storePath <> example.cached1 /\ storePath <> example.cached2.
Proof.
  split; [unfold zb.ambiguous; vm_compute; lia|].
  eexists. eexists. split; [vm_compute; reflexivity|].
  split; [simpl; tauto|]. split; [simpl; tauto|].
  split; discriminate.
Qed.

(** ** The scanner on printed text *)

Section ScannerFacts.

Import aterm.

Local Arguments String.append : simpl nomatch.

Lemma scan_string_escape (s rest : string) :
  scan_string (escape s +:+ String dq rest) = Ok (s, rest).
Proof.
  induction s as [|c s IH]; [reflexivity|].
  simpl escape. unfold escape_char.
  destruct (Ascii.eqb c dq) eqn:E1.
  { apply Ascii.eqb_eq in E1. subst. simpl. now rewrite IH. }
  destruct (Ascii.eqb c bs) eqn:E2.
  { apply Ascii.eqb_eq in E2. subst. simpl. now rewrite IH. }
  destruct (Ascii.eqb c lf) eqn:E3.
  { apply Ascii.eqb_eq in E3. subst. simpl. now rewrite IH. }
  destruct (Ascii.eqb c cr) eqn:E4.
  { apply Ascii.eqb_eq in E4. subst. simpl. now rewrite IH. }
  destruct (Ascii.eqb c tab) eqn:E5.
  { apply Ascii.eqb_eq in E5. subst. simpl. now rewrite IH. }
  simpl. rewrite E1, E2, IH. reflexivity.
Qed.

Lemma read_quoted (s rest : string) (l : option Token) :
  ReadToken (mkScanner (quoted s +:+ rest) false l None)
  = Ok (tokString s, after (tokString s) true rest).
Proof.
  unfold ReadToken, quoted. simpl.
  rewrite str_app_assoc. simpl. unfold token_at. simpl.
  now rewrite scan_string_escape.
Qed.

Lemma read_comma_quoted (s rest : string) (l : option Token) :
  ReadToken (mkScanner ("," +:+ quoted s +:+ rest) true l None)
  = Ok (tokString s, after (tokString s) true rest).
Proof.
  unfold ReadToken, quoted. simpl.
  rewrite str_app_assoc. simpl. unfold token_at. simpl.
  now rewrite scan_string_escape.
Qed.

Lemma read_LP (rest : string) (l : option Token) :
  ReadToken (mkScanner ("(" +:+ rest) false l None) = Ok (tokLP, after tokLP false rest).
Proof. reflexivity. Qed.

Lemma read_comma_LP (rest : string) (l : option Token) :
  ReadToken (mkScanner ("," +:+ "(" +:+ rest) true l None)
  = Ok (tokLP, after tokLP false rest).
Proof. reflexivity. Qed.

Lemma read_LB (rest : string) (l : option Token) :
  ReadToken (mkScanner ("[" +:+ rest) false l None) = Ok (tokLB, after tokLB false rest).
Proof. reflexivity. Qed.

Lemma read_comma_LB (rest : string) (l : option Token) :
  ReadToken (mkScanner ("," +:+ "[" +:+ rest) true l None)
  = Ok (tokLB, after tokLB false rest).
Proof. reflexivity. Qed.

Lemma read_RP (b : bool) (rest : string) (l : option Token) :
  ReadToken (mkScanner (")" +:+ rest) b l None) = Ok (tokRP, after tokRP true rest).
Proof. destruct b; reflexivity. Qed.

Lemma read_RB (b : bool) (rest : string) (l : option Token) :
  ReadToken (mkScanner ("]" +:+ rest) b l None) = Ok (tokRB, after tokRB true rest).
Proof. destruct b; reflexivity. Qed.

(** The first token of an element, with the comma before it when the
    element is not the first. *)
Lemma read_item_LP (b : bool) (rest : string) (l : option Token) :
  ReadToken (mkScanner ((if b then "," else "") +:+ "(" +:+ rest) b l None)
  = Ok (tokLP, after tokLP false rest).
Proof. destruct b; reflexivity. Qed.

End ScannerFacts.

Section ParserOnText.

Import aterm zbstore.

Local Arguments aterm.quoted : simpl never.
Local Arguments grammar.items : simpl never.

Lemma items_cons (b : bool) (x : string) (l : list string) :
  grammar.items b (x :: l) = (if b then "," else "") +:+ x +:+ grammar.items true l.
Proof. reflexivity. Qed.

Lemma items_nil (b : bool) : grammar.items b [] = "".
Proof. reflexivity. Qed.

Lemma bindP_ok {A B} (m : P A) (k : A -> P B) (s s' : Scanner) (a : A) :
  m s = Ok (a, s') -> (m ≫= k) s = k a s'.
Proof. intros H. unfold mbind, P_bind, bindP. now rewrite H. Qed.

Lemma wrapP_ok {A} (format : string) (fargs : list fmt_arg) (m : P A) (s : Scanner)
    (r : A * Scanner) :
  m s = Ok r -> wrapP format fargs m s = Ok r.
Proof. intros H. unfold wrapP. now rewrite H. Qed.

Lemma parseStringList_loop_text {A} (f : string -> A -> result A) (l : list string) :
  forall (fuel : nat) (acc : A) (b : bool) (lst : option Token) (rest : string),
    (length l < fuel)%nat ->
    parseStringList_loop fuel f acc
      (mkScanner (grammar.items b (map quoted l) +:+ "]" +:+ rest) b lst None)
    = match elab.strings f acc l with
      | inr a => Ok (a, after tokRB true rest)
      | inl e => inl e
      end.
Proof.
  induction l as [|x l IH]; intros fuel acc b lst rest Hf.
  - destruct fuel as [|fuel]; [simpl in Hf; lia|].
    simpl. rewrite items_nil, str_app_nil_l.
    erewrite bindP_ok by apply read_RB. reflexivity.
  - destruct fuel as [|fuel]; [simpl in Hf; lia|].
    simpl. rewrite items_cons, !str_app_assoc.
    destruct b.
    + erewrite bindP_ok by apply read_comma_quoted.
      simpl. unfold mbind, P_bind, bindP, liftP. destruct (f x acc) as [e|acc']; [reflexivity|].
      apply IH. simpl in Hf. lia.
    + rewrite str_app_nil_l. erewrite bindP_ok by apply read_quoted.
      simpl. unfold mbind, P_bind, bindP, liftP. destruct (f x acc) as [e|acc']; [reflexivity|].
      apply IH. simpl in Hf. lia.
Qed.

Lemma read_pending (t : Token) (inp : string) (b : bool) (l : option Token) :
  ReadToken (mkScanner inp b l (Some t)) = Ok (t, mkScanner inp b l None).
Proof. reflexivity. Qed.

Lemma parseStringList_text {A} (f : string -> A -> result A) (l : list string)
    (fuel : nat) (acc : A) (lst : option Token) (rest : string) :
  (length l < fuel)%nat ->
  parseStringList fuel f acc
    (mkScanner ("," +:+ "[" +:+ grammar.items false (map quoted l) +:+ "]" +:+ rest)
       true lst None)
  = match elab.strings f acc l with
    | inr a => Ok (a, after tokRB true rest)
    | inl e => inl e
    end.
Proof.
  intros Hf. unfold parseStringList.
  erewrite bindP_ok by apply read_comma_LB. simpl.
  rewrite bindP_ok with (a := tt) (s' := after tokLB false
    (grammar.items false (map quoted l) +:+ "]" +:+ rest)) by reflexivity.
  now apply parseStringList_loop_text.
Qed.

Lemma parseDerivationOutput_text (o : grammar.Output) (rest : string) :
  parseDerivationOutput
    (mkScanner (quoted (grammar.oName o) +:+ "," +:+ quoted (grammar.oPath o) +:+ "," +:+
                quoted (grammar.oCA o) +:+ "," +:+ quoted (grammar.oHash o) +:+
                ")" +:+ rest) false (Some tokLP) (Some tokLP))
  = match elab.output o with
    | inr r => Ok (r, after tokRP true rest)
    | inl e => inl e
    end.
Proof.
  unfold parseDerivationOutput.
  erewrite bindP_ok by (apply wrapP_ok, read_pending). simpl.
  erewrite bindP_ok by reflexivity.
  erewrite bindP_ok by (apply wrapP_ok, read_quoted). simpl.
  erewrite bindP_ok by reflexivity.
  erewrite bindP_ok by (apply wrapP_ok, read_comma_quoted). simpl.
  erewrite bindP_ok by reflexivity.
  erewrite bindP_ok by (apply wrapP_ok, read_comma_quoted). simpl.
  erewrite bindP_ok by reflexivity.
  erewrite bindP_ok by (apply wrapP_ok, read_comma_quoted). simpl.
  erewrite bindP_ok by reflexivity.
  erewrite bindP_ok by (apply wrapP_ok, read_RP). simpl.
  erewrite bindP_ok by reflexivity.
  unfold elab.output.
  destruct (parseHashAlgorithm (grammar.oCA o)) as [method [err|hashAlgo]];
    [reflexivity|].
  unfold mbind, P_bind, bindP, wrapP, liftP; simpl.
  destruct (hex.DecodeString (grammar.oHash o)) as [hashBits|]; [|reflexivity].
  simpl.
  destruct (String.eqb (grammar.oPath o) "" && String.eqb (grammar.oHash o) "");
    [reflexivity|].
  destruct (negb (String.eqb (grammar.oHash o) "")); [|reflexivity].
  destruct (negb _); [reflexivity|].
  destruct method; reflexivity.
Qed.

Lemma join_items (l : list string) : bytes.join "," l = grammar.items false l.
Proof.
  destruct l as [|x l]; [reflexivity|].
  rewrite items_cons, str_app_nil_l. revert x.
  induction l as [|y l IH]; intros x.
  - now rewrite items_nil, str_app_nil_r.
  - change (bytes.join "," (x :: y :: l)) with (x +:+ "," +:+ bytes.join "," (y :: l)).
    now rewrite IH, items_cons.
Qed.

Lemma print_output_text (o : grammar.Output) :
  grammar.print_output o
  = "(" +:+ quoted (grammar.oName o) +:+ "," +:+ quoted (grammar.oPath o) +:+ "," +:+
    quoted (grammar.oCA o) +:+ "," +:+ quoted (grammar.oHash o) +:+ ")".
Proof.
  unfold grammar.print_output, grammar.tuple.
  change (bytes.join "," [?a; ?b; ?c; ?d]) with (a +:+ "," +:+ b +:+ "," +:+ c +:+ "," +:+ d).
  rewrite ?str_app_assoc; reflexivity.
Qed.

Lemma print_inputDrv_text (i : string * list string) :
  grammar.print_inputDrv i
  = "(" +:+ quoted (fst i) +:+ "," +:+ "[" +:+ grammar.items false (map quoted (snd i))
    +:+ "]" +:+ ")".
Proof.
  unfold grammar.print_inputDrv, grammar.tuple, grammar.list_.
  change (bytes.join "," [?a; ?b]) with (a +:+ "," +:+ b).
  rewrite join_items.
  rewrite ?str_app_assoc; reflexivity.
Qed.

Lemma print_env_text (kv : string * string) :
  grammar.print_env kv = "(" +:+ quoted (fst kv) +:+ "," +:+ quoted (snd kv) +:+ ")".
Proof.
  unfold grammar.print_env, grammar.tuple.
  change (bytes.join "," [?a; ?b]) with (a +:+ "," +:+ b).
  rewrite ?str_app_assoc; reflexivity.
Qed.

Lemma parseOutputs_text (outs : list grammar.Output) :
  forall (fuel : nat) (drv : Derivation) (b : bool) (lst : option Token) (rest : string),
    (length outs < fuel)%nat ->
    parseOutputs fuel drv
      (mkScanner (grammar.items b (map grammar.print_output outs) +:+ "]" +:+ rest)
         b lst None)
    = match elab.outputs drv outs with
      | inr d => Ok (d, after tokRB true rest)
      | inl e => inl e
      end.
Proof.
  induction outs as [|o outs IH]; intros fuel drv b lst rest Hf.
  - destruct fuel as [|fuel]; [simpl in Hf; lia|].
    simpl. rewrite items_nil, str_app_nil_l.
    erewrite bindP_ok by apply read_RB. reflexivity.
  - destruct fuel as [|fuel]; [simpl in Hf; lia|].
    simpl. rewrite items_cons, print_output_text, !str_app_assoc.
    assert (R : ReadToken
      (mkScanner ((if b then "," else "") +:+ "(" +:+ quoted (grammar.oName o) +:+ "," +:+
         quoted (grammar.oPath o) +:+ "," +:+ quoted (grammar.oCA o) +:+ "," +:+
         quoted (grammar.oHash o) +:+ ")" +:+
         grammar.items true (map grammar.print_output outs) +:+ "]" +:+ rest) b lst None)
      = Ok (tokLP, after tokLP false (quoted (grammar.oName o) +:+ "," +:+
         quoted (grammar.oPath o) +:+ "," +:+ quoted (grammar.oCA o) +:+ "," +:+
         quoted (grammar.oHash o) +:+ ")" +:+
         grammar.items true (map grammar.print_output outs) +:+ "]" +:+ rest))).
    { apply read_item_LP. }
    erewrite bindP_ok by exact R. simpl.
    erewrite bindP_ok by reflexivity.
    unfold mbind at 1, P_bind at 1, bindP at 1, wrapP.
    unfold aterm.UnreadToken, after; simpl.
    rewrite parseDerivationOutput_text. cbn [elab.outputs].
    destruct (elab.output o) as [e|[outName outType]]; [reflexivity|].
    unfold Ok, Fail; cbv beta iota.
    destruct (Outputs drv !! outName); [reflexivity|].
    apply IH. simpl in Hf. lia.
Qed.

Lemma strings_Add (l : list string) (acc : sortedset.t) :
  elab.strings (fun val names => Ok (sortedset.Add names val)) acc l
  = Ok (fold_left sortedset.Add l acc).
Proof. revert acc. induction l as [|x l IH]; intros acc; simpl; [reflexivity | apply IH]. Qed.

Lemma strings_append (l : list string) (acc : list string) :
  elab.strings (fun arg args => Ok (args ++ [arg])) acc l = Ok (acc ++ l).
Proof.
  revert acc. induction l as [|x l IH]; intros acc; simpl.
  - now rewrite app_nil_r.
  - rewrite IH. now rewrite <- app_assoc.
Qed.

Lemma parseInputDerivation_text (i : string * list string) (fuel : nat) (rest : string) :
  (length (snd i) < fuel)%nat ->
  parseInputDerivation fuel
    (mkScanner (quoted (fst i) +:+ "," +:+ "[" +:+
                grammar.items false (map quoted (snd i)) +:+ "]" +:+ ")" +:+ rest)
       false (Some tokLP) (Some tokLP))
  = match elab.inputDrv i with
    | inr r => Ok (r, after tokRP true rest)
    | inl e => inl e
    end.
Proof.
  intros Hf. unfold parseInputDerivation.
  erewrite bindP_ok by (apply wrapP_ok, read_pending). simpl.
  erewrite bindP_ok by reflexivity.
  erewrite bindP_ok by (apply wrapP_ok, read_quoted). simpl.
  erewrite bindP_ok by reflexivity.
  erewrite bindP_ok.
  2:{ apply wrapP_ok. unfold after. rewrite parseStringList_text by exact Hf.
      rewrite strings_Add. reflexivity. }
  erewrite bindP_ok by (apply wrapP_ok, read_RP). simpl.
  erewrite bindP_ok by reflexivity.
  unfold elab.inputDrv, mbind, P_bind, bindP, wrapP, liftP.
  destruct (storepath.ParsePath (fst i)); reflexivity.
Qed.

Lemma parseInputDerivations_text (ins : list (string * list string)) :
  forall (fuel0 fuel : nat) (drv : Derivation) (b : bool) (lst : option Token)
         (rest : string),
    (length ins < fuel)%nat ->
    Forall (fun i => (length (snd i) < fuel0)%nat) ins ->
    parseInputDerivations fuel0 fuel drv
      (mkScanner (grammar.items b (map grammar.print_inputDrv ins) +:+ "]" +:+ rest)
         b lst None)
    = match elab.inputDrvs drv ins with
      | inr d => Ok (d, after tokRB true rest)
      | inl e => inl e
      end.
Proof.
  induction ins as [|i ins IH]; intros fuel0 fuel drv b lst rest Hf Hall.
  - destruct fuel as [|fuel]; [simpl in Hf; lia|].
    simpl. rewrite items_nil, str_app_nil_l.
    erewrite bindP_ok by apply read_RB. reflexivity.
  - destruct fuel as [|fuel]; [simpl in Hf; lia|].
    apply Forall_cons in Hall as [Hi Hall].
    simpl. rewrite items_cons, print_inputDrv_text, !str_app_assoc.
    erewrite bindP_ok.
    2:{ apply read_item_LP. }
    simpl. erewrite bindP_ok by reflexivity.
    unfold mbind at 1, P_bind at 1, bindP at 1, wrapP.
    unfold aterm.UnreadToken, after; simpl.
    rewrite parseInputDerivation_text by exact Hi. cbn [elab.inputDrvs].
    destruct (elab.inputDrv i) as [e|[drvPath outputNames]]; [reflexivity|].
    unfold Ok, Fail; cbv beta iota.
    destruct (negb _); [reflexivity|].
    destruct (InputDerivations drv !! drvPath); [reflexivity|].
    apply IH; [simpl in Hf; lia | exact Hall].
Qed.

Lemma parseEnv_loop_text (kvs : list (string * string)) :
  forall (fuel : nat) (drv : Derivation) (b : bool) (lst : option Token) (rest : string),
    (length kvs < fuel)%nat ->
    parseEnv_loop fuel drv
      (mkScanner (grammar.items b (map grammar.print_env kvs) +:+ "]" +:+ rest) b lst None)
    = match elab.env drv kvs with
      | inr d => Ok (d, after tokRB true rest)
      | inl e => inl e
      end.
Proof.
  induction kvs as [|[k v] kvs IH]; intros fuel drv b lst rest Hf.
  - destruct fuel as [|fuel]; [simpl in Hf; lia|].
    simpl. rewrite items_nil, str_app_nil_l.
    erewrite bindP_ok by apply read_RB. reflexivity.
  - destruct fuel as [|fuel]; [simpl in Hf; lia|].
    simpl. rewrite items_cons, print_env_text, !str_app_assoc.
    erewrite bindP_ok.
    2:{ apply read_item_LP. }
    simpl. erewrite bindP_ok by apply read_quoted. simpl.
    erewrite bindP_ok by reflexivity.
    destruct (Env drv !! k); [reflexivity|].
    erewrite bindP_ok by apply read_comma_quoted. simpl.
    erewrite bindP_ok by reflexivity.
    erewrite bindP_ok by apply read_RP. simpl.
    erewrite bindP_ok by reflexivity.
    apply IH. simpl in Hf. lia.
Qed.

Lemma items_length (b : bool) (l : list string) :
  (forall x, In x l -> (1 <= String.length x)%nat) ->
  (length l <= String.length (grammar.items b l))%nat.
Proof.
  revert b. induction l as [|x l IH]; intros b H; [simpl; lia|].
  rewrite items_cons, !str_length_app.
  specialize (IH true (fun y Hy => H y (or_intror Hy))).
  specialize (H x (or_introl eq_refl)). simpl length. lia.
Qed.

Lemma items_length_In (b : bool) (l : list string) (x : string) :
  In x l -> (String.length x <= String.length (grammar.items b l))%nat.
Proof.
  revert b. induction l as [|y l IH]; intros b H; [destruct H|].
  rewrite items_cons, !str_length_app.
  destruct H as [->|H]; [lia|]. specialize (IH true H). lia.
Qed.

Lemma length_quoted (s : string) : (2 <= String.length (quoted s))%nat.
Proof. unfold quoted. simpl. rewrite str_length_app. simpl. lia. Qed.

Lemma items_map_length {A} (f : A -> string) (b : bool) (l : list A) :
  (forall a, (1 <= String.length (f a))%nat) ->
  (length l <= String.length (grammar.items b (map f l)))%nat.
Proof.
  intros H. rewrite <- (length_map f l). apply items_length.
  intros x Hx. apply in_map_iff in Hx as (a & <- & _). apply H.
Qed.

Lemma CutPrefix_app (p x : string) : bytes.CutPrefix (p +:+ x) p = Some x.
Proof.
  induction p as [|c p IH]; [now destruct x|].
  rewrite str_app_cons. simpl. now rewrite Ascii.eqb_refl.
Qed.

Lemma CutPrefix_Some (s p r : string) :
  bytes.CutPrefix s p = Some r -> s = p +:+ r.
Proof.
  revert s. induction p as [|a p IH]; intros s.
  - destruct s; simpl; intros [= E]; subst; now rewrite str_app_nil_l.
  - destruct s as [|b s]; simpl; [discriminate|].
    destruct (Ascii.eqb a b) eqn:E; [|discriminate].
    apply Ascii.eqb_eq in E. subst b. intros H. apply IH in H. subst s.
    now rewrite str_app_cons.
Qed.

Lemma print_text (t : grammar.Derive) :
  grammar.print t
  = "Derive" +:+ "(" +:+
    "[" +:+ grammar.items false (map grammar.print_output (grammar.outputs t)) +:+ "]" +:+
    "," +:+ "[" +:+ grammar.items false (map grammar.print_inputDrv (grammar.inputDrvs t))
    +:+ "]" +:+
    "," +:+ "[" +:+ grammar.items false (map quoted (grammar.inputSrcs t)) +:+ "]" +:+
    "," +:+ quoted (grammar.system t) +:+
    "," +:+ quoted (grammar.builder t) +:+
    "," +:+ "[" +:+ grammar.items false (map quoted (grammar.args t)) +:+ "]" +:+
    "," +:+ "[" +:+ grammar.items false (map grammar.print_env (grammar.env t)) +:+ "]" +:+
    ")".
Proof.
  unfold grammar.print, grammar.tuple, grammar.list_.
  change (bytes.join "," [?a; ?b; ?c; ?d; ?e; ?f; ?g])
    with (a +:+ "," +:+ b +:+ "," +:+ c +:+ "," +:+ d +:+ "," +:+ e +:+ "," +:+ f
          +:+ "," +:+ g).
  rewrite !join_items, !str_app_assoc. reflexivity.
Qed.

Lemma length_print_output (o : grammar.Output) :
  (1 <= String.length (grammar.print_output o))%nat.
Proof. rewrite print_output_text, str_length_app. simpl. lia. Qed.

Lemma length_print_inputDrv (i : string * list string) :
  (length (snd i) < String.length (grammar.print_inputDrv i))%nat.
Proof.
  rewrite print_inputDrv_text, !str_length_app.
  pose proof (items_map_length quoted false (snd i)
                (fun a => Nat.le_trans _ _ _ (Nat.le_succ_diag_r 1) (length_quoted a))).
  simpl String.length. lia.
Qed.

Lemma length_print_env (kv : string * string) :
  (1 <= String.length (grammar.print_env kv))%nat.
Proof. rewrite print_env_text, str_length_app. simpl. lia. Qed.

Lemma derive_unfold (dir name : string) (t : grammar.Derive) :
  elab.derive dir name t
  = match elab.outputs
            (set_Outputs (mkDerivation dir name "" "" [] ∅ sortedset.empty ∅ ∅) ∅)
            (grammar.outputs t) with
    | inl e => inl e
    | inr d1 =>
        match elab.inputDrvs (set_InputDerivations d1 ∅) (grammar.inputDrvs t) with
        | inl e => inl e
        | inr d2 =>
            match elab.strings addInputSource [] (grammar.inputSrcs t) with
            | inl err =>
                inl (Errorf "parse %s derivation: input sources: %v"
                       [fStr (Name d2); fErr err])
            | inr srcs =>
                elab.env
                  (set_Env
                     (set_Args
                        (set_Builder
                           (set_System (set_InputSources d2 srcs) (grammar.system t))
                           (grammar.builder t))
                        (grammar.args t)) ∅)
                  (grammar.env t)
            end
        end
    end.
Proof.
  unfold elab.derive, mbind, result_bind.
  destruct (elab.outputs _ (grammar.outputs t)) as [e|d1]; [reflexivity|].
  destruct (elab.inputDrvs _ (grammar.inputDrvs t)) as [e|d2]; [reflexivity|].
  destruct (elab.strings addInputSource _ (grammar.inputSrcs t)) as [e|srcs]; reflexivity.
Qed.

(** The parser on the text of a syntax tree computes [elab.derive_then]. *)
Lemma ParseDerivation_text (dir name : string) (t : grammar.Derive) (extra : string) :
  ParseDerivation dir name (grammar.print t +:+ extra)
  = elab.derive_then dir name t extra.
Proof.
  unfold ParseDerivation. rewrite print_text, !str_app_assoc, CutPrefix_app.
  match goal with |- context [parseTuple ?f _ _] => set (fuel := f) end.
  assert (Houts : (length (grammar.outputs t) < fuel)%nat).
  { subst fuel. rewrite !str_length_app.
    pose proof (items_map_length grammar.print_output false (grammar.outputs t)
                  length_print_output). lia. }
  assert (Hins : (length (grammar.inputDrvs t) < fuel)%nat).
  { subst fuel. rewrite !str_length_app.
    pose proof (items_map_length grammar.print_inputDrv false (grammar.inputDrvs t)
                  (fun i => Nat.le_trans _ _ _ (Nat.le_add_r 1 _) (length_print_inputDrv i))).
    lia. }
  assert (Hnames : Forall (fun i => (length (snd i) < fuel)%nat) (grammar.inputDrvs t)).
  { apply Forall_forall. intros i Hi.
    pose proof (length_print_inputDrv i) as H1.
    pose proof (items_length_In false (map grammar.print_inputDrv (grammar.inputDrvs t))
                  (grammar.print_inputDrv i)
                  (in_map _ _ _ (proj1 (list_elem_of_In _ _) Hi))) as H2.
    subst fuel. rewrite !str_length_app. lia. }
  assert (Hsrcs : (length (grammar.inputSrcs t) < fuel)%nat).
  { subst fuel. rewrite !str_length_app.
    pose proof (items_map_length quoted false (grammar.inputSrcs t)
                  (fun a => Nat.le_trans _ _ _ (Nat.le_succ_diag_r 1) (length_quoted a))).
    lia. }
  assert (Hargs : (length (grammar.args t) < fuel)%nat).
  { subst fuel. rewrite !str_length_app.
    pose proof (items_map_length quoted false (grammar.args t)
                  (fun a => Nat.le_trans _ _ _ (Nat.le_succ_diag_r 1) (length_quoted a))).
    lia. }
  assert (Henv : (length (grammar.env t) < fuel)%nat).
  { subst fuel. rewrite !str_length_app.
    pose proof (items_map_length grammar.print_env false (grammar.env t)
                  length_print_env). lia. }
  clearbody fuel.
  set (R := elab.derive_then dir name t extra).
  unfold parseTuple, NewScanner.
  erewrite bindP_ok by apply read_LP. simpl.
  erewrite bindP_ok by reflexivity.
  erewrite bindP_ok by apply read_LB. simpl.
  erewrite bindP_ok by reflexivity.
  unfold mbind at 1, P_bind at 1, bindP at 1. unfold after at 1.
  rewrite parseOutputs_text by exact Houts.
  destruct (elab.outputs _ (grammar.outputs t)) as [e|drv1] eqn:E1.
  { subst R. unfold elab.derive_then. now rewrite derive_unfold, E1. }
  unfold Ok; cbv beta iota.
  erewrite bindP_ok by apply read_comma_LB. simpl.
  erewrite bindP_ok by reflexivity.
  unfold mbind at 1, P_bind at 1, bindP at 1. unfold after at 1.
  rewrite parseInputDerivations_text by assumption.
  destruct (elab.inputDrvs _ (grammar.inputDrvs t)) as [e|drv2] eqn:E2.
  { subst R. unfold elab.derive_then. now rewrite derive_unfold, E1, E2. }
  unfold Ok; cbv beta iota.
  unfold mbind at 1, P_bind at 1, bindP at 1, wrapP at 1. unfold after at 1.
  rewrite parseStringList_text by exact Hsrcs.
  unfold sortedset.Clear.
  destruct (elab.strings addInputSource _ (grammar.inputSrcs t)) as [e|srcs] eqn:E3.
  { subst R. unfold elab.derive_then. now rewrite derive_unfold, E1, E2, E3. }
  unfold Ok; cbv beta iota.
  erewrite bindP_ok by apply read_comma_quoted. simpl.
  erewrite bindP_ok by reflexivity.
  erewrite bindP_ok by apply read_comma_quoted. simpl.
  erewrite bindP_ok by reflexivity.
  unfold mbind at 1, P_bind at 1, bindP at 1, wrapP at 1. unfold after at 1.
  rewrite parseStringList_text by exact Hargs.
  rewrite strings_append. unfold Ok; cbv beta iota. simpl app.
  unfold mbind at 1, P_bind at 1, bindP at 1. unfold parseEnv.
  erewrite bindP_ok by apply read_comma_LB. simpl.
  erewrite bindP_ok by reflexivity. unfold after at 1.
  rewrite parseEnv_loop_text by exact Henv.
  subst R. unfold elab.derive_then. rewrite derive_unfold, E1, E2, E3.
  match goal with |- context [elab.env ?d ?l] =>
    destruct (elab.env d l) as [e|drv3] eqn:E4 end; [reflexivity|].
  unfold Ok, after; cbv beta iota.
  erewrite bindP_ok by apply read_RP. reflexivity.
Qed.

End ParserOnText.

(** ** What the parser accepts *)

Section Elaboration.

Import zbstore.

Lemma is_error_Errorf {A} (format : string) (fargs : list fmt_arg) :
  is_error (A := A) (Fail (Errorf format fargs)).
Proof. exact I. Qed.

Lemma ParsePath_id (s : string) (p : storepath.Path) :
  storepath.ParsePath s = inr p -> p = s.
Proof.
  unfold storepath.ParsePath.
  destruct (storepath.split_last s) as [[d b]|]; [|discriminate].
  destruct (_ && _); [|discriminate]. now intros [= <-].
Qed.

Lemma ParsePath_error (s : string) (e : failure) :
  storepath.ParsePath s = inl e -> exists f a, e = Errorf f a.
Proof.
  unfold storepath.ParsePath.
  destruct (storepath.split_last s) as [[d b]|]; [destruct (_ && _)|];
    intros [= <-]; eauto.
Qed.

Lemma elab_output_name (o : grammar.Output) (n : string) (x : option DerivationOutput) :
  elab.output o = inr (n, x) -> n = grammar.oName o.
Proof.
  unfold elab.output.
  destruct (parseHashAlgorithm (grammar.oCA o)) as [m [e|a]]; [discriminate|].
  destruct (hex.DecodeString (grammar.oHash o)); [|discriminate].
  destruct (_ && _); [now intros [= <- _]|].
  destruct (negb (String.eqb _ _)); [|discriminate].
  destruct (negb _); [discriminate|].
  destruct m; try discriminate; now intros [= <- _].
Qed.

(** The loops leave the other fields alone. *)
Lemma elab_outputs_frame (l : list grammar.Output) (drv d : Derivation) :
  elab.outputs drv l = inr d ->
  Dir d = Dir drv /\ Name d = Name drv /\ System d = System drv /\
  Builder d = Builder drv /\ Args d = Args drv /\ Env d = Env drv /\
  InputSources d = InputSources drv /\ InputDerivations d = InputDerivations drv.
Proof.
  revert drv. induction l as [|o l IH]; intros drv; simpl.
  - intros [= <-]. repeat split.
  - destruct (elab.output o) as [e|[n x]]; [discriminate|].
    destruct (Outputs drv !! n); [discriminate|].
    intros H. apply IH in H. exact H.
Qed.

Lemma elab_inputDrvs_frame (l : list (string * list string)) (drv d : Derivation) :
  elab.inputDrvs drv l = inr d ->
  Dir d = Dir drv /\ Name d = Name drv /\ System d = System drv /\
  Builder d = Builder drv /\ Args d = Args drv /\ Env d = Env drv /\
  InputSources d = InputSources drv /\ Outputs d = Outputs drv.
Proof.
  revert drv. induction l as [|i l IH]; intros drv; simpl.
  - intros [= <-]. repeat split.
  - destruct (elab.inputDrv i) as [e|[p names]]; [discriminate|].
    destruct (negb _); [discriminate|].
    destruct (InputDerivations drv !! p); [discriminate|].
    intros H. apply IH in H. exact H.
Qed.

Lemma elab_env_frame (l : list (string * string)) (drv d : Derivation) :
  elab.env drv l = inr d ->
  Dir d = Dir drv /\ Name d = Name drv /\ System d = System drv /\
  Builder d = Builder drv /\ Args d = Args drv /\
  InputSources d = InputSources drv /\ InputDerivations d = InputDerivations drv /\
  Outputs d = Outputs drv.
Proof.
  revert drv. induction l as [|[k v] l IH]; intros drv; simpl.
  - intros [= <-]. repeat split.
  - destruct (Env drv !! k); [discriminate|].
    intros H. apply IH in H. exact H.
Qed.

(** Every failure of the elaboration is an error value. *)
Lemma elab_output_error (o : grammar.Output) (e : failure) :
  elab.output o = inl e -> exists f a, e = Errorf f a.
Proof.
  unfold elab.output.
  destruct (parseHashAlgorithm (grammar.oCA o)) as [m [e'|a]]; [intros [= <-]; eauto|].
  destruct (hex.DecodeString (grammar.oHash o)); [|intros [= <-]; eauto].
  destruct (_ && _); [discriminate|].
  destruct (negb (String.eqb _ _)); [|intros [= <-]; eauto].
  destruct (negb _); [intros [= <-]; eauto|].
  destruct m; try discriminate; intros [= <-]; eauto.
Qed.

Lemma elab_outputs_error (l : list grammar.Output) (drv : Derivation) (e : failure) :
  elab.outputs drv l = inl e -> exists f a, e = Errorf f a.
Proof.
  revert drv. induction l as [|o l IH]; intros drv; simpl; [discriminate|].
  destruct (elab.output o) as [e'|[n x]]; [intros [= <-]; eauto|].
  destruct (Outputs drv !! n); [intros [= <-]; eauto|]. apply IH.
Qed.

Lemma elab_inputDrvs_error (l : list (string * list string)) (drv : Derivation)
    (e : failure) :
  elab.inputDrvs drv l = inl e -> exists f a, e = Errorf f a.
Proof.
  revert drv. induction l as [|i l IH]; intros drv; simpl; [discriminate|].
  destruct (elab.inputDrv i) as [e'|[p names]]; [intros [= <-]; eauto|].
  destruct (negb _); [intros [= <-]; eauto|].
  destruct (InputDerivations drv !! p); [intros [= <-]; eauto|]. apply IH.
Qed.

Lemma elab_env_error (l : list (string * string)) (drv : Derivation) (e : failure) :
  elab.env drv l = inl e -> exists f a, e = Errorf f a.
Proof.
  revert drv. induction l as [|[k v] l IH]; intros drv; simpl; [discriminate|].
  destruct (Env drv !! k); [intros [= <-]; eauto|]. apply IH.
Qed.

Lemma elab_derive_error (dir name : string) (t : grammar.Derive) (e : failure) :
  elab.derive dir name t = inl e -> exists f a, e = Errorf f a.
Proof.
  rewrite derive_unfold.
  destruct (elab.outputs _ _) as [e1|d1] eqn:E1.
  { intros [= <-]. eapply elab_outputs_error, E1. }
  destruct (elab.inputDrvs _ _) as [e2|d2] eqn:E2.
  { intros [= <-]. eapply elab_inputDrvs_error, E2. }
  destruct (elab.strings _ _ _) as [e3|srcs] eqn:E3.
  { intros [= <-]. eauto. }
  apply elab_env_error.
Qed.

Lemma derive_then_error (dir name : string) (t : grammar.Derive) (extra : string) :
  is_ok (elab.derive_then dir name t extra) = false ->
  is_error (elab.derive_then dir name t extra).
Proof.
  unfold elab.derive_then.
  destruct (elab.derive dir name t) as [e|d] eqn:E.
  - intros _. apply elab_derive_error in E as (f & a & ->). exact I.
  - destruct (0 <? String.length extra)%nat; [intros _; exact I | discriminate].
Qed.

(** What an accepted tree looks like. *)
Lemma elab_outputs_ok (l : list grammar.Output) (drv d : Derivation) :
  elab.outputs drv l = inr d ->
  NoDup (map grammar.oName l) /\
  forall n, In n (map grammar.oName l) -> Outputs drv !! n = None.
Proof.
  revert drv. induction l as [|o l IH]; intros drv; simpl.
  - intros _. split; [constructor | contradiction].
  - destruct (elab.output o) as [e|[n x]] eqn:E; [discriminate|].
    apply elab_output_name in E. subst n.
    destruct (Outputs drv !! grammar.oName o) eqn:L; [discriminate|].
    intros H. apply IH in H as [Hnd Hnone]. simpl in Hnone. split.
    + constructor; [|exact Hnd]. intros Hin. apply list_elem_of_In in Hin.
      specialize (Hnone _ Hin). now rewrite lookup_insert_eq in Hnone.
    + intros n [<-|Hin]; [exact L|].
      specialize (Hnone _ Hin).
      destruct (decide (grammar.oName o = n)) as [<-|Hne].
      * now rewrite lookup_insert_eq in Hnone.
      * now rewrite lookup_insert_ne in Hnone.
Qed.

Lemma elab_env_ok (l : list (string * string)) (drv d : Derivation) :
  elab.env drv l = inr d ->
  NoDup (map fst l) /\ forall k, In k (map fst l) -> Env drv !! k = None.
Proof.
  revert drv. induction l as [|[k v] l IH]; intros drv; simpl.
  - intros _. split; [constructor | contradiction].
  - destruct (Env drv !! k) eqn:L; [discriminate|].
    intros H. apply IH in H as [Hnd Hnone]. simpl in Hnone. split.
    + constructor; [|exact Hnd]. intros Hin. apply list_elem_of_In in Hin.
      specialize (Hnone _ Hin). now rewrite lookup_insert_eq in Hnone.
    + intros k' [<-|Hin]; [exact L|].
      specialize (Hnone _ Hin).
      destruct (decide (k = k')) as [<-|Hne].
      * now rewrite lookup_insert_eq in Hnone.
      * now rewrite lookup_insert_ne in Hnone.
Qed.

Lemma elab_inputDrvs_ok (l : list (string * list string)) (drv d : Derivation) :
  elab.inputDrvs drv l = inr d ->
  Forall (fun i => storepath.Dir (fst i) = Dir drv) l.
Proof.
  revert drv. induction l as [|i l IH]; intros drv; simpl; [constructor|].
  unfold elab.inputDrv.
  destruct (storepath.ParsePath (fst i)) as [e|p] eqn:E; [discriminate|].
  apply ParsePath_id in E. subst p.
  unfold Ok.
  destruct (String.eqb (storepath.Dir (fst i)) (Dir drv)) eqn:D; simpl; [|discriminate].
  destruct (_ !! _); [discriminate|].
  intros H. apply IH in H. constructor; [now apply String.eqb_eq|exact H].
Qed.

End Elaboration.

(** ** Sorted keys *)

Section SortedKeys.

Import zbstore.

Context {V : Type}.

Lemma sortedKeys_In (m : gmap string V) (k : string) :
  In k (sortedKeys m) <-> is_Some (m !! k).
Proof.
  unfold sortedKeys. rewrite <- list_elem_of_In, merge_sort_Permutation.
  rewrite list_elem_of_In, in_map_iff. split.
  - intros ([k' v] & <- & H). apply list_elem_of_In, elem_of_map_to_list in H. eauto.
  - intros [v H]. exists (k, v). split; [reflexivity|].
    now apply list_elem_of_In, elem_of_map_to_list.
Qed.

Lemma sortedKeys_NoDup (m : gmap string V) : NoDup (sortedKeys m).
Proof.
  unfold sortedKeys. rewrite merge_sort_Permutation.
  apply NoDup_fst_map_to_list.
Qed.

Lemma le_sorted_lt (l : list string) :
  StronglySorted String.le l -> NoDup l -> StronglySorted sortedset.lt l.
Proof.
  induction 1 as [|x l Hs IH Hx]; intros Hnd; [constructor|].
  apply NoDup_cons in Hnd as [Hnotin Hnd].
  constructor; [now apply IH|].
  apply Forall_forall. intros y Hy. rewrite Forall_forall in Hx.
  apply leb_neq_ltb; [apply Is_true_true, (Hx _ Hy)|].
  intros ->. contradiction.
Qed.

Lemma sortedKeys_ascending (m : gmap string V) : grammar.ascending (sortedKeys m).
Proof.
  apply le_sorted_lt; [|apply sortedKeys_NoDup].
  apply StronglySorted_merge_sort; apply _.
Qed.

End SortedKeys.

Lemma sortedKeys_ext {V W} (m : gmap string V) (m' : gmap string W) :
  (forall k, is_Some (m !! k) <-> is_Some (m' !! k)) ->
  zbstore.sortedKeys m = zbstore.sortedKeys m'.
Proof.
  intros H. apply ok_ext; try apply sortedKeys_ascending.
  intros k. now rewrite !sortedKeys_In.
Qed.

(** ** The text that [marshalText] writes *)

Section MarshalFacts.

Import zbstore.

Variable F :
  storepath.Directory -> string -> nix.ContentAddress -> References ->
  result storepath.Path.
Variable d : Derivation.

Local Arguments aterm.quoted : simpl never.
Local Arguments grammar.items : simpl never.
Local Arguments DerivationOutput_Path : simpl never.

Lemma sep_items (buf : string) (i : nat) (x : string) (l : list string) :
  ((if (0 <? i)%nat then buf +:+ "," else buf) +:+ x) +:+ grammar.items true l
  = buf +:+ grammar.items (0 <? i)%nat (x :: l).
Proof.
  rewrite items_cons. destruct (0 <? i)%nat;
    rewrite ?str_app_assoc, ?str_app_nil_l; reflexivity.
Qed.

Lemma output_marshalText_view (n : string) (dst : string) :
  view.agrees
    (output_marshalText F (default None (Outputs d !! n)) dst (Dir d) (Name d) n false)
    (g ← view.output F d n; Some (dst +:+ grammar.print_output g)).
Proof.
  unfold view.agrees, output_marshalText, view.output, view.output_of,
    aterm.AppendString, commaEmpty.
  destruct (default None (Outputs d !! n)) as [o|]; simpl.
  - destruct (typ o); simpl; [reflexivity| |].
    + destruct (DerivationOutput_Path F (Some o) (Dir d) (Name d) n) as [p [|]];
        simpl; [|reflexivity].
      destruct (prefix (methodOfContentAddress (ca o))) as [e|pre]; simpl; [reflexivity|].
      rewrite print_output_text. simpl. now rewrite !str_app_assoc.
    + destruct (prefix (method o)) as [e|pre]; simpl; [reflexivity|].
      rewrite print_output_text. simpl. now rewrite !str_app_assoc.
  - rewrite print_output_text. simpl. now rewrite !str_app_assoc.
Qed.

Lemma marshalOutputs_view (keys : list string) :
  forall (i : nat) (buf : string),
    view.agrees (marshalOutputs F d false keys i buf)
      (outs ← mapM (view.output F d) keys;
       Some (buf +:+ grammar.items (0 <? i)%nat (map grammar.print_output outs))).
Proof.
  induction keys as [|n keys IH]; intros i buf.
  - simpl. now rewrite items_nil, str_app_nil_r.
  - simpl marshalOutputs.
    pose proof (output_marshalText_view n
                  (if (0 <? i)%nat then buf +:+ "," else buf)) as Ho.
    simpl mapM. destruct (view.output F d n) as [g|]; simpl in Ho |- *.
    + rewrite Ho. specialize (IH (S i) ((if (0 <? i)%nat then buf +:+ "," else buf)
                                          +:+ grammar.print_output g)).
      destruct (mapM (view.output F d) keys) as [outs|]; simpl in IH |- *.
      * rewrite IH. f_equal. apply sep_items.
      * exact IH.
    + destruct (output_marshalText _ _ _ _ _ _ _); [reflexivity|discriminate].
Qed.

Lemma marshalOutputNames_app (post pre : list string) (buf : string) :
  marshalOutputNames (pre ++ post) (length post) (length pre) buf
  = buf +:+ grammar.items (0 <? length pre)%nat (map aterm.quoted post).
Proof.
  revert pre buf. induction post as [|x post IH]; intros pre buf.
  - simpl. now rewrite items_nil, str_app_nil_r.
  - simpl marshalOutputNames. rewrite At_app.
    replace (pre ++ x :: post) with ((pre ++ [x]) ++ post) by (now rewrite <- app_assoc).
    replace (S (length pre)) with (length (pre ++ [x])) by (rewrite length_app; simpl; lia).
    rewrite IH. unfold aterm.AppendString.
    replace (0 <? length (pre ++ [x]))%nat with true
      by (rewrite length_app; simpl; symmetry; apply Nat.ltb_lt; lia).
    simpl map. apply sep_items.
Qed.

Lemma marshalOutputNames_view (names : list string) (buf : string) :
  marshalOutputNames names (sortedset.Len names) 0 buf
  = buf +:+ grammar.items false (map aterm.quoted names).
Proof. apply (marshalOutputNames_app names []). Qed.

Lemma marshalInputDerivations_view (keys : list string) :
  forall (i : nat) (buf : string),
    view.agrees (marshalInputDerivations d keys i buf)
      (ins ← mapM (view.inputDrv d) keys;
       Some (buf +:+ grammar.items (0 <? i)%nat (map grammar.print_inputDrv ins))).
Proof.
  unfold view.agrees.
  induction keys as [|p keys IH]; intros i buf.
  - simpl. now rewrite items_nil, str_app_nil_r.
  - simpl marshalInputDerivations. simpl mapM.
    destruct (String.eqb (storepath.Dir p) (Dir d)) eqn:D.
    2:{ assert (view.inputDrv d p = None) as ->
          by (unfold view.inputDrv; now rewrite D).
        reflexivity. }
    assert (view.inputDrv d p
            = Some (p, default sortedset.empty (InputDerivations d !! p))) as ->
      by (unfold view.inputDrv; now rewrite D).
    simpl.
    rewrite marshalOutputNames_view. unfold aterm.AppendString.
    match goal with |- context [marshalInputDerivations d keys (S i) ?b] =>
      specialize (IH (S i) b) end.
    destruct (mapM (view.inputDrv d) keys) as [ins|]; simpl in IH |- *; [|exact IH].
    rewrite IH. f_equal.
    rewrite <- (sep_items buf i (grammar.print_inputDrv
                  (p, default sortedset.empty (InputDerivations d !! p)))).
    f_equal. rewrite print_inputDrv_text. simpl fst; simpl snd.
    destruct (0 <? i)%nat; rewrite !str_app_assoc; reflexivity.
Qed.

Lemma marshalInputSources_app (post pre : list string) (buf : string) :
  InputSources d = pre ++ post ->
  view.agrees (marshalInputSources d (length post) (length pre) buf)
    (srcs ← mapM (view.inputSrc d) post;
     Some (buf +:+ grammar.items (0 <? length pre)%nat (map aterm.quoted srcs))).
Proof.
  unfold view.agrees.
  revert pre buf. induction post as [|x post IH]; intros pre buf Hd.
  - simpl. now rewrite items_nil, str_app_nil_r.
  - simpl marshalInputSources. rewrite Hd, At_app. simpl mapM.
    destruct (String.eqb (storepath.Dir x) (Dir d)) eqn:D.
    2:{ assert (view.inputSrc d x = None) as ->
          by (unfold view.inputSrc; now rewrite D).
        reflexivity. }
    assert (view.inputSrc d x = Some x) as ->
      by (unfold view.inputSrc; now rewrite D).
    simpl.
    specialize (IH (pre ++ [x])
                  (aterm.AppendString (if (0 <? length pre)%nat then buf +:+ "," else buf) x)).
    replace (length (pre ++ [x])) with (S (length pre)) in IH
      by (rewrite length_app; simpl; lia).
    specialize (IH ltac:(rewrite Hd, <- app_assoc; reflexivity)).
    destruct (mapM (view.inputSrc d) post) as [srcs|]; simpl in IH |- *; [|exact IH].
    rewrite IH. f_equal. unfold aterm.AppendString. apply sep_items.
Qed.

Lemma marshalInputSources_view (buf : string) :
  view.agrees (marshalInputSources d (sortedset.Len (InputSources d)) 0 buf)
    (srcs ← mapM (view.inputSrc d) (InputSources d);
     Some (buf +:+ grammar.items false (map aterm.quoted srcs))).
Proof. apply (marshalInputSources_app (InputSources d) []). reflexivity. Qed.

Lemma marshalArgs_view (l : list string) :
  forall (i : nat) (buf : string),
    marshalArgs l i buf = buf +:+ grammar.items (0 <? i)%nat (map aterm.quoted l).
Proof.
  induction l as [|x l IH]; intros i buf.
  - simpl. now rewrite items_nil, str_app_nil_r.
  - simpl marshalArgs. rewrite IH. unfold aterm.AppendString. simpl map. apply sep_items.
Qed.

Lemma marshalEnv_view (keys : list string) :
  forall (i : nat) (buf : string),
    marshalEnv d keys i buf
    = buf +:+ grammar.items (0 <? i)%nat
                (map grammar.print_env (map (view.envEntry d) keys)).
Proof.
  induction keys as [|k keys IH]; intros i buf.
  - simpl. now rewrite items_nil, str_app_nil_r.
  - simpl marshalEnv. rewrite IH. unfold aterm.AppendString. simpl map.
    rewrite <- sep_items. f_equal. rewrite print_env_text. simpl fst; simpl snd.
    destruct (0 <? i)%nat; rewrite !str_app_assoc; reflexivity.
Qed.

(** [MarshalText] writes the text of [view.tree], and fails where there is
    no tree. *)
Lemma MarshalText_view :
  view.agrees (MarshalText F d) (t ← view.tree F d; Some (grammar.print t)).
Proof.
  unfold view.agrees, MarshalText, marshalText, view.tree.
  destruct (String.eqb (Name d) ""); [reflexivity|].
  destruct (String.eqb (Dir d) ""); [reflexivity|].
  pose proof (marshalOutputs_view (sortedKeys (Outputs d)) 0 ("" +:+ "Derive([")) as H1.
  unfold view.agrees in H1.
  destruct (mapM (view.output F d) (sortedKeys (Outputs d))) as [outs|];
    simpl in H1 |- *.
  2:{ destruct (marshalOutputs _ _ _ _ _ _); [reflexivity|discriminate]. }
  rewrite H1. simpl.
  match goal with |- context [marshalInputDerivations d ?k 0 ?b] =>
    pose proof (marshalInputDerivations_view k 0 b) as H2 end.
  unfold view.agrees in H2.
  destruct (mapM (view.inputDrv d) (sortedKeys (InputDerivations d))) as [ins|];
    simpl in H2 |- *.
  2:{ destruct (marshalInputDerivations _ _ _ _); [reflexivity|discriminate]. }
  rewrite H2. simpl.
  match goal with |- context [marshalInputSources d ?k 0 ?b] =>
    pose proof (marshalInputSources_view b) as H3 end.
  unfold view.agrees in H3.
  destruct (mapM (view.inputSrc d) (InputSources d)) as [srcs|]; simpl in H3 |- *.
  2:{ destruct (marshalInputSources _ _ _ _); [reflexivity|discriminate]. }
  rewrite H3. simpl.
  rewrite marshalArgs_view, marshalEnv_view. unfold aterm.AppendString.
  f_equal. rewrite print_text. simpl. rewrite !str_app_assoc. reflexivity.
Qed.

End MarshalFacts.

(** ** The tree of a derivation *)

Section ViewFacts.

Import zbstore.

Variable F :
  storepath.Directory -> string -> nix.ContentAddress -> References ->
  result storepath.Path.
Variable d : Derivation.

Lemma okb_ok (s : sortedset.t) : sortedset.okb s = true -> sortedset.ok s.
Proof.
  intros H. apply Sorted.Sorted_StronglySorted; [intros a b c; apply ltb_trans|].
  induction s as [|x s IH]; [constructor|].
  destruct s as [|y s]; [repeat constructor|].
  simpl in H. apply andb_true_iff in H as [H1 H2].
  constructor; [now apply IH | now constructor].
Qed.

Lemma Derivation_ok_sets :
  Derivation_ok d = true ->
  sortedset.ok (InputSources d) /\
  forall p ns, InputDerivations d !! p = Some ns -> sortedset.ok ns.
Proof.
  unfold Derivation_ok. intros H. apply andb_true_iff in H as [H1 H2].
  split; [now apply okb_ok|].
  intros p ns Hp. apply okb_ok.
  rewrite forallb_forall in H2. apply (H2 (p, ns)).
  now apply list_elem_of_In, elem_of_map_to_list.
Qed.

Lemma view_output_name (n : string) (g : grammar.Output) :
  view.output F d n = Some g -> grammar.oName g = n.
Proof.
  unfold view.output, view.output_of.
  destruct (default None (Outputs d !! n)) as [o|]; [|now intros [= <-]].
  destruct (typ o); [discriminate| |].
  - destruct (DerivationOutput_Path _ _ _ _ _) as [p [|]]; [|discriminate].
    destruct (prefix _); [discriminate|]. now intros [= <-].
  - destruct (prefix _); [discriminate|]. now intros [= <-].
Qed.

Lemma view_outputs_names (keys : list string) (outs : list grammar.Output) :
  mapM (view.output F d) keys = Some outs -> map grammar.oName outs = keys.
Proof.
  intros H. apply mapM_Some_1 in H.
  induction H as [|n g keys outs Hg _ IH]; [reflexivity|].
  simpl. f_equal; [now apply view_output_name | exact IH].
Qed.

Lemma view_inputDrvs (keys : list string) (ins : list (string * list string)) :
  mapM (view.inputDrv d) keys = Some ins ->
  ins = map (fun p => (p, default sortedset.empty (InputDerivations d !! p))) keys /\
  Forall (fun p => storepath.Dir p = Dir d) keys.
Proof.
  intros H. apply mapM_Some_1 in H.
  induction H as [|p i keys ins Hi _ [IH1 IH2]]; [split; [reflexivity|constructor]|].
  unfold view.inputDrv in Hi.
  destruct (String.eqb (storepath.Dir p) (Dir d)) eqn:D; [|discriminate].
  injection Hi as <-. apply String.eqb_eq in D.
  split; [simpl; now f_equal | now constructor].
Qed.

Lemma view_inputSrcs (l srcs : list string) :
  mapM (view.inputSrc d) l = Some srcs ->
  srcs = l /\ Forall (fun s => storepath.Dir s = Dir d) l.
Proof.
  intros H. apply mapM_Some_1 in H.
  induction H as [|s s' l srcs Hs _ [IH1 IH2]]; [split; [reflexivity|constructor]|].
  unfold view.inputSrc in Hs.
  destruct (String.eqb (storepath.Dir s) (Dir d)) eqn:D; [|discriminate].
  injection Hs as <-. apply String.eqb_eq in D.
  split; [now f_equal | now constructor].
Qed.

End ViewFacts.

(** C3. Whatever [MarshalText] writes is the text of a derivation in which
    the outputs come in ascending order of their names, the input
    derivations in ascending order of their paths, the output names of each
    input derivation and the input sources in ascending order, the
    environment in ascending order of its keys, and the arguments of the
    builder in the order of the list [Args]; every key of the three maps
    appears, once. *)
Theorem marshal_order
    (F : storepath.Directory -> string -> nix.ContentAddress ->
         zbstore.References -> result storepath.Path)
    (d : zbstore.Derivation) (x : string) :
  zbstore.Derivation_ok d = true ->
  zbstore.MarshalText F d = inr x ->
  exists t : grammar.Derive,
    x = grammar.print t /\
    grammar.ascending (map grammar.oName (grammar.outputs t)) /\
    (forall n, In n (map grammar.oName (grammar.outputs t))
               <-> is_Some (zbstore.Outputs d !! n)) /\
    grammar.ascending (map fst (grammar.inputDrvs t)) /\
    (forall p ns, In (p, ns) (grammar.inputDrvs t)
                  <-> zbstore.InputDerivations d !! p = Some ns) /\
    Forall (fun i => grammar.ascending (snd i)) (grammar.inputDrvs t) /\
    grammar.inputSrcs t = zbstore.InputSources d /\
    grammar.ascending (grammar.inputSrcs t) /\
    grammar.ascending (map fst (grammar.env t)) /\
    (forall k v, In (k, v) (grammar.env t) <-> zbstore.Env d !! k = Some v) /\
    grammar.args t = zbstore.Args d.
Proof.
  intros Hok Hm. apply Derivation_ok_sets in Hok as [Hsrcs Hsets].
  pose proof (MarshalText_view F d) as Hv. unfold view.agrees in Hv.
  destruct (view.tree F d) as [t|] eqn:Ht; simpl in Hv;
    [|rewrite Hm in Hv; discriminate].
  rewrite Hm in Hv. injection Hv as ->. exists t. split; [reflexivity|].
  unfold view.tree in Ht.
  destruct (String.eqb (zbstore.Name d) ""); [discriminate|].
  destruct (String.eqb (zbstore.Dir d) ""); [discriminate|].
  destruct (mapM (view.output F d) _) as [outs|] eqn:E1; [|discriminate].
  destruct (mapM (view.inputDrv d) _) as [ins|] eqn:E2; [|discriminate].
  destruct (mapM (view.inputSrc d) _) as [srcs|] eqn:E3; [|discriminate].
  simpl in Ht. injection Ht as <-. simpl.
  apply view_outputs_names in E1. apply view_inputDrvs in E2 as [-> _].
  apply view_inputSrcs in E3 as [-> _].
  rewrite E1, !map_map; simpl. rewrite !map_id.
  unfold sortedset.t in *.
  repeat split.
  - apply sortedKeys_ascending.
  - apply sortedKeys_In.
  - apply sortedKeys_In.
  - apply sortedKeys_ascending.
  - intros H. apply in_map_iff in H as (p' & [= <- <-] & Hin).
    apply sortedKeys_In in Hin as [ns' Hns]. rewrite Hns. reflexivity.
  - intros H. apply in_map_iff. exists p. rewrite H. split; [reflexivity|].
    apply sortedKeys_In. eauto.
  - apply Forall_forall. intros [p ns] Hin.
    apply list_elem_of_In, in_map_iff in Hin as (p' & [= <- <-] & Hin).
    apply sortedKeys_In in Hin as [ns' Hns]. rewrite Hns. simpl. eapply Hsets, Hns.
  - exact Hsrcs.
  - apply sortedKeys_ascending.
  - intros H. apply in_map_iff in H as (k' & [= <- <-] & Hin).
    apply sortedKeys_In in Hin as [v' ->]. reflexivity.
  - intros H. apply in_map_iff. exists k. unfold view.envEntry. rewrite H.
    split; [reflexivity|]. apply sortedKeys_In. eauto.
Qed.

Lemma marshal_order_witness :
  exists t : grammar.Derive,
    example.text = grammar.print t /\
    grammar.ascending (map grammar.oName (grammar.outputs t)) /\
    (forall n, In n (map grammar.oName (grammar.outputs t))
               <-> is_Some (zbstore.Outputs example.drv !! n)) /\
    grammar.ascending (map fst (grammar.inputDrvs t)) /\
    (forall p ns, In (p, ns) (grammar.inputDrvs t)
                  <-> zbstore.InputDerivations example.drv !! p = Some ns) /\
    Forall (fun i => grammar.ascending (snd i)) (grammar.inputDrvs t) /\
    grammar.inputSrcs t = zbstore.InputSources example.drv /\
    grammar.ascending (grammar.inputSrcs t) /\
    grammar.ascending (map fst (grammar.env t)) /\
    (forall k v, In (k, v) (grammar.env t) <-> zbstore.Env example.drv !! k = Some v) /\
    grammar.args t = zbstore.Args example.drv.
Proof.
  refine (marshal_order example.sourcePath example.drv example.text _ _).
  - vm_compute. reflexivity.
  - vm_compute. reflexivity.
Defined.

(** ** Codecs that the round trip goes through *)

Section Codecs.

Import zbstore.

Lemma fromHexChar_digit (n : Z) :
  0 <= n < 16 -> hex.fromHexChar (hex.digit n) = Some n.
Proof.
  intros [Hlo Hhi]. destruct n as [|p|p]; [reflexivity| |lia].
  do 4 (try destruct p as [p|p|]); try reflexivity; lia.
Qed.

Lemma hex_round_trip (s : string) :
  hex.DecodeString (hex.EncodeToString s) = Some s.
Proof.
  induction s as [|c s IH]; [reflexivity|].
  pose proof (to_Z_range c) as Hc.
  simpl. rewrite !fromHexChar_digit, IH.
  - f_equal. f_equal.
    rewrite <- (of_to_Z c) at 3. f_equal.
    pose proof (Z.div_mod (bytes.to_Z c) 16). lia.
  - apply Z.mod_pos_bound. lia.
  - split; [apply Z.div_pos; lia | apply Z.div_lt_upper_bound; lia].
Qed.

Lemma hex_empty (s : string) : hex.EncodeToString s = ""%string -> s = ""%string.
Proof. destruct s; [reflexivity | discriminate]. Qed.

Lemma ParseHashType_String (s : string) (a : nix.HashType) :
  nix.ParseHashType s = Some a -> nix.HashType_String a = s /\ a <> nix.NoHashType.
Proof.
  unfold nix.ParseHashType.
  repeat (destruct (String.eqb s _) eqn:E;
          [apply String.eqb_eq in E; subst; intros [= <-]; split;
           [reflexivity | discriminate]|clear E]).
  discriminate.
Qed.

Lemma parseHashAlgorithm_ok (s : string) (m : contentAddressMethod) (a : nix.HashType) :
  parseHashAlgorithm s = (m, inr a) -> m <> unknownMethod /\ a <> nix.NoHashType.
Proof.
  unfold parseHashAlgorithm.
  destruct (bytes.CutPrefix s "r:") as [s1|];
    [|destruct (bytes.CutPrefix s "text:") as [s2|]];
    (destruct (nix.ParseHashType _) as [a'|] eqn:E; [|discriminate]);
    intros [= <- <-]; (split; [discriminate|]);
    eapply ParseHashType_String, E.
Qed.

Lemma parseHashAlgorithm_print (m : contentAddressMethod) (a : nix.HashType)
    (pre : string) :
  prefix m = inr pre ->
  parseHashAlgorithm (pre +:+ nix.HashType_String a)
  = (m, match a with
        | nix.NoHashType => Fail (Errorf "%q is not a valid hash type" [fStr ""])
        | _ => Ok a
        end).
Proof.
  destruct m; try discriminate; intros [= <-]; destruct a; reflexivity.
Qed.

Lemma hash_ok_nonempty (h : nix.Hash) :
  elab.hash_ok h = true ->
  nix.hash_type h <> nix.NoHashType /\
  String.length (nix.hash_bytes h) = nix.HashType_Size (nix.hash_type h) /\
  nix.RawBase16 h <> ""%string.
Proof.
  unfold elab.hash_ok, nix.RawBase16. destruct h as [t b]. simpl.
  destruct t; try discriminate; intros H; apply Nat.eqb_eq in H;
    (split; [discriminate|]); (split; [exact H|]);
    intros E; apply hex_empty in E; subst; discriminate.
Qed.

End Codecs.

(** ** Outputs through the parser and the marshaller *)

Section Outputs.

Import zbstore.

Variable F :
  storepath.Directory -> string -> nix.ContentAddress -> References ->
  result storepath.Path.

Local Arguments DerivationOutput_Path : simpl never.

Lemma elab_output_canonical (g : grammar.Output) (n : string)
    (o : option DerivationOutput) :
  elab.output g = inr (n, o) -> elab.canonical_output o = true.
Proof.
  unfold elab.output.
  destruct (parseHashAlgorithm (grammar.oCA g)) as [m [e|a]] eqn:PH; [discriminate|].
  apply parseHashAlgorithm_ok in PH as [Hm Ha].
  destruct (hex.DecodeString (grammar.oHash g)) as [bits|]; [|discriminate].
  destruct (_ && _).
  { intros [= _ <-]. destruct m, a; try contradiction; reflexivity. }
  destruct (negb (String.eqb _ _)); [|discriminate].
  destruct (String.length bits =? nix.HashType_Size a)%nat eqn:Hsz; [|discriminate].
  simpl. destruct m; try contradiction; intros [= _ <-]; simpl;
    unfold elab.hash_ok; simpl; destruct a; try contradiction; exact Hsz.
Qed.

Lemma canonical_output_elab (dir drvName n : string) (o : option DerivationOutput)
    (g : grammar.Output) :
  elab.canonical_output o = true ->
  view.output_of F dir drvName n o = Some g ->
  elab.output g = inr (n, o).
Proof.
  destruct o as [[t c m a]|]; [|discriminate]. unfold view.output_of. simpl.
  destruct t; try discriminate.
  - (* fixed *)
    destruct m; try discriminate. destruct a; try discriminate.
    intros Hc.
    destruct (DerivationOutput_Path F _ dir drvName n) as [p [|]]; [|discriminate].
    destruct (prefix (methodOfContentAddress c)) as [e|pre] eqn:Hpre; [discriminate|].
    intros [= <-]. unfold elab.output. simpl.
    assert (Hh : elab.hash_ok (nix.CA_Hash c) = true) by (destruct c; easy).
    apply hash_ok_nonempty in Hh as (Ht & Hsz & Hne).
    unfold nix.RawBase16 in *.
    rewrite (parseHashAlgorithm_print _ _ _ Hpre), hex_round_trip.
    apply String.eqb_neq in Hne. apply Nat.eqb_eq in Hsz.
    destruct (nix.hash_type (nix.CA_Hash c)) eqn:E; try contradiction;
      simpl in Hsz |- *; rewrite Hne, andb_false_r; simpl; rewrite Hsz; simpl;
      destruct c as [|[ht hb]|[ht hb]|[ht hb]]; try discriminate;
      simpl in *; subst ht; reflexivity.
  - (* floating *)
    destruct c; try discriminate.
    destruct m; try discriminate; destruct a; try discriminate;
      intros _ [= <-]; reflexivity.
Qed.

Lemma rebuild_ca (c : nix.ContentAddress) (n : string) (caInfo : string) :
  nix.hash_type (nix.CA_Hash c) <> nix.NoHashType ->
  match methodOfContentAddress c with
  | flatFileIngestionMethod =>
      Ok (n, FixedCAOutput (nix.FlatFileContentAddress
            (nix.NewHash (nix.hash_type (nix.CA_Hash c)) (nix.hash_bytes (nix.CA_Hash c)))))
  | recursiveFileIngestionMethod =>
      Ok (n, FixedCAOutput (nix.RecursiveFileContentAddress
            (nix.NewHash (nix.hash_type (nix.CA_Hash c)) (nix.hash_bytes (nix.CA_Hash c)))))
  | textIngestionMethod =>
      Ok (n, FixedCAOutput (nix.TextContentAddress
            (nix.NewHash (nix.hash_type (nix.CA_Hash c)) (nix.hash_bytes (nix.CA_Hash c)))))
  | unknownMethod =>
      Fail (Errorf "parse %s output: unhandled hash algorithm %q" [fStr n; fStr caInfo])
  end = Ok (n, FixedCAOutput c).
Proof.
  destruct c as [|[t b]|[t b]|[t b]]; simpl; [contradiction|reflexivity..].
Qed.

Lemma Path_fixed (c : nix.ContentAddress) (m m' : contentAddressMethod)
    (a a' : nix.HashType) (dir drvName n : string) :
  DerivationOutput_Path F (Some (mkOutput fixedCAOutputType c m a)) dir drvName n
  = DerivationOutput_Path F (Some (mkOutput fixedCAOutputType c m' a')) dir drvName n.
Proof. reflexivity. Qed.

Lemma output_of_elab (dir drvName n n' : string) (o o' : option DerivationOutput)
    (g : grammar.Output) :
  view.output_of F dir drvName n o = Some g ->
  elab.output g = inr (n', o') ->
  n' = n /\ view.output_of F dir drvName n o' = Some g.
Proof.
  intros Hv He. pose proof (elab_output_name _ _ _ He) as Hn.
  destruct o as [[t c m a]|]; unfold view.output_of in Hv; simpl in Hv.
  2:{ injection Hv as <-. discriminate He. }
  destruct t; try discriminate.
  - (* fixed *)
    destruct (DerivationOutput_Path F _ dir drvName n) as [p [|]] eqn:HP; [|discriminate].
    destruct (prefix (methodOfContentAddress c)) as [e|pre] eqn:Hpre; [discriminate|].
    injection Hv as <-. simpl in Hn. subst n'. split; [reflexivity|].
    revert He. unfold elab.output. simpl. unfold nix.RawBase16.
    rewrite (parseHashAlgorithm_print _ _ _ Hpre), hex_round_trip.
    assert (Ht : nix.hash_type (nix.CA_Hash c) = nix.NoHashType \/
                 nix.hash_type (nix.CA_Hash c) <> nix.NoHashType)
      by (destruct (nix.hash_type (nix.CA_Hash c)); auto; right; discriminate).
    destruct Ht as [Ht|Ht]; [rewrite Ht; discriminate|].
    assert (Hp : match nix.hash_type (nix.CA_Hash c) with
                 | nix.NoHashType =>
                     Fail (Errorf "%q is not a valid hash type" [fStr ""])
                 | _ => Ok (nix.hash_type (nix.CA_Hash c))
                 end = inr (nix.hash_type (nix.CA_Hash c)))
      by (destruct (nix.hash_type (nix.CA_Hash c)); try reflexivity; contradiction).
    rewrite Hp. clear Hp.
    destruct (String.eqb p "" &&
              String.eqb (hex.EncodeToString (nix.hash_bytes (nix.CA_Hash c))) "") eqn:C1.
    + apply andb_true_iff in C1 as [Cp Ch]. apply String.eqb_eq in Cp, Ch.
      intros [= <-]. unfold view.output_of. simpl. unfold nix.RawBase16.
      rewrite Hpre, Cp, Ch. reflexivity.
    + destruct (String.eqb (hex.EncodeToString _) ""); simpl; [discriminate|].
      destruct (Nat.eqb _ _); simpl; [|discriminate].
      rewrite (rebuild_ca c n _ Ht). intros [= <-].
      unfold view.output_of, FixedCAOutput. simpl.
      rewrite (Path_fixed c _ m _ a), HP, Hpre. reflexivity.
  - (* floating *)
    destruct (prefix m) as [e|pre] eqn:Hpre; [discriminate|].
    injection Hv as <-. simpl in Hn. subst n'. split; [reflexivity|].
    revert He. unfold elab.output. simpl.
    rewrite (parseHashAlgorithm_print _ _ _ Hpre).
    destruct a; try discriminate; simpl; intros [= <-];
      unfold view.output_of; simpl; rewrite Hpre; reflexivity.
Qed.

End Outputs.

(** ** What the loops of the parser build *)

Section Built.

Import zbstore.

Lemma of_list_sorted (s : sortedset.t) : sortedset.ok s -> sortedset.of_list s = s.
Proof.
  intros H. apply ok_ext; [apply of_list_ok | exact H | apply of_list_In].
Qed.

Lemma elab_outputs_eq (gs : list grammar.Output) (drv d' : Derivation) :
  elab.outputs drv gs = inr d' -> d' = set_Outputs drv (Outputs d').
Proof.
  intros H. apply elab_outputs_frame in H.
  destruct d', drv; simpl in *. unfold set_Outputs; simpl.
  destruct H as (-> & -> & -> & -> & -> & -> & -> & ->). reflexivity.
Qed.

Lemma elab_inputDrvs_eq (ins : list (string * list string)) (drv d' : Derivation) :
  elab.inputDrvs drv ins = inr d' ->
  d' = set_InputDerivations drv (InputDerivations d').
Proof.
  intros H. apply elab_inputDrvs_frame in H.
  destruct d', drv; simpl in *. unfold set_InputDerivations; simpl.
  destruct H as (-> & -> & -> & -> & -> & -> & -> & ->). reflexivity.
Qed.

Lemma elab_env_eq (kvs : list (string * string)) (drv d' : Derivation) :
  elab.env drv kvs = inr d' -> d' = set_Env drv (Env d').
Proof.
  intros H. apply elab_env_frame in H.
  destruct d', drv; simpl in *. unfold set_Env; simpl.
  destruct H as (-> & -> & -> & -> & -> & -> & -> & ->). reflexivity.
Qed.

Lemma elab_outputs_lookup (gs : list grammar.Output) (drv d' : Derivation) :
  elab.outputs drv gs = inr d' ->
  (forall n, ~ In n (map grammar.oName gs) -> Outputs d' !! n = Outputs drv !! n) /\
  Forall (fun g => exists o, elab.output g = inr (grammar.oName g, o) /\
                             Outputs d' !! grammar.oName g = Some o) gs.
Proof.
  revert drv. induction gs as [|g gs IH]; intros drv; simpl.
  - intros [= <-]. split; [reflexivity | constructor].
  - destruct (elab.output g) as [e|[n x]] eqn:E; [discriminate|].
    pose proof (elab_output_name _ _ _ E) as ->.
    destruct (Outputs drv !! grammar.oName g) eqn:L; [discriminate|].
    intros H. pose proof (elab_outputs_ok _ _ _ H) as [_ Hnone].
    apply IH in H as [Hout Hin]. simpl in Hout. split.
    + intros n Hn. rewrite Hout by tauto.
      apply lookup_insert_ne. tauto.
    + constructor; [|exact Hin]. exists x. split; [exact E|].
      destruct (in_dec String.string_dec (grammar.oName g) (map grammar.oName gs))
        as [Hi|Hni].
      * specialize (Hnone _ Hi). simpl in Hnone.
        now rewrite lookup_insert_eq in Hnone.
      * rewrite Hout by exact Hni. apply lookup_insert_eq.
Qed.

Lemma elab_inputDrvs_nodup (ins : list (string * list string)) (drv d : Derivation) :
  elab.inputDrvs drv ins = inr d ->
  NoDup (map fst ins) /\
  forall p : string, In p (map fst ins) -> InputDerivations drv !! p = None.
Proof.
  revert drv. induction ins as [|i ins IH]; intros drv; simpl.
  - intros _. split; [constructor | contradiction].
  - unfold elab.inputDrv.
    destruct (storepath.ParsePath (fst i)) as [e|p] eqn:E; [discriminate|].
    pose proof (ParsePath_id _ _ E) as ->. unfold Ok.
    destruct (negb _); [discriminate|].
    destruct (_ !! _) eqn:L; [discriminate|].
    intros H. apply IH in H as [Hnd Hnone]. simpl in Hnone. split.
    + constructor; [|exact Hnd]. intros Hin. apply list_elem_of_In in Hin.
      specialize (Hnone _ Hin). now rewrite lookup_insert_eq in Hnone.
    + intros p [<-|Hin]; [exact L|].
      specialize (Hnone _ Hin).
      destruct (decide (fst i = p)) as [<-|Hne].
      * now rewrite lookup_insert_eq in Hnone.
      * now rewrite lookup_insert_ne in Hnone.
Qed.

Lemma elab_inputDrvs_lookup (ins : list (string * list string)) (drv d' : Derivation) :
  elab.inputDrvs drv ins = inr d' ->
  (forall p : string, ~ In p (map fst ins) ->
                      InputDerivations d' !! p = InputDerivations drv !! p) /\
  Forall (fun i => storepath.ParsePath (fst i) = inr (fst i) /\
                   InputDerivations d' !! fst i = Some (sortedset.of_list (snd i))) ins.
Proof.
  revert drv. induction ins as [|i ins IH]; intros drv; simpl.
  - intros [= <-]. split; [reflexivity | constructor].
  - unfold elab.inputDrv.
    destruct (storepath.ParsePath (fst i)) as [e|p] eqn:E; [discriminate|].
    pose proof (ParsePath_id _ _ E) as ->. unfold Ok.
    destruct (negb _); [discriminate|].
    destruct (_ !! _) eqn:L; [discriminate|].
    intros H. pose proof (elab_inputDrvs_nodup _ _ _ H) as [_ Hnone].
    apply IH in H as (Hout & Hin). simpl in Hout, Hnone.
    split.
    + intros p Hp. rewrite Hout by tauto. apply lookup_insert_ne. tauto.
    + constructor; [|exact Hin]. split; [exact E|].
      destruct (in_dec String.string_dec (fst i) (map fst ins)) as [Hi|Hni].
      * specialize (Hnone _ Hi). now rewrite lookup_insert_eq in Hnone.
      * rewrite Hout by exact Hni. apply lookup_insert_eq.
Qed.

Lemma elab_env_lookup (kvs : list (string * string)) (drv d' : Derivation) :
  elab.env drv kvs = inr d' ->
  (forall k, ~ In k (map fst kvs) -> Env d' !! k = Env drv !! k) /\
  Forall (fun kv => Env d' !! fst kv = Some (snd kv)) kvs.
Proof.
  revert drv. induction kvs as [|[k v] kvs IH]; intros drv; simpl.
  - intros [= <-]. split; [reflexivity | constructor].
  - destruct (Env drv !! k) eqn:L; [discriminate|].
    intros H. pose proof (elab_env_ok _ _ _ H) as [_ Hnone].
    apply IH in H as (Hout & Hin). simpl in Hout, Hnone.
    split.
    + intros k' Hk'. rewrite Hout by tauto. apply lookup_insert_ne. tauto.
    + constructor; [|exact Hin]. simpl.
      destruct (in_dec String.string_dec k (map fst kvs)) as [Hi|Hni].
      * specialize (Hnone _ Hi). now rewrite lookup_insert_eq in Hnone.
      * rewrite Hout by exact Hni. apply lookup_insert_eq.
Qed.

Lemma elab_sources (l : list string) (acc acc' : sortedset.t) :
  elab.strings addInputSource acc l = inr acc' ->
  acc' = fold_left sortedset.Add l acc /\
  Forall (fun s => storepath.ParsePath s = inr s) l.
Proof.
  revert acc. induction l as [|x l IH]; intros acc; simpl.
  - intros [= <-]. split; [reflexivity | constructor].
  - unfold addInputSource at 1.
    destruct (storepath.ParsePath x) as [e|p] eqn:E; [discriminate|].
    pose proof (ParsePath_id _ _ E) as ->.
    intros H. apply IH in H as [-> Hall]. split; [reflexivity | now constructor].
Qed.

Lemma elab_sources_accept' (l : list string) (acc : sortedset.t) :
  Forall (fun s => storepath.ParsePath s = inr s) l ->
  elab.strings addInputSource acc l = inr (fold_left sortedset.Add l acc).
Proof.
  intros H. revert acc. induction H as [|x l Hx _ IH]; intros acc; simpl; [reflexivity|].
  unfold addInputSource at 1. rewrite Hx. apply IH.
Qed.

End Built.

(** ** The contract of the parser *)

Section Contract.

Import zbstore.

Lemma caTag_algo_parse (s : string) (a : nix.HashType) :
  grammar.caTag_algo s = Some a -> exists m, parseHashAlgorithm s = (m, inr a).
Proof.
  unfold grammar.caTag_algo. intros H.
  apply List.find_some in H as [Hin Hex].
  apply existsb_exists in Hex as (pre & Hpre & E).
  apply String.eqb_eq in E. subst s.
  destruct Hin as [<-|[<-|[<-|[<-|[]]]]];
    destruct Hpre as [<-|[<-|[<-|[]]]]; eexists; vm_compute; reflexivity.
Qed.

Lemma parse_caTag_algo (s : string) (m : contentAddressMethod) (a : nix.HashType) :
  parseHashAlgorithm s = (m, inr a) -> grammar.caTag_algo s = Some a.
Proof.
  unfold parseHashAlgorithm.
  destruct (bytes.CutPrefix s "r:") as [s1|] eqn:C1.
  { apply CutPrefix_Some in C1. subst s.
    destruct (nix.ParseHashType s1) as [a'|] eqn:E; [|discriminate].
    intros [= _ <-]. apply ParseHashType_String in E as [<- Ha].
    destruct a'; [contradiction|reflexivity..]. }
  destruct (bytes.CutPrefix s "text:") as [s2|] eqn:C2.
  { apply CutPrefix_Some in C2. subst s.
    destruct (nix.ParseHashType s2) as [a'|] eqn:E; [|discriminate].
    intros [= _ <-]. apply ParseHashType_String in E as [<- Ha].
    destruct a'; [contradiction|reflexivity..]. }
  destruct (nix.ParseHashType s) as [a'|] eqn:E; [|discriminate].
  intros [= _ <-]. apply ParseHashType_String in E as [<- Ha].
  destruct a'; [contradiction|reflexivity..].
Qed.

Lemma is_hex_digit_fromHexChar (c : ascii) :
  grammar.is_hex_digit c = match hex.fromHexChar c with Some _ => true | None => false end.
Proof. destruct c as [[] [] [] [] [] [] [] []]; reflexivity. Qed.

Lemma string_pair_ind (P : string -> Prop) :
  P ""%string -> (forall c, P (String c "")) ->
  (forall a b s, P s -> P (String a (String b s))) ->
  forall s, P s.
Proof.
  intros H0 H1 H2 s.
  assert (H : P s /\ forall c, P (String c s)).
  { induction s as [|x s [IH1 IH2]]; [split; [exact H0 | exact H1]|].
    split; [apply IH2|]. intros c. apply H2, IH1. }
  apply H.
Qed.

Lemma DecodeString_Some (s bits : string) :
  hex.DecodeString s = Some bits ->
  forallb grammar.is_hex_digit (list_ascii_of_string s) = true /\
  String.length s = (2 * String.length bits)%nat.
Proof.
  revert bits. induction s as [| c | a b s IH] using string_pair_ind; intros bits.
  - intros [= <-]. split; reflexivity.
  - discriminate.
  - cbn [hex.DecodeString list_ascii_of_string forallb].
    rewrite !is_hex_digit_fromHexChar.
    destruct (hex.fromHexChar a); [|discriminate].
    destruct (hex.fromHexChar b); [|discriminate].
    destruct (hex.DecodeString s) as [r|]; [|discriminate].
    intros [= <-]. destruct (IH r eq_refl) as [-> Hl]. split; [reflexivity|].
    cbn [String.length]. lia.
Qed.

Lemma DecodeString_hex (s : string) (n : nat) :
  forallb grammar.is_hex_digit (list_ascii_of_string s) = true ->
  String.length s = (2 * n)%nat ->
  exists bits, hex.DecodeString s = Some bits.
Proof.
  revert n. induction s as [| c | a b s IH] using string_pair_ind; intros n.
  - intros _ _. now exists ""%string.
  - intros _ H. cbn [String.length] in H. lia.
  - cbn [hex.DecodeString list_ascii_of_string forallb String.length].
    rewrite !is_hex_digit_fromHexChar.
    destruct (hex.fromHexChar a); [|discriminate].
    destruct (hex.fromHexChar b); [|discriminate].
    cbn [andb]. intros Hh Hl.
    destruct (IH (n - 1)%nat Hh ltac:(lia)) as [r ->]. eauto.
Qed.

Lemma HashType_Size_pos (a : nix.HashType) :
  a <> nix.NoHashType -> (0 < nix.HashType_Size a)%nat.
Proof. destruct a; [contradiction|simpl; lia..]. Qed.

(** The outputs that are well-formed are the outputs that
    [parseDerivationOutput] takes. *)
Lemma output_ok_accepted (o : grammar.Output) :
  grammar.output_ok o = true <-> exists x, elab.output o = inr (grammar.oName o, x).
Proof.
  unfold grammar.output_ok, elab.output. split.
  - destruct (grammar.caTag_algo (grammar.oCA o)) as [a|] eqn:C; [|discriminate].
    apply caTag_algo_parse in C as [m PH]. rewrite PH.
    apply parseHashAlgorithm_ok in PH as [Hm Ha].
    apply HashType_Size_pos in Ha.
    intros H. apply andb_true_iff in H as [Hh H].
    destruct (String.eqb (grammar.oPath o) "" && String.eqb (grammar.oHash o) "") eqn:Fl.
    + apply andb_true_iff in Fl as [_ E]. apply String.eqb_eq in E. rewrite E.
      cbn [hex.DecodeString]. eauto.
    + cbn [orb] in H. apply Nat.eqb_eq in H.
      destruct (DecodeString_hex _ _ Hh H) as [bits D]. rewrite D.
      apply DecodeString_Some in D as [_ Hl].
      assert (String.eqb (grammar.oHash o) "" = false) as ->.
      { apply String.eqb_neq. intros E. rewrite E in H. cbn [String.length] in H. lia. }
      assert ((String.length bits =? nix.HashType_Size a)%nat = true) as ->
        by (apply Nat.eqb_eq; lia).
      cbn [negb]. destruct m; [contradiction|eauto..].
  - intros [x H].
    destruct (parseHashAlgorithm (grammar.oCA o)) as [m [e|a]] eqn:PH; [discriminate|].
    rewrite (parse_caTag_algo _ _ _ PH).
    destruct (hex.DecodeString (grammar.oHash o)) as [bits|] eqn:D; [|discriminate].
    apply DecodeString_Some in D as [-> Hl]. cbn [andb].
    destruct (String.eqb (grammar.oPath o) "" && String.eqb (grammar.oHash o) "");
      [reflexivity|].
    destruct (negb (String.eqb _ _)); [|discriminate].
    destruct (String.length bits =? nix.HashType_Size a)%nat eqn:Sz; [|discriminate].
    apply Nat.eqb_eq in Sz. cbn [orb]. apply Nat.eqb_eq. lia.
Qed.

Lemma elab_output_accept (o : grammar.Output) :
  grammar.output_ok o = true -> exists x, elab.output o = inr (grammar.oName o, x).
Proof. apply output_ok_accepted. Qed.

Lemma elab_outputs_accept (l : list grammar.Output) (drv : Derivation) :
  forallb grammar.output_ok l = true ->
  NoDup (map grammar.oName l) ->
  (forall n, In n (map grammar.oName l) -> Outputs drv !! n = None) ->
  exists d, elab.outputs drv l = inr d.
Proof.
  revert drv. induction l as [|o l IH]; intros drv Hok Hnd Hnone; simpl; [eauto|].
  simpl in Hok. apply andb_true_iff in Hok as [Ho Hok].
  apply elab_output_accept in Ho as [x ->].
  rewrite (Hnone (grammar.oName o)) by now left.
  apply NoDup_cons in Hnd as [Hnotin Hnd].
  apply IH; [exact Hok | exact Hnd |].
  intros n Hn. simpl. rewrite lookup_insert_ne.
  - apply Hnone. now right.
  - intros <-. apply Hnotin, list_elem_of_In, Hn.
Qed.

Lemma elab_inputDrvs_accept (l : list (string * list string)) (drv : Derivation) :
  forallb (fun i => grammar.path_ok (fst i) &&
                    String.eqb (storepath.Dir (fst i)) (Dir drv)) l = true ->
  NoDup (map fst l) ->
  (forall p : storepath.Path, In p (map fst l) -> InputDerivations drv !! p = None) ->
  exists d, elab.inputDrvs drv l = inr d.
Proof.
  revert drv. induction l as [|i l IH]; intros drv Hok Hnd Hnone; simpl; [eauto|].
  simpl in Hok. apply andb_true_iff in Hok as [Hi Hok].
  apply andb_true_iff in Hi as [Hp Hd].
  unfold elab.inputDrv. unfold grammar.path_ok in Hp.
  destruct (storepath.ParsePath (fst i)) as [e|p] eqn:E; [discriminate|].
  apply ParsePath_id in E. subst p. unfold Ok. rewrite Hd. simpl.
  rewrite (Hnone (fst i)) by now left.
  apply NoDup_cons in Hnd as [Hnotin Hnd].
  apply IH; [exact Hok | exact Hnd |].
  intros p Hp'. simpl. rewrite lookup_insert_ne.
  - apply Hnone. now right.
  - intros <-. apply Hnotin, list_elem_of_In, Hp'.
Qed.

Lemma elab_sources_accept (l : list string) (acc : sortedset.t) :
  forallb grammar.path_ok l = true ->
  exists srcs, elab.strings addInputSource acc l = inr srcs.
Proof.
  revert acc. induction l as [|x l IH]; intros acc Hok; simpl; [eauto|].
  simpl in Hok. apply andb_true_iff in Hok as [Hx Hok].
  unfold addInputSource at 1. unfold grammar.path_ok in Hx.
  destruct (storepath.ParsePath x); [discriminate|]. now apply IH.
Qed.

Lemma elab_env_accept (l : list (string * string)) (drv : Derivation) :
  NoDup (map fst l) ->
  (forall k, In k (map fst l) -> Env drv !! k = None) ->
  exists d, elab.env drv l = inr d.
Proof.
  revert drv. induction l as [|[k v] l IH]; intros drv Hnd Hnone; simpl; [eauto|].
  rewrite (Hnone k) by now left.
  apply NoDup_cons in Hnd as [Hnotin Hnd].
  apply IH; [exact Hnd|].
  intros k' Hk'. simpl. rewrite lookup_insert_ne.
  - apply Hnone. now right.
  - intros <-. apply Hnotin, list_elem_of_In, Hk'.
Qed.

Lemma elab_derive_accept (dir name : string) (t : grammar.Derive) :
  grammar.wellformed dir t = true -> exists d, elab.derive dir name t = inr d.
Proof.
  unfold grammar.wellformed, grammar.wellformed_with. rewrite !andb_true_iff.
  intros [[[[[Houts Hnd1] Hins] Hnd2] Hsrcs] Hnd3].
  apply bool_decide_eq_true in Hnd1, Hnd2, Hnd3.
  rewrite derive_unfold.
  destruct (elab_outputs_accept (grammar.outputs t)
              (set_Outputs (mkDerivation dir name "" "" [] ∅ sortedset.empty ∅ ∅) ∅)
              Houts Hnd1 (fun n _ => lookup_empty n)) as [d1 E1].
  rewrite E1. apply elab_outputs_frame in E1 as (D1 & _).
  destruct (elab_inputDrvs_accept (grammar.inputDrvs t) (set_InputDerivations d1 ∅))
    as [d2 E2]; [|exact Hnd2|intros p _; apply lookup_empty|].
  { simpl. now rewrite D1. }
  rewrite E2.
  destruct (elab_sources_accept (grammar.inputSrcs t) [] Hsrcs) as [srcs E3].
  rewrite E3.
  apply elab_env_accept; [exact Hnd3|]. intros k _. apply lookup_empty.
Qed.

(** What the parser accepts is well-formed. *)
Lemma elab_derive_wellformed (dir name : string) (t : grammar.Derive) (d : Derivation) :
  elab.derive dir name t = inr d -> grammar.wellformed dir t = true.
Proof.
  rewrite derive_unfold.
  destruct (elab.outputs _ _) as [e1|d1] eqn:E1; [discriminate|].
  destruct (elab.inputDrvs _ _) as [e2|d2] eqn:E2; [discriminate|].
  destruct (elab.strings _ _ _) as [e3|srcs] eqn:E3; [discriminate|].
  intros E4.
  unfold grammar.wellformed, grammar.wellformed_with. rewrite !andb_true_iff.
  repeat split.
  - apply elab_outputs_lookup in E1 as [_ Hall].
    apply forallb_forall. intros o Ho. rewrite List.Forall_forall in Hall.
    destruct (Hall o Ho) as (x & Hx & _).
    apply output_ok_accepted. now exists x.
  - apply bool_decide_eq_true. apply elab_outputs_ok in E1. apply E1.
  - pose proof (elab_inputDrvs_ok _ _ _ E2) as Hd.
    apply elab_inputDrvs_lookup in E2 as [_ Hp].
    apply elab_outputs_frame in E1 as (D1 & _). simpl in Hd, D1.
    apply forallb_forall. intros i Hi.
    rewrite List.Forall_forall in Hd, Hp.
    apply andb_true_iff. split.
    + unfold grammar.path_ok. now rewrite (proj1 (Hp i Hi)).
    + apply String.eqb_eq. exact (eq_trans (Hd i Hi) D1).
  - apply bool_decide_eq_true. apply elab_inputDrvs_nodup in E2. apply E2.
  - apply elab_sources in E3 as [_ Hs].
    apply forallb_forall. intros x Hx. rewrite List.Forall_forall in Hs.
    unfold grammar.path_ok. now rewrite (Hs x Hx).
  - apply bool_decide_eq_true. apply elab_env_ok in E4. apply E4.
Qed.

Lemma elab_output_no_tag (o : grammar.Output) :
  grammar.oCA o = ""%string -> is_ok (elab.output o) = false.
Proof. unfold elab.output. now intros ->. Qed.

End Contract.

(** C4. On the text of a syntax tree, [ParseDerivation] returns an error,
    and no derivation, when anything follows the closing parenthesis, when
    two outputs have the same name, when two environment entries have the
    same key, when an input derivation lies in another directory than the
    store directory of the derivation, and also when an output has the
    empty content address tag.  It accepts the text exactly when the tree
    is well-formed: every output has a tag [<hashAlgo>], [r:<hashAlgo>] or
    [text:<hashAlgo>] and hexadecimal digits for its hash, with no path and
    no hash or with a hash of the size of the algorithm; no output, input
    derivation or environment variable occurs twice; every input derivation
    and input source is a store path, the input derivations in the store
    directory of the derivation. *)
Theorem parser_contract (dir name : string) (t : grammar.Derive) (extra : string) :
  (extra <> ""%string ->
   is_error (zbstore.ParseDerivation dir name (grammar.print t +:+ extra))) /\
  (~ NoDup (map grammar.oName (grammar.outputs t)) ->
   is_error (zbstore.ParseDerivation dir name (grammar.print t))) /\
  (~ NoDup (map fst (grammar.env t)) ->
   is_error (zbstore.ParseDerivation dir name (grammar.print t))) /\
  (Exists (fun i => storepath.Dir (fst i) <> dir) (grammar.inputDrvs t) ->
   is_error (zbstore.ParseDerivation dir name (grammar.print t))) /\
  (Exists (fun o => grammar.oCA o = ""%string) (grammar.outputs t) ->
   is_error (zbstore.ParseDerivation dir name (grammar.print t))) /\
  ((exists d, zbstore.ParseDerivation dir name (grammar.print t) = inr d) <->
   grammar.wellformed dir t = true).
Proof.
  assert (Hnil : zbstore.ParseDerivation dir name (grammar.print t)
                 = elab.derive_then dir name t "").
  { rewrite <- ParseDerivation_text. now rewrite str_app_nil_r. }
  assert (Hno : forall P : Prop,
            (forall d, elab.derive dir name t = inr d -> P) -> ~ P ->
            is_error (elab.derive_then dir name t "")).
  { intros P HP HnP. apply derive_then_error. unfold elab.derive_then.
    destruct (elab.derive dir name t) as [e|d] eqn:E; [reflexivity|].
    exfalso. apply HnP, (HP d eq_refl). }
  split; [|split; [|split; [|split; [|split]]]].
  - intros Hextra. rewrite ParseDerivation_text. apply derive_then_error.
    unfold elab.derive_then. destruct (elab.derive dir name t); [reflexivity|].
    destruct extra; [contradiction | reflexivity].
  - intros Hdup. rewrite Hnil. refine (Hno _ _ Hdup).
    intros d. rewrite derive_unfold.
    destruct (elab.outputs _ _) as [e1|d1] eqn:E1; [discriminate|].
    intros _. apply elab_outputs_ok in E1. apply E1.
  - intros Hdup. rewrite Hnil. refine (Hno _ _ Hdup).
    intros d. rewrite derive_unfold.
    destruct (elab.outputs _ _) as [e1|d1] eqn:E1; [discriminate|].
    destruct (elab.inputDrvs _ _) as [e2|d2] eqn:E2; [discriminate|].
    destruct (elab.strings _ _ _) as [e3|srcs] eqn:E3; [discriminate|].
    intros E4. apply elab_env_ok in E4. apply E4.
  - intros Hex. rewrite Hnil.
    apply (Hno (Forall (fun i => storepath.Dir (fst i) = dir) (grammar.inputDrvs t))).
    + intros d. rewrite derive_unfold.
      destruct (elab.outputs _ _) as [e1|d1] eqn:E1; [discriminate|].
      destruct (elab.inputDrvs _ _) as [e2|d2] eqn:E2; [discriminate|].
      intros _. apply elab_inputDrvs_ok in E2.
      apply elab_outputs_frame in E1 as (D1 & _). simpl in E2, D1.
      now rewrite D1 in E2.
    + intros Hall. apply Exists_exists in Hex as (i & Hi & Hne).
      rewrite Forall_forall in Hall. apply Hne, Hall, Hi.
  - intros Hex. rewrite Hnil.
    apply (Hno (Forall (fun o => is_ok (elab.output o) = true) (grammar.outputs t))).
    + intros d. rewrite derive_unfold.
      destruct (elab.outputs _ _) as [e1|d1] eqn:E1; [discriminate|].
      intros _. apply elab_outputs_lookup in E1 as [_ Hall].
      eapply Forall_impl; [exact Hall|]. intros o (x & -> & _). reflexivity.
    + intros Hall. apply Exists_exists in Hex as (o & Ho & Hne).
      rewrite Forall_forall in Hall. specialize (Hall o Ho).
      now rewrite (elab_output_no_tag o Hne) in Hall.
  - rewrite Hnil. unfold elab.derive_then. split.
    + intros [d H]. destruct (elab.derive dir name t) as [e|d'] eqn:E; [discriminate|].
      eapply elab_derive_wellformed, E.
    + intros Hwf. destruct (elab_derive_accept dir name t Hwf) as [d ->]. eauto.
Qed.

Lemma parser_contract_witness :
  is_error (zbstore.ParseDerivation "/zb/store" "x"
              (grammar.print (grammar.mkDerive [] [] [] "" "" [] []) +:+ " ")) /\
  is_error (zbstore.ParseDerivation "/zb/store" "x"
              (grammar.print (grammar.mkDerive
                 [grammar.mkOutput "out" "" "sha256" "";
                  grammar.mkOutput "out" "" "r:sha256" ""] [] [] "" "" [] []))) /\
  is_error (zbstore.ParseDerivation "/zb/store" "x"
              (grammar.print (grammar.mkDerive [] [] [] "" "" []
                 [("k", "v"); ("k", "w")]))) /\
  is_error (zbstore.ParseDerivation "/zb/store" "x"
              (grammar.print (grammar.mkDerive []
                 [("/nix/store/00000000000000000000000000000000-a.drv", ["out"])]
                 [] "" "" [] []))) /\
  is_error (zbstore.ParseDerivation "/zb/store" "x"
              (grammar.print (grammar.mkDerive
                 [grammar.mkOutput "out" "/zb/store/00000000000000000000000000000000-x" "" ""]
                 [] [] "" "" [] []))) /\
  (exists d,
    zbstore.ParseDerivation "/zb/store" "x"
      (grammar.print (grammar.mkDerive
         [grammar.mkOutput "dev" "" "sha256" "";
          grammar.mkOutput "out" "/zb/store/00000000000000000000000000000000-x" "r:sha1"
            "000102030405060708090A0B0C0D0E0F10111213"]
         [("/zb/store/00000000000000000000000000000000-a.drv", ["out"])]
         ["/zb/store/11111111111111111111111111111111-src"]
         "x86_64-linux" "/bin/sh" ["-c"; "true"] [("k", "v")])) = inr d) /\
  grammar.wellformed "/zb/store" cases.sorted_tree = true.
Proof.
  split; [|split; [|split; [|split; [|split; [|split]]]]].
  - refine (proj1 (parser_contract "/zb/store" "x"
                     (grammar.mkDerive [] [] [] "" "" [] []) " ") _).
    discriminate.
  - refine (proj1 (proj2 (parser_contract "/zb/store" "x"
                     (grammar.mkDerive
                        [grammar.mkOutput "out" "" "sha256" "";
                         grammar.mkOutput "out" "" "r:sha256" ""] [] [] "" "" [] []) "")) _).
    apply (proj1 (bool_decide_eq_false _)). vm_compute. reflexivity.
  - refine (proj1 (proj2 (proj2 (parser_contract "/zb/store" "x"
                     (grammar.mkDerive [] [] [] "" "" [] [("k", "v"); ("k", "w")]) ""))) _).
    apply (proj1 (bool_decide_eq_false _)). vm_compute. reflexivity.
  - refine (proj1 (proj2 (proj2 (proj2 (parser_contract "/zb/store" "x"
                     (grammar.mkDerive []
                        [("/nix/store/00000000000000000000000000000000-a.drv", ["out"])]
                        [] "" "" [] []) "")))) _).
    apply Exists_cons_hd. vm_compute. discriminate.
  - refine (proj1 (proj2 (proj2 (proj2 (proj2 (parser_contract "/zb/store" "x"
                     (grammar.mkDerive
                        [grammar.mkOutput "out"
                           "/zb/store/00000000000000000000000000000000-x" "" ""]
                        [] [] "" "" [] []) ""))))) _).
    apply Exists_cons_hd. reflexivity.
  - refine (proj2 (proj2 (proj2 (proj2 (proj2 (proj2 (parser_contract "/zb/store" "x"
                     (grammar.mkDerive
                        [grammar.mkOutput "dev" "" "sha256" "";
                         grammar.mkOutput "out"
                           "/zb/store/00000000000000000000000000000000-x" "r:sha1"
                           "000102030405060708090A0B0C0D0E0F10111213"]
                        [("/zb/store/00000000000000000000000000000000-a.drv", ["out"])]
                        ["/zb/store/11111111111111111111111111111111-src"]
                        "x86_64-linux" "/bin/sh" ["-c"; "true"] [("k", "v")]) "")))))) _).
    vm_compute. reflexivity.
  - refine (proj1 (proj2 (proj2 (proj2 (proj2 (proj2 (parser_contract "/zb/store" "hello"
                     cases.sorted_tree "")))))) _).
    exists cases.parsed. vm_compute. reflexivity.
Defined.

(** C4, as the specification has it, fails.  Section 4.3 lists the empty
    content address tag, and [MarshalText] writes it for an output that is
    nil; the text has none of the four defects, and the parser refuses
    it. *)
Lemma parser_contract_partial :
  grammar.listed "/zb/store" cases.nil_tree = true /\
  NoDup (map grammar.oName (grammar.outputs cases.nil_tree)) /\
  NoDup (map fst (grammar.env cases.nil_tree)) /\
  Forall (fun i => storepath.Dir (fst i) = "/zb/store"%string)
         (grammar.inputDrvs cases.nil_tree) /\
  zbstore.MarshalText example.sourcePath cases.nil_drv
  = inr (grammar.print cases.nil_tree) /\
  is_error (zbstore.ParseDerivation "/zb/store" "hello" (grammar.print cases.nil_tree)).
Proof.
  split; [vm_compute; reflexivity|].
  split; [apply NoDup_singleton|].
  split; [constructor|].
  split; [constructor|].
  split; [vm_compute; reflexivity|].
  vm_compute. exact I.
Qed.

(** ** What the parser builds from any input

    Whatever the bytes, a derivation that the parser returns is the one
    that [elab.derive] makes of some syntax tree: the strings of the tokens
    that the parser has read. *)

Section ParserBuilds.

Import zbstore aterm.

Lemma bindP_inv {A B} (m : P A) (k : A -> P B) (s : Scanner) (r : B * Scanner) :
  (m ≫= k) s = inr r -> exists a s1, m s = inr (a, s1) /\ k a s1 = inr r.
Proof.
  unfold mbind, P_bind, bindP. destruct (m s) as [e|[a s1]]; [discriminate|].
  intros H. now exists a, s1.
Qed.

Lemma wrapP_inv {A} (format : string) (fargs : list fmt_arg) (m : P A) (s : Scanner)
    (r : A * Scanner) :
  wrapP format fargs m s = inr r -> m s = inr r.
Proof. unfold wrapP. now destruct (m s). Qed.

Lemma check_inv (tok : Token) (kind : TokenKind) (format : string)
    (fargs : list fmt_arg) (s : Scanner) (r : unit * Scanner) :
  check tok kind format fargs s = inr r ->
  kind_eqb (Kind tok) kind = true /\ r = (tt, s).
Proof.
  unfold check. destruct (kind_eqb _ _); [|discriminate].
  now intros [= <-].
Qed.

Lemma liftP_inv {A} (x : result A) (s : Scanner) (r : A * Scanner) :
  liftP x s = inr r -> x = inr (fst r) /\ snd r = s.
Proof. unfold liftP. destruct x; [discriminate|]. now intros [= <-]. Qed.

Lemma parseDerivationOutput_inv (s s' : Scanner) (no : string * option DerivationOutput) :
  parseDerivationOutput s = inr (no, s') -> exists g, elab.output g = inr no.
Proof.
  unfold parseDerivationOutput. intros H.
  apply bindP_inv in H as (t0 & s0 & _ & H).
  apply bindP_inv in H as (u0 & r0 & _ & H).
  apply bindP_inv in H as (t1 & s1 & _ & H).
  apply bindP_inv in H as (u1 & r1 & _ & H).
  apply bindP_inv in H as (t2 & s2 & _ & H).
  apply bindP_inv in H as (u2 & r2 & _ & H).
  apply bindP_inv in H as (t3 & s3 & _ & H).
  apply bindP_inv in H as (u3 & r3 & _ & H).
  apply bindP_inv in H as (t4 & s4 & _ & H).
  apply bindP_inv in H as (u4 & r4 & _ & H).
  apply bindP_inv in H as (t5 & s5 & _ & H).
  apply bindP_inv in H as (u5 & r5 & _ & H).
  exists (grammar.mkOutput (Value t1) (Value t2) (Value t3) (Value t4)).
  unfold elab.output. simpl.
  destruct (parseHashAlgorithm (Value t3)) as [m [e|a]].
  { apply bindP_inv in H as (? & ? & H1 & _). apply wrapP_inv in H1. discriminate H1. }
  apply bindP_inv in H as (a' & q & H1 & H).
  apply wrapP_inv, liftP_inv in H1 as [[= <-] _].
  destruct (hex.DecodeString (Value t4)) as [bits|].
  2:{ apply bindP_inv in H as (? & ? & H1 & _). apply wrapP_inv in H1. discriminate H1. }
  apply bindP_inv in H as (b' & q' & H1 & H).
  apply wrapP_inv, liftP_inv in H1 as [[= <-] _].
  destruct (_ && _); [now injection H as <- _|].
  destruct (negb (String.eqb _ _)); [|discriminate].
  destruct (negb (_ =? _)%nat); [discriminate|].
  destruct m; try discriminate; now injection H as <- _.
Qed.

Lemma parseStringList_loop_inv {A} (fuel : nat) (f : string -> A -> result A)
    (acc acc' : A) (s s' : Scanner) :
  parseStringList_loop fuel f acc s = inr (acc', s') ->
  exists l, elab.strings f acc l = inr acc'.
Proof.
  revert acc s. induction fuel as [|fuel IH]; intros acc s; simpl; [discriminate|].
  intros H. apply bindP_inv in H as (tok & s1 & _ & H).
  destruct (Kind tok); try discriminate.
  - apply bindP_inv in H as (x & s2 & H1 & H).
    apply liftP_inv in H1 as [H1 _]. simpl in H1.
    apply IH in H as [l H]. exists (Value tok :: l). simpl. now rewrite H1.
  - injection H as <- _. now exists [].
Qed.

Lemma parseStringList_inv {A} (fuel : nat) (f : string -> A -> result A)
    (acc acc' : A) (s s' : Scanner) :
  parseStringList fuel f acc s = inr (acc', s') ->
  exists l, elab.strings f acc l = inr acc'.
Proof.
  unfold parseStringList. intros H.
  apply bindP_inv in H as (tok & s1 & _ & H).
  apply bindP_inv in H as (u & s2 & _ & H).
  now apply parseStringList_loop_inv in H.
Qed.

Lemma parseInputDerivation_inv (fuel : nat) (s s' : Scanner)
    (i : storepath.Path * sortedset.t) :
  parseInputDerivation fuel s = inr (i, s') -> exists g, elab.inputDrv g = inr i.
Proof.
  unfold parseInputDerivation. intros H.
  apply bindP_inv in H as (t0 & s0 & _ & H).
  apply bindP_inv in H as (u0 & r0 & _ & H).
  apply bindP_inv in H as (t1 & s1 & _ & H).
  apply bindP_inv in H as (u1 & r1 & _ & H).
  apply bindP_inv in H as (names & s2 & Hn & H).
  apply bindP_inv in H as (t2 & s3 & _ & H).
  apply bindP_inv in H as (u2 & r2 & _ & H).
  apply bindP_inv in H as (p & s4 & Hp & H).
  apply wrapP_inv, parseStringList_inv in Hn as [l Hl].
  rewrite strings_Add in Hl. injection Hl as <-.
  apply wrapP_inv, liftP_inv in Hp as [Hp _]. simpl in Hp.
  injection H as <- _.
  exists (Value t1, l). unfold elab.inputDrv. simpl. now rewrite Hp.
Qed.

Lemma parseOutputs_inv (fuel : nat) (drv d' : Derivation) (s s' : Scanner) :
  parseOutputs fuel drv s = inr (d', s') ->
  exists gs, elab.outputs drv gs = inr d'.
Proof.
  revert drv s. induction fuel as [|fuel IH]; intros drv s; simpl; [discriminate|].
  intros H. apply bindP_inv in H as (tok & s1 & _ & H).
  destruct (kind_eqb _ _).
  { injection H as <- _. now exists []. }
  apply bindP_inv in H as (u & s2 & _ & H).
  apply bindP_inv in H as ([n o] & s3 & Ho & H).
  apply wrapP_inv, parseDerivationOutput_inv in Ho as [g Hg].
  destruct (Outputs drv !! n) eqn:L; [discriminate|].
  apply IH in H as [gs H]. exists (g :: gs). simpl. now rewrite Hg, L.
Qed.

Lemma parseInputDerivations_inv (fuel0 fuel : nat) (drv d' : Derivation)
    (s s' : Scanner) :
  parseInputDerivations fuel0 fuel drv s = inr (d', s') ->
  exists ins, elab.inputDrvs drv ins = inr d'.
Proof.
  revert drv s. induction fuel as [|fuel IH]; intros drv s; simpl; [discriminate|].
  intros H. apply bindP_inv in H as (tok & s1 & _ & H).
  destruct (kind_eqb _ _).
  { injection H as <- _. now exists []. }
  apply bindP_inv in H as (u & s2 & _ & H).
  apply bindP_inv in H as ([p ns] & s3 & Hi & H).
  apply wrapP_inv, parseInputDerivation_inv in Hi as [g Hg].
  destruct (negb _) eqn:D; [discriminate|].
  destruct (_ !! _) eqn:L; [discriminate|].
  apply IH in H as [ins H]. exists (g :: ins). simpl. now rewrite Hg, D, L.
Qed.

Lemma parseEnv_loop_inv (fuel : nat) (drv d' : Derivation) (s s' : Scanner) :
  parseEnv_loop fuel drv s = inr (d', s') ->
  exists kvs, elab.env drv kvs = inr d'.
Proof.
  revert drv s. induction fuel as [|fuel IH]; intros drv s; simpl; [discriminate|].
  intros H. apply bindP_inv in H as (tok & s1 & _ & H).
  destruct (Kind tok); try discriminate.
  - apply bindP_inv in H as (tk & s2 & _ & H).
    apply bindP_inv in H as (u & s3 & _ & H).
    destruct (Env drv !! Value tk) eqn:L; [discriminate|].
    apply bindP_inv in H as (tv & s4 & _ & H).
    apply bindP_inv in H as (u' & s5 & _ & H).
    apply bindP_inv in H as (tr & s6 & _ & H).
    apply bindP_inv in H as (u'' & s7 & _ & H).
    apply IH in H as [kvs H]. exists ((Value tk, Value tv) :: kvs). simpl.
    now rewrite L.
  - injection H as <- _. now exists [].
Qed.

Lemma parseTuple_inv (fuel : nat) (dir name : string) (d : Derivation)
    (s s' : Scanner) :
  parseTuple fuel (mkDerivation dir name "" "" [] ∅ sortedset.empty ∅ ∅) s
  = inr (d, s') ->
  exists t, elab.derive dir name t = inr d.
Proof.
  unfold parseTuple. intros H.
  apply bindP_inv in H as (t0 & s0 & _ & H).
  apply bindP_inv in H as (u0 & r0 & _ & H).
  apply bindP_inv in H as (t1 & s1 & _ & H).
  apply bindP_inv in H as (u1 & r1 & _ & H).
  apply bindP_inv in H as (d1 & s2 & H1 & H).
  apply bindP_inv in H as (t2 & s3 & _ & H).
  apply bindP_inv in H as (u2 & r2 & _ & H).
  apply bindP_inv in H as (d2 & s4 & H2 & H).
  apply bindP_inv in H as (srcs & s5 & H3 & H).
  apply bindP_inv in H as (t3 & s6 & _ & H).
  apply bindP_inv in H as (u3 & r3 & _ & H).
  apply bindP_inv in H as (t4 & s7 & _ & H).
  apply bindP_inv in H as (u4 & r4 & _ & H).
  apply bindP_inv in H as (args & s8 & H4 & H).
  apply bindP_inv in H as (d3 & s9 & H5 & H).
  apply bindP_inv in H as (t5 & s10 & _ & H).
  apply bindP_inv in H as (u5 & r5 & _ & H).
  injection H as <- _.
  apply parseOutputs_inv in H1 as [gs H1].
  apply parseInputDerivations_inv in H2 as [ins H2].
  apply wrapP_inv, parseStringList_inv in H3 as [l3 H3].
  apply wrapP_inv, parseStringList_inv in H4 as [l4 H4].
  rewrite strings_append in H4. injection H4 as <-.
  unfold parseEnv in H5.
  apply bindP_inv in H5 as (t6 & s11 & _ & H5).
  apply bindP_inv in H5 as (u6 & r6 & _ & H5).
  apply parseEnv_loop_inv in H5 as [kvs H5].
  exists (grammar.mkDerive gs ins l3 (Value t3) (Value t4) l4 kvs).
  rewrite derive_unfold. simpl.
  rewrite H1, H2. unfold sortedset.Clear in H3. rewrite H3. exact H5.
Qed.

Lemma ParseDerivation_inv (dir name data : string) (d : Derivation) :
  ParseDerivation dir name data = inr d -> exists t, elab.derive dir name t = inr d.
Proof.
  unfold ParseDerivation.
  destruct (bytes.CutPrefix data "Derive") as [rest|]; [|discriminate].
  destruct (parseTuple _ _ _) as [e|[d' r]] eqn:E; [discriminate|].
  destruct (0 <? Len r)%nat; [discriminate|]. intros [= <-].
  now apply parseTuple_inv in E.
Qed.

End ParserBuilds.

(** ** The derivation of a syntax tree, field by field *)

Section Derived.

Import zbstore.

Lemma elab_derive_inv (dir name : string) (t : grammar.Derive) (d : Derivation) :
  elab.derive dir name t = inr d ->
  (Dir d = dir /\ Name d = name /\ System d = grammar.system t /\
   Builder d = grammar.builder t /\ Args d = grammar.args t) /\
  (InputSources d = sortedset.of_list (grammar.inputSrcs t) /\
   Forall (fun s => storepath.ParsePath s = inr s) (grammar.inputSrcs t)) /\
  ((forall n, ~ In n (map grammar.oName (grammar.outputs t)) -> Outputs d !! n = None) /\
   Forall (fun g => exists o, elab.output g = inr (grammar.oName g, o) /\
                              Outputs d !! grammar.oName g = Some o)
          (grammar.outputs t)) /\
  ((forall p : string, ~ In p (map fst (grammar.inputDrvs t)) ->
                       InputDerivations d !! p = None) /\
   Forall (fun i => storepath.ParsePath (fst i) = inr (fst i) /\
                    InputDerivations d !! fst i = Some (sortedset.of_list (snd i)))
          (grammar.inputDrvs t)) /\
  ((forall k, ~ In k (map fst (grammar.env t)) -> Env d !! k = None) /\
   Forall (fun kv => Env d !! fst kv = Some (snd kv)) (grammar.env t)).
Proof.
  rewrite derive_unfold.
  destruct (elab.outputs _ _) as [e|d1] eqn:E1; [discriminate|].
  destruct (elab.inputDrvs _ _) as [e|d2] eqn:E2; [discriminate|].
  destruct (elab.strings _ _ _) as [e|srcs] eqn:E3; [discriminate|].
  intros E4.
  pose proof (elab_outputs_frame _ _ _ E1) as (F1 & F2 & F3 & F4 & F5 & F6 & F7 & F8).
  pose proof (elab_inputDrvs_frame _ _ _ E2) as (G1 & G2 & G3 & G4 & G5 & G6 & G7 & G8).
  pose proof (elab_env_frame _ _ _ E4) as (H1 & H2 & H3 & H4 & H5 & H6 & H7 & H8).
  apply elab_outputs_lookup in E1 as [O1 O2].
  apply elab_inputDrvs_lookup in E2 as [I1 I2].
  apply elab_sources in E3 as [-> S2].
  apply elab_env_lookup in E4 as [V1 V2].
  simpl in *.
  repeat split; try congruence; try assumption.
  - intros n Hn. rewrite H8, G8. now apply O1.
  - rewrite H8, G8. exact O2.
  - intros p Hp. rewrite H7. now apply I1.
  - rewrite H7. exact I2.
Qed.

End Derived.

(** ** Round trips on syntax trees *)

Section RoundTrip.

Import zbstore.

Variable F :
  storepath.Directory -> string -> nix.ContentAddress -> References ->
  result storepath.Path.

Lemma Forall_In_fst {A B} (P : A * B -> Prop) (l : list (A * B)) (a : A) :
  Forall P l -> In a (map fst l) -> exists b, In (a, b) l /\ P (a, b).
Proof.
  intros H Hin. apply in_map_iff in Hin as ([a' b] & <- & Hin).
  exists b. split; [exact Hin|].
  rewrite Forall_forall in H. now apply H, list_elem_of_In.
Qed.

Lemma elab_derive_canonical (dir name : string) (t : grammar.Derive) (d : Derivation) :
  elab.derive dir name t = inr d -> elab.canonical d.
Proof.
  intros H. apply elab_derive_inv in H as (_ & (S1 & S2) & (O1 & O2) & (I1 & I2) & _).
  repeat split.
  - intros n o L.
    destruct (in_dec String.string_dec n (map grammar.oName (grammar.outputs t)))
      as [Hin|Hni]; [|rewrite O1 in L by exact Hni; discriminate].
    apply in_map_iff in Hin as (g & <- & Hin).
    rewrite Forall_forall in O2.
    destruct (O2 g (proj2 (list_elem_of_In _ _) Hin)) as (o' & E & L').
    rewrite L in L'. injection L' as ->.
    exact (elab_output_canonical _ _ _ E).
  - destruct (in_dec String.string_dec p (map fst (grammar.inputDrvs t)))
      as [Hin|Hni]; [|rewrite I1 in H by exact Hni; discriminate].
    destruct (Forall_In_fst _ _ _ I2 Hin) as (b & _ & Hp & _). exact Hp.
  - destruct (in_dec String.string_dec p (map fst (grammar.inputDrvs t)))
      as [Hin|Hni]; [|rewrite I1 in H by exact Hni; discriminate].
    destruct (Forall_In_fst _ _ _ I2 Hin) as (b & _ & _ & L). simpl in L.
    unfold storepath.Path in *. rewrite H in L. injection L as ->. apply of_list_ok.
  - rewrite S1. apply of_list_ok.
  - rewrite S1. apply Forall_forall. intros s Hs.
    apply list_elem_of_In in Hs. apply (proj1 (of_list_In _ _)) in Hs.
    rewrite Forall_forall in S2. now apply S2, list_elem_of_In.
Qed.

(** A map is given by its values at its sorted keys. *)
Lemma map_from_keys {V} (m m' : gmap string V) :
  (forall n, In n (sortedKeys m) -> m' !! n = m !! n) ->
  (forall n, ~ In n (sortedKeys m) -> m' !! n = None) ->
  m' = m.
Proof.
  intros Hin Hout. apply map_eq. intros n.
  destruct (in_dec String.string_dec n (sortedKeys m)) as [H|H].
  - now apply Hin.
  - rewrite (Hout n H). symmetry. apply eq_None_not_Some.
    intros Hs. apply H. now apply sortedKeys_In.
Qed.

Lemma elab_outputs_build (m : gmap string (option DerivationOutput))
    (keys : list string) (outs : list grammar.Output) (drv : Derivation) :
  Forall2 (fun k g => exists o, m !! k = Some o /\ elab.output g = inr (k, o)) keys outs ->
  NoDup keys ->
  (forall k, In k keys -> Outputs drv !! k = None) ->
  exists d', elab.outputs drv outs = inr d' /\
             (forall n, In n keys -> Outputs d' !! n = m !! n) /\
             (forall n, ~ In n keys -> Outputs d' !! n = Outputs drv !! n).
Proof.
  intros H. revert drv. induction H as [|k g ks gs (o & Hm & Hg) _ IH]; intros drv Hnd Hnone.
  - exists drv. simpl. split; [reflexivity|]. split; [intros ? []|reflexivity].
  - apply NoDup_cons in Hnd as [Hk Hnd]. rewrite list_elem_of_In in Hk.
    simpl. rewrite Hg, (Hnone k (or_introl eq_refl)).
    destruct (IH (set_Outputs drv (<[k:=o]> (Outputs drv))) Hnd) as (d' & E & Hin & Hout).
    { intros k' Hk'. simpl. rewrite lookup_insert_ne by congruence.
      apply Hnone. now right. }
    exists d'. split; [exact E|]. simpl in Hout. split.
    + intros n [<-|Hn]; [|now apply Hin].
      rewrite Hout by exact Hk. rewrite lookup_insert_eq. now symmetry.
    + intros n Hn. rewrite Hout by tauto. apply lookup_insert_ne. tauto.
Qed.

Lemma elab_inputDrvs_build (m : gmap string sortedset.t) (keys : list string)
    (drv : Derivation) :
  NoDup keys ->
  (forall k : string, In k keys ->
     storepath.ParsePath k = inr k /\ storepath.Dir k = Dir drv /\
     exists ns, m !! k = Some ns /\ sortedset.ok ns) ->
  (forall k : string, In k keys -> InputDerivations drv !! k = None) ->
  exists d', elab.inputDrvs drv
               (map (fun p => (p, default sortedset.empty (m !! p))) keys) = inr d' /\
             (forall n : string, In n keys -> InputDerivations d' !! n = m !! n) /\
             (forall n : string, ~ In n keys ->
                InputDerivations d' !! n = InputDerivations drv !! n).
Proof.
  revert drv. induction keys as [|k ks IH]; intros drv Hnd Hk Hnone.
  - exists drv. simpl. split; [reflexivity|]. split; [intros ? []|reflexivity].
  - apply NoDup_cons in Hnd as [Hni Hnd]. rewrite list_elem_of_In in Hni.
    destruct (Hk k (or_introl eq_refl)) as (Hp & Hd & ns & Hm & Hok).
    simpl. unfold elab.inputDrv. simpl. rewrite Hp. unfold Ok; cbv beta iota.
    rewrite Hd, String.eqb_refl. simpl.
    pose proof (Hnone k (or_introl eq_refl)) as L. unfold storepath.Path in *.
    rewrite L, Hm. simpl. rewrite (of_list_sorted _ Hok).
    destruct (IH (set_InputDerivations drv (<[k:=ns]> (InputDerivations drv))) Hnd)
      as (d' & E & Hin & Hout).
    { intros k' Hk'. simpl. apply Hk. now right. }
    { intros k' Hk'. simpl. rewrite lookup_insert_ne by congruence.
      apply Hnone. now right. }
    exists d'. split; [exact E|]. simpl in Hout. split.
    + intros n [<-|Hn]; [|now apply Hin].
      rewrite Hout by exact Hni. rewrite lookup_insert_eq. now symmetry.
    + intros n Hn. rewrite Hout by tauto. apply lookup_insert_ne. tauto.
Qed.

Lemma elab_env_build (m : gmap string string) (keys : list string) (drv : Derivation) :
  NoDup keys ->
  (forall k, In k keys -> is_Some (m !! k)) ->
  (forall k, In k keys -> Env drv !! k = None) ->
  exists d', elab.env drv (map (fun k => (k, default "" (m !! k))) keys) = inr d' /\
             (forall n, In n keys -> Env d' !! n = m !! n) /\
             (forall n, ~ In n keys -> Env d' !! n = Env drv !! n).
Proof.
  revert drv. induction keys as [|k ks IH]; intros drv Hnd Hk Hnone.
  - exists drv. simpl. split; [reflexivity|]. split; [intros ? []|reflexivity].
  - apply NoDup_cons in Hnd as [Hni Hnd]. rewrite list_elem_of_In in Hni.
    destruct (Hk k (or_introl eq_refl)) as (v & Hm).
    simpl. rewrite (Hnone k (or_introl eq_refl)), Hm. simpl.
    destruct (IH (set_Env drv (<[k:=v]> (Env drv))) Hnd) as (d' & E & Hin & Hout).
    { intros k' Hk'. apply Hk. now right. }
    { intros k' Hk'. simpl. rewrite lookup_insert_ne by congruence.
      apply Hnone. now right. }
    exists d'. split; [exact E|]. simpl in Hout. split.
    + intros n [<-|Hn]; [|now apply Hin].
      rewrite Hout by exact Hni. rewrite lookup_insert_eq. now symmetry.
    + intros n Hn. rewrite Hout by tauto. apply lookup_insert_ne. tauto.
Qed.

Lemma record_eq (d : Derivation) :
  mkDerivation (Dir d) (Name d) (System d) (Builder d) (Args d) (Env d)
    (InputSources d) (InputDerivations d) (Outputs d) = d.
Proof. now destruct d. Qed.

Lemma Forall2_impl_In {A B} (P Q : A -> B -> Prop) (l : list A) (k : list B) :
  Forall2 P l k ->
  (forall x y, In x l -> In y k -> P x y -> Q x y) ->
  Forall2 Q l k.
Proof.
  induction 1 as [|x y l k Hxy _ IH]; intros H; constructor.
  - apply H; [now left | now left | exact Hxy].
  - apply IH. intros x' y' Hx' Hy'. apply H; now right.
Qed.

(** Parsing what was marshalled, on trees: a derivation that the parser
    can build is rebuilt from the tree that the marshaller writes for it. *)
Lemma tree_derive (d : Derivation) (t : grammar.Derive) :
  elab.canonical d ->
  view.tree F d = Some t ->
  elab.derive (Dir d) (Name d) t = inr d.
Proof.
  intros (HO & HI & HS1 & HS2). unfold view.tree.
  destruct (String.eqb (Name d) ""); [discriminate|].
  destruct (String.eqb (Dir d) ""); [discriminate|].
  destruct (mapM (view.output F d) _) as [outs|] eqn:Eo; [|discriminate].
  destruct (mapM (view.inputDrv d) _) as [ins|] eqn:Ei; [|discriminate].
  destruct (mapM (view.inputSrc d) _) as [srcs|] eqn:Es; [|discriminate].
  simpl. intros [= <-]. rewrite derive_unfold. simpl.
  (* outputs *)
  apply mapM_Some in Eo.
  destruct (elab_outputs_build (Outputs d) (sortedKeys (Outputs d)) outs
              (set_Outputs (mkDerivation (Dir d) (Name d) "" "" [] ∅ sortedset.empty ∅ ∅) ∅))
    as (d1 & E1 & O1 & O2).
  { eapply Forall2_impl_In; [exact Eo|]. intros k g Hk _ Hg. simpl in Hg.
    apply sortedKeys_In in Hk as [o Ho]. exists o. split; [exact Ho|].
    unfold view.output in Hg. rewrite Ho in Hg. simpl in Hg.
    exact (canonical_output_elab F _ _ _ _ _ (HO _ _ Ho) Hg). }
  { apply sortedKeys_NoDup. }
  { intros k _. apply lookup_empty. }
  assert (Outputs d1 = Outputs d) as EO.
  { apply map_from_keys; [exact O1|]. intros n Hn. rewrite (O2 n Hn). apply lookup_empty. }
  pose proof (elab_outputs_eq _ _ _ E1) as D1. rewrite EO in D1.
  rewrite E1. subst d1. clear E1 O1 O2 EO Eo.
  (* input derivations *)
  apply view_inputDrvs in Ei as [-> Hd].
  match goal with |- context [elab.inputDrvs ?x _] => set (drv1 := x) end.
  destruct (elab_inputDrvs_build (InputDerivations d) (sortedKeys (InputDerivations d)) drv1)
    as (d2 & E2 & I1 & I2).
  { apply sortedKeys_NoDup. }
  { intros k Hk. rewrite Forall_forall in Hd.
    pose proof (Hd k (proj2 (list_elem_of_In _ _) Hk)) as Hdir.
    apply sortedKeys_In in Hk as [ns Hns].
    destruct (HI _ _ Hns) as [Hp Hok].
    split; [exact Hp|]. split; [exact Hdir|]. now exists ns. }
  { intros k _. apply lookup_empty. }
  assert (InputDerivations d2 = InputDerivations d) as EI.
  { apply map_from_keys; [exact I1|]. intros n Hn. rewrite (I2 n Hn). apply lookup_empty. }
  pose proof (elab_inputDrvs_eq _ _ _ E2) as D2. rewrite EI in D2.
  rewrite E2. subst d2. clear E2 I1 I2 EI Hd.
  (* input sources *)
  apply view_inputSrcs in Es as [-> _].
  rewrite (elab_sources_accept' _ _ HS2).
  change (fold_left sortedset.Add (InputSources d) [])
    with (sortedset.of_list (InputSources d)).
  rewrite (of_list_sorted _ HS1).
  (* environment *)
  match goal with |- context [elab.env ?x _] => set (drv3 := x) end.
  destruct (elab_env_build (Env d) (sortedKeys (Env d)) drv3) as (d4 & E4 & V1 & V2).
  { apply sortedKeys_NoDup. }
  { intros k Hk. now apply sortedKeys_In. }
  { intros k _. apply lookup_empty. }
  assert (Env d4 = Env d) as EV.
  { apply map_from_keys; [exact V1|]. intros n Hn. rewrite (V2 n Hn). apply lookup_empty. }
  pose proof (elab_env_eq _ _ _ E4) as D4. rewrite EV in D4.
  unfold view.envEntry. rewrite E4, D4. subst drv3 drv1. apply (f_equal inr).
  transitivity (mkDerivation (Dir d) (Name d) (System d) (Builder d) (Args d) (Env d)
                  (InputSources d) (InputDerivations d) (Outputs d));
    [reflexivity | apply record_eq].
Qed.

(** Marshalling what was parsed, on trees: what the parser builds from
    the tree of a derivation has the same tree. *)
Lemma derive_tree (d0 d' : Derivation) (t : grammar.Derive) :
  Derivation_ok d0 = true ->
  view.tree F d0 = Some t ->
  elab.derive (Dir d0) (Name d0) t = inr d' ->
  view.tree F d' = Some t.
Proof.
  intros Hok Ht Hd. destruct (Derivation_ok_sets _ Hok) as [S1 S2].
  pose proof (elab_derive_inv _ _ _ _ Hd)
    as ((D1 & D2 & D3 & D4 & D5) & (Q1 & Q2) & (O1 & O2) & (I1 & I2) & (V1 & V2)).
  clear Hd. revert Ht. unfold view.tree at 1.
  destruct (String.eqb (Name d0) "") eqn:Hn; [discriminate|].
  destruct (String.eqb (Dir d0) "") eqn:Hdir; [discriminate|].
  destruct (mapM (view.output F d0) _) as [outs|] eqn:Eo; [|discriminate].
  destruct (mapM (view.inputDrv d0) _) as [ins|] eqn:Ei; [|discriminate].
  destruct (mapM (view.inputSrc d0) _) as [srcs|] eqn:Es; [|discriminate].
  simpl. intros [= <-]. simpl in *.
  pose proof (view_outputs_names F d0 _ _ Eo) as Hnames.
  pose proof (view_inputDrvs d0 _ _ Ei) as [Hins _].
  pose proof (view_inputSrcs d0 _ _ Es) as [Hsrcs _].
  assert (EI : InputDerivations d' = InputDerivations d0).
  { apply map_from_keys.
    - intros n Hn'. rewrite Forall_forall in I2.
      specialize (I2 (n, default sortedset.empty (InputDerivations d0 !! n))).
      destruct I2 as [_ I2].
      { apply list_elem_of_In. rewrite Hins.
        apply (in_map (fun p => (p, default sortedset.empty (InputDerivations d0 !! p)))).
        exact Hn'. }
      simpl in I2. unfold storepath.Path in *. rewrite I2.
      apply sortedKeys_In in Hn' as [ns Hns]. rewrite Hns. simpl.
      now rewrite (of_list_sorted _ (S2 _ _ Hns)).
    - intros n Hn'. apply I1. rewrite Hins, map_map. simpl. now rewrite map_id. }
  assert (EV : Env d' = Env d0).
  { apply map_from_keys.
    - intros n Hn'. rewrite Forall_forall in V2.
      specialize (V2 (view.envEntry d0 n)
                     (proj2 (list_elem_of_In _ _) (in_map _ _ _ Hn'))).
      simpl in V2. rewrite V2.
      apply sortedKeys_In in Hn' as [v Hv]. now rewrite Hv.
    - intros n Hn'. apply V1. rewrite map_map. simpl. now rewrite map_id. }
  assert (ES : InputSources d' = InputSources d0).
  { rewrite Q1, Hsrcs. now apply of_list_sorted. }
  assert (EK : sortedKeys (Outputs d') = sortedKeys (Outputs d0)).
  { apply sortedKeys_ext. intros k. rewrite <- (sortedKeys_In (Outputs d0)), <- Hnames.
    split.
    - intros Hs.
      destruct (in_dec String.string_dec k (map grammar.oName outs)) as [H|H];
        [exact H|]. rewrite (O1 k H) in Hs. now destruct Hs.
    - intros Hk. apply in_map_iff in Hk as (g & <- & Hg).
      rewrite Forall_forall in O2.
      destruct (O2 g (proj2 (list_elem_of_In _ _) Hg)) as (o & _ & L).
      now exists o. }
  assert (EO : mapM (view.output F d') (sortedKeys (Outputs d0)) = Some outs).
  { apply mapM_Some. apply mapM_Some in Eo.
    eapply Forall2_impl_In; [exact Eo|]. intros k g _ Hg Hv. simpl in Hv |- *.
    rewrite Forall_forall in O2.
    destruct (O2 g (proj2 (list_elem_of_In _ _) Hg)) as (o & E & L).
    pose proof (view_output_name F d0 _ _ Hv) as Hk. rewrite Hk in E, L.
    unfold view.output in *. rewrite L, D1, D2. simpl.
    exact (proj2 (output_of_elab F _ _ _ _ _ _ _ Hv E)). }
  unfold view.tree. rewrite D1, D2, Hn, Hdir, EK, EO, EI, ES, D3, D4, D5, EV.
  unfold view.inputDrv, view.inputSrc, view.envEntry in *.
  rewrite D1, EI, EV, Ei, Es. reflexivity.
Qed.

End RoundTrip.

(** ** The ATerm round trip *)

Section RoundTripText.

Import zbstore.

Variable F :
  storepath.Directory -> string -> nix.ContentAddress -> References ->
  result storepath.Path.

(** A text that [MarshalText] has written is the text of the tree of the
    derivation. *)
Lemma MarshalText_tree (d : Derivation) (x : string) :
  MarshalText F d = inr x <->
  exists t, view.tree F d = Some t /\ x = grammar.print t.
Proof.
  pose proof (MarshalText_view F d) as H. unfold view.agrees in H.
  destruct (view.tree F d) as [t|]; simpl in H.
  - rewrite H. split.
    + intros [= <-]. now exists t.
    + intros (t' & [= <-] & ->). reflexivity.
  - split.
    + intros E. rewrite E in H. discriminate H.
    + intros (t' & E & _). discriminate E.
Qed.

(** The parser on the text of a tree, with nothing after it. *)
Lemma ParseDerivation_print (dir name : string) (t : grammar.Derive) :
  ParseDerivation dir name (grammar.print t) = elab.derive dir name t.
Proof.
  rewrite <- (str_app_nil_r (grammar.print t)) at 1.
  rewrite ParseDerivation_text. unfold elab.derive_then. simpl.
  now destruct (elab.derive dir name t).
Qed.

End RoundTripText.

(** C2, amended.  Whatever [FixedCAOutputPath] computes: a derivation that
    the parser has returned for some text, and that [MarshalText] can write,
    is what the parser returns for the text written; and if the parser
    accepts the text that [MarshalText] has written for a derivation whose
    sorted sets are in order, [MarshalText] writes the derivation parsed as
    the same text, byte for byte. *)
Theorem aterm_round_trip
    (F : storepath.Directory -> string -> nix.ContentAddress -> zbstore.References ->
         result storepath.Path) :
  (forall (dir name data : string) (d : zbstore.Derivation) (x : string),
     zbstore.ParseDerivation dir name data = inr d ->
     zbstore.MarshalText F d = inr x ->
     zbstore.ParseDerivation dir name x = inr d) /\
  (forall (d0 d' : zbstore.Derivation) (x : string),
     zbstore.Derivation_ok d0 = true ->
     zbstore.MarshalText F d0 = inr x ->
     zbstore.ParseDerivation (zbstore.Dir d0) (zbstore.Name d0) x = inr d' ->
     zbstore.MarshalText F d' = inr x).
Proof.
  split.
  - intros dir name data d x Hp Hm.
    apply ParseDerivation_inv in Hp as [t0 Ht0].
    pose proof (elab_derive_canonical _ _ _ _ Ht0) as Hc.
    apply elab_derive_inv in Ht0 as ((<- & <- & _) & _).
    apply MarshalText_tree in Hm as (t & Ht & ->).
    rewrite ParseDerivation_print. now apply (tree_derive F).
  - intros d0 d' x Hok Hm Hp.
    apply MarshalText_tree in Hm as (t & Ht & ->).
    rewrite ParseDerivation_print in Hp.
    apply MarshalText_tree. exists t. split; [|reflexivity].
    now apply (derive_tree F d0).
Qed.

Lemma aterm_round_trip_witness :
  zbstore.ParseDerivation "/zb/store" "hello" cases.sorted = inr cases.parsed /\
  zbstore.MarshalText example.sourcePath example.drv = inr example.text.
Proof.
  split.
  - refine (proj1 (aterm_round_trip example.sourcePath)
              "/zb/store" "hello" cases.unsorted cases.parsed cases.sorted _ _).
    + vm_compute. reflexivity.
    + vm_compute. reflexivity.
  - refine (proj2 (aterm_round_trip example.sourcePath)
              example.drv example.drv example.text _ _ _).
    + vm_compute. reflexivity.
    + vm_compute. reflexivity.
    + vm_compute. reflexivity.
Defined.

(** C2, as the specification has it, fails on both sides.  The parser
    accepts a text with an input source of another store directory, and
    [MarshalText] refuses the derivation parsed; [MarshalText] writes a
    derivation with a nil output, and the parser refuses the text. *)
Lemma round_trip_partial :
  (zbstore.ParseDerivation "/zb/store" "hello" cases.foreign = inr cases.foreign_drv /\
   is_ok (zbstore.MarshalText example.sourcePath cases.foreign_drv) = false) /\
  (zbstore.MarshalText example.sourcePath cases.nil_drv = inr cases.nil_text /\
   is_ok (zbstore.ParseDerivation "/zb/store" "hello" cases.nil_text) = false).
Proof.
  split; split; vm_compute; reflexivity.
Qed.

(** ** The parser never runs out of steps *)

Section Progress.

Import aterm zbstore progress.

Lemma exhausted_wrap (format : string) (fargs : list fmt_arg) (e : failure) :
  exhausted (Errorf format fargs) = false ->
  exhausted e = false ->
  exhausted (Errorf format (fargs ++ [fErr e])) = false.
Proof.
  simpl. induction fargs as [|a l IH]; simpl.
  - intros _ ->. reflexivity.
  - intros H He. apply orb_false_iff in H as [-> H]. simpl. now apply IH.
Qed.

Lemma scan_string_length_le (n : nat) (inp v r : string) :
  (String.length inp <= n)%nat ->
  scan_string inp = inr (v, r) -> (String.length r < String.length inp)%nat.
Proof.
  revert inp v r. induction n as [|n IH]; intros inp v r Hn.
  - destruct inp; [discriminate|simpl in Hn; lia].
  - destruct inp as [|c rest]; [discriminate|]. simpl in Hn |- *.
    destruct (Ascii.eqb c dq); [intros [= _ <-]; lia|].
    destruct (Ascii.eqb c bs).
    + destruct rest as [|e rest']; [discriminate|]. simpl in Hn.
      destruct (scan_string rest') as [err|[v' r']] eqn:E; [discriminate|].
      intros [= _ <-]. apply IH in E; simpl in *; lia.
    + destruct (scan_string rest) as [err|[v' r']] eqn:E; [discriminate|].
      intros [= _ <-]. apply IH in E; simpl in *; lia.
Qed.

Lemma scan_string_length (inp v r : string) :
  scan_string inp = inr (v, r) -> (String.length r < String.length inp)%nat.
Proof. now apply (scan_string_length_le (String.length inp)). Qed.

Lemma scan_string_error_le (n : nat) (inp : string) (e : failure) :
  (String.length inp <= n)%nat ->
  scan_string inp = inl e -> exhausted e = false.
Proof.
  revert inp e. induction n as [|n IH]; intros inp e Hn.
  - destruct inp; [now intros [= <-]|simpl in Hn; lia].
  - destruct inp as [|c rest]; [now intros [= <-]|]. simpl in Hn |- *.
    destruct (Ascii.eqb c dq); [discriminate|].
    destruct (Ascii.eqb c bs).
    + destruct rest as [|x rest']; [now intros [= <-]|]. simpl in Hn.
      destruct (scan_string rest') as [err|[v' r']] eqn:E; [|discriminate].
      intros [= <-]. apply (IH rest'); [lia | exact E].
    + destruct (scan_string rest) as [err|[v' r']] eqn:E; [|discriminate].
      intros [= <-]. apply (IH rest); [lia | exact E].
Qed.

Lemma scan_string_error (inp : string) (e : failure) :
  scan_string inp = inl e -> exhausted e = false.
Proof. now apply (scan_string_error_le (String.length inp)). Qed.

Lemma token_at_length (c : ascii) (rest r : string) (t : Token) (a : bool) :
  token_at c rest = inr (t, r, a) -> (String.length r <= String.length rest)%nat.
Proof.
  unfold token_at.
  repeat (match goal with |- context [if ?b then _ else _] => destruct b end;
          [intros [= _ <- _]; lia|]).
  destruct (Ascii.eqb c dq); [|discriminate].
  destruct (scan_string rest) as [err|[v r']] eqn:E; [discriminate|].
  intros [= _ <- _]. apply scan_string_length in E. lia.
Qed.

Lemma token_at_error (c : ascii) (rest : string) (e : failure) :
  token_at c rest = inl e -> exhausted e = false.
Proof.
  unfold token_at.
  repeat (match goal with |- context [if ?b then _ else _] => destruct b end;
          [discriminate|]).
  destruct (Ascii.eqb c dq); [|now intros [= <-]].
  destruct (scan_string rest) as [err|[v r']] eqn:E; [|discriminate].
  intros [= <-]. now apply scan_string_error in E.
Qed.

Lemma scan_length (inp r : string) (after a : bool) (t : Token) :
  scan inp after = inr (t, r, a) -> (String.length r < String.length inp)%nat.
Proof.
  unfold scan. destruct inp as [|c rest]; [discriminate|].
  destruct (Ascii.eqb c ",").
  - destruct after; [|discriminate]. destruct rest as [|c' rest']; [discriminate|].
    destruct (starts_element c'); [|discriminate].
    intros H. apply token_at_length in H. simpl. lia.
  - destruct (after && starts_element c); [discriminate|].
    intros H. apply token_at_length in H. simpl. lia.
Qed.

Lemma scan_error (inp : string) (after : bool) (e : failure) :
  scan inp after = inl e -> exhausted e = false.
Proof.
  unfold scan. destruct inp as [|c rest]; [now intros [= <-]|].
  destruct (Ascii.eqb c ",").
  - destruct after; [|now intros [= <-]].
    destruct rest as [|c' rest']; [now intros [= <-]|].
    destruct (starts_element c'); [|now intros [= <-]].
    apply token_at_error.
  - destruct (after && starts_element c); [now intros [= <-]|].
    apply token_at_error.
Qed.

(** The rules of [good], one for every way in which the parser is put
    together. *)
Lemma good_bind {A B} (m : P A) (k : A -> P B) (s : Scanner)
    (Q : B -> Scanner -> Prop) :
  good m s (fun a s1 => good (k a) s1 Q) -> good (m ≫= k) s Q.
Proof.
  unfold good, mbind, P_bind, bindP. now destruct (m s) as [e|[a s1]].
Qed.

Lemma good_mono {A} (m : P A) (s : Scanner) (Q Q' : A -> Scanner -> Prop) :
  good m s Q -> (forall a s', Q a s' -> Q' a s') -> good m s Q'.
Proof.
  unfold good. destruct (m s) as [e|[a s1]]; [trivial|]. intros H HQ. now apply HQ.
Qed.

Lemma good_wrap {A} (format : string) (fargs : list fmt_arg) (m : P A) (s : Scanner)
    (Q : A -> Scanner -> Prop) :
  exhausted (Errorf format fargs) = false ->
  good m s Q -> good (wrapP format fargs m) s Q.
Proof.
  unfold good, wrapP. destruct (m s) as [e|[a s1]]; [|trivial].
  intros H He. now apply exhausted_wrap.
Qed.

Lemma good_ret {A} (a : A) (s : Scanner) (Q : A -> Scanner -> Prop) :
  Q a s -> good (retP a) s Q.
Proof. trivial. Qed.

Lemma good_raise {A} (e : failure) (s : Scanner) (Q : A -> Scanner -> Prop) :
  exhausted e = false -> good (raiseP e) s Q.
Proof. trivial. Qed.

Lemma good_lift {A} (r : result A) (s : Scanner) (Q : A -> Scanner -> Prop) :
  (forall e, r = inl e -> exhausted e = false) ->
  (forall a, r = inr a -> Q a s) ->
  good (liftP r) s Q.
Proof.
  unfold good, liftP. destruct r as [e|a]; intros He Ha; [now apply He | now apply Ha].
Qed.

Lemma good_check (tok : Token) (kind : TokenKind) (format : string)
    (fargs : list fmt_arg) (s : Scanner) (Q : unit -> Scanner -> Prop) :
  exhausted (Errorf format fargs) = false ->
  Q tt s -> good (check tok kind format fargs) s Q.
Proof.
  unfold good, check. intros H HQ. destruct (kind_eqb _ _); [exact HQ|].
  simpl in H |- *. induction fargs as [|a l IH]; [reflexivity|].
  simpl in H |- *. apply orb_false_iff in H as [-> H]. now apply IH.
Qed.

(** Reading a token uses up a step, and leaves no token pushed back. *)
Lemma good_read (s : Scanner) (Q : Token -> Scanner -> Prop) :
  (forall t s', (steps s' < steps s)%nat -> pending s' = None -> Q t s') ->
  good ReadToken s Q.
Proof.
  unfold good, ReadToken, aterm.ReadToken, steps, Len. intros HQ.
  destruct (pending s) as [t|] eqn:Hp.
  - apply HQ; simpl; [lia | reflexivity].
  - destruct (scan (input s) (afterValue s)) as [e|[[t r] a]] eqn:E.
    + now apply scan_error in E.
    + apply scan_length in E. apply HQ; simpl; [lia | reflexivity].
Qed.

(** Pushing the token back gives one step back. *)
Lemma good_unread (s : Scanner) (Q : unit -> Scanner -> Prop) :
  (forall s', (steps s' <= Len s + 1)%nat -> Q tt s') -> good UnreadToken s Q.
Proof.
  unfold good, UnreadToken, aterm.UnreadToken. intros HQ. apply HQ.
  unfold steps, Len. simpl. destruct (last s); lia.
Qed.

Lemma steps_fresh (s : Scanner) : pending s = None -> steps s = Len s.
Proof. unfold steps. intros ->. lia. Qed.

Ltac step :=
  lazymatch goal with
  | |- good (_ ≫= _) _ _ => apply good_bind
  | |- good (wrapP _ _ _) _ _ => apply good_wrap; [reflexivity|]
  | |- good ReadToken _ _ => apply good_read; intros ? ? ? ?
  | |- good UnreadToken _ _ => apply good_unread; intros ? ?
  | |- good (check _ _ _ _) _ _ => apply good_check; [reflexivity|]
  | |- good (retP _) _ _ => apply good_ret
  | |- good (raiseP _) _ _ => apply good_raise; reflexivity
  end.

Lemma parseHashAlgorithm_error (s : string) (m : contentAddressMethod) (e : failure) :
  parseHashAlgorithm s = (m, inl e) -> exhausted e = false.
Proof.
  unfold parseHashAlgorithm.
  destruct (bytes.CutPrefix s "r:"); [|destruct (bytes.CutPrefix s "text:")];
    destruct (nix.ParseHashType _); intros [= _ <-]; reflexivity.
Qed.

Lemma ParsePath_exhausted (s : string) (e : failure) :
  storepath.ParsePath s = inl e -> exhausted e = false.
Proof.
  unfold storepath.ParsePath. destruct (storepath.split_last s) as [[d b]|].
  - destruct (_ && _); [discriminate | now intros [= <-]].
  - now intros [= <-].
Qed.

Lemma parseDerivationOutput_good (s : Scanner) :
  good parseDerivationOutput s (fun _ s' => (steps s' < steps s)%nat).
Proof.
  unfold parseDerivationOutput. repeat step.
  destruct (parseHashAlgorithm _) as [m r] eqn:PH.
  step. step. apply good_lift.
  { intros e ->. now apply parseHashAlgorithm_error in PH. }
  intros a _. step. step. apply good_lift.
  { intros e. destruct (hex.DecodeString _); [discriminate | now intros [= <-]]. }
  intros bits _.
  destruct (_ && _); [step; lia|].
  destruct (negb (String.eqb _ _)); [|step].
  destruct (negb (_ =? _)%nat); [step|].
  destruct m; step; lia.
Qed.

Lemma parseStringList_loop_good {A} (fuel : nat) (f : string -> A -> result A)
    (acc : A) (s : Scanner) :
  (forall v a e, f v a = inl e -> exhausted e = false) ->
  (steps s < fuel)%nat ->
  good (parseStringList_loop fuel f acc) s (fun _ s' => (steps s' < steps s)%nat).
Proof.
  intros Hf. revert acc s. induction fuel as [|fuel IH]; intros acc s Hs; [lia|].
  cbn [parseStringList_loop]. step. step. destruct (Kind t); try step.
  - apply good_lift; [intros e; apply Hf|]. intros acc' _.
    eapply good_mono; [apply IH; lia|]. simpl. intros; lia.
  - lia.
Qed.

Lemma parseStringList_good {A} (fuel : nat) (f : string -> A -> result A)
    (acc : A) (s : Scanner) :
  (forall v a e, f v a = inl e -> exhausted e = false) ->
  (steps s < fuel)%nat ->
  good (parseStringList fuel f acc) s (fun _ s' => (steps s' < steps s)%nat).
Proof.
  intros Hf Hs. unfold parseStringList. repeat step.
  eapply good_mono; [apply parseStringList_loop_good; [exact Hf | lia]|].
  simpl. intros; lia.
Qed.

Lemma parseInputDerivation_good (fuel : nat) (s : Scanner) :
  (steps s < fuel)%nat ->
  good (parseInputDerivation fuel) s (fun _ s' => (steps s' < steps s)%nat).
Proof.
  intros Hs. unfold parseInputDerivation. repeat step.
  eapply good_mono; [apply parseStringList_good; [discriminate | lia]|].
  simpl. intros names sn Hn. repeat step.
  apply good_lift; [apply ParsePath_exhausted|]. intros p _. step. lia.
Qed.

Lemma parseOutputs_good (fuel : nat) (drv : Derivation) (s : Scanner) :
  (steps s < fuel)%nat ->
  good (parseOutputs fuel drv) s (fun _ s' => (steps s' < steps s)%nat).
Proof.
  revert drv s. induction fuel as [|fuel IH]; intros drv s Hs; [lia|].
  cbn [parseOutputs]. step. step.
  destruct (kind_eqb _ _); [step; lia|].
  step. step. rewrite <- (steps_fresh _ H0) in H1. step. step.
  eapply good_mono; [apply parseDerivationOutput_good|].
  simpl. intros [n o] s2 H2.
  destruct (Outputs drv !! n); [step|].
  eapply good_mono; [apply IH; lia|]. simpl. intros; lia.
Qed.

Lemma parseInputDerivations_good (fuel0 fuel : nat) (drv : Derivation) (s : Scanner) :
  (steps s < fuel0)%nat ->
  (steps s < fuel)%nat ->
  good (parseInputDerivations fuel0 fuel drv) s (fun _ s' => (steps s' < steps s)%nat).
Proof.
  intros Hs0. revert drv s Hs0.
  induction fuel as [|fuel IH]; intros drv s Hs0 Hs; [lia|].
  cbn [parseInputDerivations]. step. step.
  destruct (kind_eqb _ _); [step; lia|].
  step. step. rewrite <- (steps_fresh _ H0) in H1. step. step.
  eapply good_mono; [apply parseInputDerivation_good; lia|].
  simpl. intros [p ns] s2 H2.
  destruct (negb _); [step|].
  destruct (_ !! _); [step|].
  eapply good_mono; [apply IH; lia|]. simpl. intros; lia.
Qed.

Lemma parseEnv_loop_good (fuel : nat) (drv : Derivation) (s : Scanner) :
  (steps s < fuel)%nat ->
  good (parseEnv_loop fuel drv) s (fun _ s' => (steps s' < steps s)%nat).
Proof.
  revert drv s. induction fuel as [|fuel IH]; intros drv s Hs; [lia|].
  cbn [parseEnv_loop]. step. step.
  destruct (Kind t); try step; [|lia].
  repeat step.
  destruct (Env drv !! _); [step|]. repeat step.
  eapply good_mono; [apply IH; lia|]. simpl. intros; lia.
Qed.

Lemma parseEnv_good (fuel : nat) (drv : Derivation) (s : Scanner) :
  (steps s < fuel)%nat ->
  good (parseEnv fuel drv) s (fun _ s' => (steps s' < steps s)%nat).
Proof.
  intros Hs. unfold parseEnv. repeat step.
  eapply good_mono; [apply parseEnv_loop_good; lia|]. simpl. intros; lia.
Qed.

Lemma parseTuple_good (fuel : nat) (drv : Derivation) (s : Scanner) :
  (steps s < fuel)%nat ->
  good (parseTuple fuel drv) s (fun _ _ => True).
Proof.
  intros Hs. unfold parseTuple. repeat step.
  eapply good_mono; [apply parseOutputs_good; lia|]. simpl. intros d1 s1 L1.
  repeat step.
  eapply good_mono; [apply parseInputDerivations_good; lia|]. simpl. intros d2 s2 L2.
  repeat step.
  eapply good_mono;
    [apply parseStringList_good; [intros v a e; unfold addInputSource;
       destruct (storepath.ParsePath v) eqn:E; [|discriminate]; intros [= <-];
       now apply ParsePath_exhausted in E | lia]|].
  simpl. intros srcs s3 L3. repeat step.
  eapply good_mono; [apply parseStringList_good; [discriminate | lia]|].
  simpl. intros args s4 L4. step.
  eapply good_mono; [apply parseEnv_good; simpl; lia|]. simpl. intros d3 s5 L5.
  repeat step. exact I.
Qed.

(** Whatever the input, [ParseDerivation] returns a derivation or an
    error of the code: the step count of the model is never what stops it. *)
Lemma ParseDerivation_total (dir name data : string) (e : failure) :
  ParseDerivation dir name data = inl e -> exhausted e = false.
Proof.
  unfold ParseDerivation.
  destruct (bytes.CutPrefix data "Derive") as [rest|]; [|now intros [= <-]].
  pose proof (parseTuple_good (2 + String.length rest)
                (mkDerivation dir name "" "" [] ∅ sortedset.empty ∅ ∅)
                (NewScanner rest)) as H.
  unfold good in H.
  destruct (parseTuple _ _ _) as [e'|[d r]].
  - intros [= <-]. apply H. unfold steps, Len. simpl. lia.
  - destruct (0 <? Len r)%nat; [now intros [= <-] | discriminate].
Qed.

End Progress.

(** ** The collation of paths *)

Section Collation.

Import collation.

Variable Clean : string -> string.
Variable sep : ascii -> bool.

Lemma collate_range (a b : string) :
  collate sep a b = -1 \/ collate sep a b = 0 \/ collate sep a b = 1.
Proof.
  revert b. induction a as [|x a IH]; intros [|y b]; simpl; auto.
  destruct (sep x), (sep y); simpl; auto.
  destruct (Ascii.eqb x y); simpl; auto.
  destruct (_ <? _)%nat; auto.
Qed.

Lemma collate_flip (a b : string) : collate sep b a = - collate sep a b.
Proof.
  revert b. induction a as [|x a IH]; intros [|y b]; simpl; try reflexivity.
  destruct (sep x) eqn:Sx, (sep y) eqn:Sy; simpl; try reflexivity; try apply IH.
  rewrite (Ascii.eqb_sym y x).
  destruct (Ascii.eqb x y) eqn:E; simpl; [apply IH|].
  apply Ascii.eqb_neq in E.
  assert (nat_of_ascii x <> nat_of_ascii y).
  { intros H. apply E. rewrite <- (ascii_nat_embedding x), <- (ascii_nat_embedding y).
    now rewrite H. }
  destruct (nat_of_ascii y <? nat_of_ascii x)%nat eqn:L1,
           (nat_of_ascii x <? nat_of_ascii y)%nat eqn:L2; try reflexivity;
    [apply Nat.ltb_lt in L1, L2 | apply Nat.ltb_ge in L1, L2]; lia.
Qed.

Lemma collate_zero (a b : string) :
  collate sep a b = 0 <-> alike_all sep a b = true.
Proof.
  revert b. induction a as [|x a IH]; intros [|y b]; simpl; try easy.
  unfold alike.
  destruct (sep x), (sep y); simpl; try easy; try apply IH.
  destruct (Ascii.eqb x y); simpl; [apply IH|].
  destruct (_ <? _)%nat; easy.
Qed.

(** The key by which [collate] orders the bytes: a separator before
    every other byte, the others by their value. *)
Lemma collate_trans (a b c : string) :
  collate sep a b <= 0 -> collate sep b c <= 0 -> collate sep a c <= 0.
Proof.
  revert b c. induction a as [|x a IH]; intros [|y b] [|z c]; simpl; try lia.
  destruct (sep x) eqn:Sx, (sep y) eqn:Sy, (sep z) eqn:Sz; simpl; try lia;
    try apply IH.
  destruct (Ascii.eqb x y) eqn:Exy; simpl.
  - apply Ascii.eqb_eq in Exy. subst y.
    destruct (Ascii.eqb x z) eqn:Exz; simpl; [apply IH|].
    destruct (_ <? _)%nat; lia.
  - destruct (nat_of_ascii x <? nat_of_ascii y)%nat eqn:Lxy; [|lia]. intros _.
    apply Nat.ltb_lt in Lxy.
    destruct (Ascii.eqb y z) eqn:Eyz; simpl.
    + apply Ascii.eqb_eq in Eyz. subst z. rewrite Exy. simpl.
      apply Nat.ltb_lt in Lxy. rewrite Lxy. lia.
    + destruct (nat_of_ascii y <? nat_of_ascii z)%nat eqn:Lyz; [|lia]. intros _.
      apply Nat.ltb_lt in Lyz.
      destruct (Ascii.eqb x z) eqn:Exz; simpl.
      * apply Ascii.eqb_eq in Exz. subst z. lia.
      * assert ((nat_of_ascii x <? nat_of_ascii z)%nat = true) as ->
          by (apply Nat.ltb_lt; lia). lia.
Qed.

Lemma collate_strict_trans (a b c : string) :
  collate sep a b = -1 -> collate sep b c = -1 -> collate sep a c = -1.
Proof.
  intros Hab Hbc.
  assert (H : collate sep a c <= 0) by (apply (collate_trans a b c); lia).
  destruct (collate_range a c) as [E|[E|E]]; [exact E| |lia].
  exfalso.
  assert (Hca : collate sep c a <= 0) by (rewrite collate_flip; lia).
  pose proof (collate_trans c a b Hca ltac:(lia)) as Hcb.
  rewrite collate_flip in Hcb. lia.
Qed.

Lemma collate_common_prefix (p u v : string) :
  collate sep (p +:+ u) (p +:+ v) = collate sep u v.
Proof.
  induction p as [|x p IH]; [reflexivity|].
  rewrite !str_app_cons. simpl.
  destruct (sep x); simpl; [exact IH|]. now rewrite Ascii.eqb_refl.
Qed.

Lemma collate_extension (a : string) (x : ascii) (u : string) :
  collate sep a (a +:+ String x u) = -1.
Proof.
  rewrite <- (str_app_nil_r a) at 1. rewrite collate_common_prefix. reflexivity.
Qed.

End Collation.

(** X1. [collatePath] is a comparison: it returns -1, 0 or 1, and with
    its arguments exchanged it returns the opposite. *)
Theorem collatePath_antisymmetric
    (Clean : string -> string) (IsPathSeparator : ascii -> bool) (a b : string) :
  (collation.collatePath Clean IsPathSeparator a b = -1 \/
   collation.collatePath Clean IsPathSeparator a b = 0 \/
   collation.collatePath Clean IsPathSeparator a b = 1) /\
  collation.collatePath Clean IsPathSeparator b a
  = - collation.collatePath Clean IsPathSeparator a b.
Proof.
  unfold collation.collatePath. split; [apply collate_range | apply collate_flip].
Qed.

(** X2. [collatePath] orders the paths: when [a] is not after [b] and [b]
    is not after [c], [a] is not after [c]; and when [a] is before [b]
    and [b] before [c], [a] is before [c]. *)
Theorem collatePath_transitive
    (Clean : string -> string) (IsPathSeparator : ascii -> bool) (a b c : string) :
  (collation.collatePath Clean IsPathSeparator a b <= 0 ->
   collation.collatePath Clean IsPathSeparator b c <= 0 ->
   collation.collatePath Clean IsPathSeparator a c <= 0) /\
  (collation.collatePath Clean IsPathSeparator a b = -1 ->
   collation.collatePath Clean IsPathSeparator b c = -1 ->
   collation.collatePath Clean IsPathSeparator a c = -1).
Proof.
  unfold collation.collatePath. split;
    [apply collate_trans | apply collate_strict_trans].
Qed.

Lemma collatePath_transitive_witness :
  collation.collatePath (fun p => p) collation.unix_separator "/a" "/a.txt" <= 0 /\
  collation.collatePath (fun p => p) collation.unix_separator "/a/b" "/a.txt" = -1.
Proof.
  split.
  - refine (proj1 (collatePath_transitive (fun p => p) collation.unix_separator
                     "/a" "/a/b" "/a.txt") _ _); vm_compute; discriminate.
  - refine (proj2 (collatePath_transitive (fun p => p) collation.unix_separator
                     "/a/b" "/a/b/c" "/a.txt") _ _); vm_compute; reflexivity.
Defined.

(** X3. [collatePath] returns 0 exactly for the paths whose cleaned forms
    have the same length and, byte for byte, two separators or the same
    byte; where the slash is the only separator, exactly for the paths with
    the same cleaned form. *)
Theorem collatePath_zero
    (Clean : string -> string) (IsPathSeparator : ascii -> bool) (a b : string) :
  (collation.collatePath Clean IsPathSeparator a b = 0 <->
   collation.alike_all IsPathSeparator (Clean a) (Clean b) = true) /\
  (collation.collatePath Clean collation.unix_separator a b = 0 <->
   Clean a = Clean b).
Proof.
  unfold collation.collatePath. split; [apply collate_zero|].
  rewrite collate_zero. generalize (Clean a) (Clean b). clear a b.
  intros a. induction a as [|x a IH]; intros [|y b]; simpl; try easy.
  unfold collation.alike, collation.unix_separator.
  destruct (Ascii.eqb x "/") eqn:Ex, (Ascii.eqb y "/") eqn:Ey; simpl.
  - apply Ascii.eqb_eq in Ex, Ey. subst. rewrite IH. split; [now intros ->|now intros [= ->]].
  - split; [discriminate|]. intros [= -> _]. congruence.
  - split; [discriminate|]. intros [= -> _]. congruence.
  - destruct (Ascii.eqb x y) eqn:E; simpl.
    + apply Ascii.eqb_eq in E. subst. rewrite IH.
      split; [now intros ->|now intros [= ->]].
    + split; [discriminate|]. intros [= -> _]. now rewrite Ascii.eqb_refl in E.
Qed.

(** X4. [collatePath] puts a path before every path that continues its
    cleaned form, and what lies below a directory before the paths that
    continue the name of the directory by a byte that is no separator:
    a separator sorts before every other byte. *)
Theorem collatePath_children_first
    (Clean : string -> string) (IsPathSeparator : ascii -> bool)
    (a b p : string) (s c : ascii) (x y : string) :
  (Clean b = Clean a +:+ String c y ->
   collation.collatePath Clean IsPathSeparator a b = -1) /\
  (Clean a = p +:+ String s x -> Clean b = p +:+ String c y ->
   IsPathSeparator s = true -> IsPathSeparator c = false ->
   collation.collatePath Clean IsPathSeparator a b = -1).
Proof.
  unfold collation.collatePath. split.
  - intros ->. apply collate_extension.
  - intros -> -> Hs Hc. rewrite collate_common_prefix. simpl. now rewrite Hs, Hc.
Qed.

Lemma collatePath_children_first_witness :
  collation.collatePath (fun q => q) collation.unix_separator "/src" "/src/a" = -1 /\
  collation.collatePath (fun q => q) collation.unix_separator "/src/a" "/src-old" = -1.
Proof.
  split.
  - refine (proj1 (collatePath_children_first (fun q => q) collation.unix_separator
                     "/src" "/src/a" "" "/" "/" "" "a") _). reflexivity.
  - refine (proj2 (collatePath_children_first (fun q => q) collation.unix_separator
                     "/src/a" "/src-old" "/src" "/" "-" "a" "old") _ _ _ _);
      reflexivity.
Defined.

(** ** Reading a slice full *)

Section ByteReader.

Import bytereader.

Variable R : Type.
Variable ReadByte : R -> (ascii * option io_error) * R.

Lemma fill_contract (r : R) (done todo : list ascii) (i : nat) :
  i = length done ->
  let o := fst (fill R ReadByte r done todo i) in
  length (slice o) = (length done + length todo)%nat /\
  (i <= count o <= length done + length todo)%nat /\
  (err o = None <-> count o = (length done + length todo)%nat) /\
  firstn (length done) (slice o) = done /\
  skipn (S (count o)) (slice o) = skipn (S (count o) - length done) todo /\
  (err o = Some EOF -> count o = 0%nat).
Proof.
  revert r done i. induction todo as [|b todo IH]; intros r done i Hi; simpl.
  - rewrite Nat.add_0_r, firstn_all, skipn_all2 by lia.
    repeat split; try lia; try reflexivity; try discriminate.
    now destruct (S i - length done)%nat.
  - destruct (ReadByte r) as [[c [e|]] r'] eqn:E; simpl.
    + rewrite length_app. simpl.
      rewrite firstn_app, firstn_all, Nat.sub_diag. simpl. rewrite app_nil_r.
      repeat split; try lia; try discriminate.
      * subst i. rewrite skipn_app, skipn_all2 by lia. simpl.
        replace (S (length done) - length done)%nat with 1%nat by lia. reflexivity.
      * destruct i; [reflexivity|]. simpl. destruct e; simpl; discriminate.
    + specialize (IH r' (done ++ [c]) (S i)).
      rewrite length_app in IH. simpl in IH.
      destruct (IH ltac:(lia)) as (H1 & H2 & H3 & H4 & H5 & H6).
      set (o := fst (fill R ReadByte r' (done ++ [c]) todo (S i))) in *.
      repeat split; try lia.
      * intros H. apply H3 in H. lia.
      * intros H. apply H3. lia.
      * replace (firstn (length done) (slice o))
          with (firstn (length done) (firstn (length done + 1) (slice o)))
          by (rewrite firstn_firstn; f_equal; lia).
        rewrite H4. rewrite firstn_app, firstn_all, Nat.sub_diag. simpl.
        apply app_nil_r.
      * rewrite H5.
        replace (S (count o) - length done)%nat
          with (S (S (count o) - (length done + 1)))%nat by lia.
        reflexivity.
      * intros H. apply H6 in H. lia.
Qed.

Lemma fill_read_bytes (r r' : R) (done todo l : list ascii) (i : nat) :
  read_bytes R ReadByte r (length todo) = Some (l, r') ->
  fill R ReadByte r done todo i
  = (mkOutcome (done ++ l) (i + length todo) None, r').
Proof.
  revert r done l i. induction todo as [|b todo IH]; intros r done l i; simpl.
  - intros [= <- <-]. now rewrite app_nil_r, Nat.add_0_r.
  - destruct (ReadByte r) as [[c [e|]] r1]; [discriminate|].
    destruct (read_bytes R ReadByte r1 (length todo)) as [[l1 r2]|] eqn:E;
      [|discriminate].
    intros [= <- <-]. rewrite (IH _ _ _ _ E), <- app_assoc. simpl.
    now rewrite Nat.add_succ_r.
Qed.

Lemma fill_read_error (r r1 r2 : R) (done todo l : list ascii) (i k : nat)
    (c : ascii) (e : io_error) :
  read_bytes R ReadByte r k = Some (l, r1) ->
  (k < length todo)%nat ->
  ReadByte r1 = ((c, Some e), r2) ->
  fill R ReadByte r done todo i
  = (mkOutcome (done ++ l ++ c :: skipn (S k) todo) (i + k)
       (Some (if (0 <? i + k)%nat && is_EOF e then ErrUnexpectedEOF else e)), r2).
Proof.
  revert r done todo l i. induction k as [|k IH]; intros r done todo l i; simpl.
  - intros [= <- <-] Hk Hr. destruct todo as [|b todo]; [simpl in Hk; lia|].
    simpl. rewrite Hr, Nat.add_0_r. reflexivity.
  - destruct (ReadByte r) as [[c1 [e1|]] r'] eqn:E; [discriminate|].
    destruct (read_bytes R ReadByte r' k) as [[l1 r'']|] eqn:E1; [|discriminate].
    intros [= <- <-] Hk Hr. destruct todo as [|b todo]; [simpl in Hk; lia|].
    simpl in Hk |- *. rewrite E.
    assert (Hk' : (k < length todo)%nat) by lia.
    rewrite (IH r' (done ++ [c1]) todo l1 (S i) E1 Hk' Hr), <- app_assoc, Nat.add_succ_r.
    reflexivity.
Qed.

End ByteReader.

(** X5. On a reader that is no [io.Reader], [byteReaderReadFull] keeps the
    contract of [io.ReadFull]: the count is at most [len(p)] and equals it
    exactly when there is no error; the error is [io.EOF] only when no byte
    was read; the bytes of [p] after the one at the count are untouched;
    and with an empty [p] nothing is read. *)
Theorem byteReaderReadFull_contract
    (R : Type) (ReadByte : R -> (ascii * option bytereader.io_error) * R)
    (r : R) (p : list ascii) :
  let o := fst (bytereader.byteReaderReadFull R ReadByte None r p) in
  length (bytereader.slice o) = length p /\
  (bytereader.count o <= length p)%nat /\
  (bytereader.err o = None <-> bytereader.count o = length p) /\
  (bytereader.err o = Some bytereader.EOF -> bytereader.count o = 0%nat) /\
  skipn (S (bytereader.count o)) (bytereader.slice o)
  = skipn (S (bytereader.count o)) p /\
  bytereader.byteReaderReadFull R ReadByte None r []
  = (bytereader.mkOutcome [] 0 None, r).
Proof.
  unfold bytereader.byteReaderReadFull.
  destruct (fill_contract R ReadByte r [] p 0 eq_refl) as (H1 & H2 & H3 & _ & H5 & H6).
  simpl in *. repeat split; try tauto; try lia.
Qed.

(** X6. When the reader delivers [len(p)] bytes, [byteReaderReadFull]
    returns [len(p)] and no error, [p] holds these bytes in their order and
    the reader is left behind them.  When it fails after [k < len(p)] bytes,
    the count is [k], the error is the one of the reader, but
    [io.ErrUnexpectedEOF] for an [io.EOF] after the first byte, and [p]
    holds the [k] bytes, the byte returned with the error, and its old bytes
    after that. *)
Theorem byteReaderReadFull_reads
    (R : Type) (ReadByte : R -> (ascii * option bytereader.io_error) * R)
    (r r1 r2 : R) (p l : list ascii) (k : nat) (c : ascii)
    (e : bytereader.io_error) :
  (bytereader.read_bytes R ReadByte r (length p) = Some (l, r1) ->
   bytereader.byteReaderReadFull R ReadByte None r p
   = (bytereader.mkOutcome l (length p) None, r1)) /\
  (bytereader.read_bytes R ReadByte r k = Some (l, r1) ->
   (k < length p)%nat ->
   ReadByte r1 = ((c, Some e), r2) ->
   bytereader.byteReaderReadFull R ReadByte None r p
   = (bytereader.mkOutcome (l ++ c :: skipn (S k) p) k
        (Some (if (0 <? k)%nat && bytereader.is_EOF e
               then bytereader.ErrUnexpectedEOF else e)), r2)).
Proof.
  unfold bytereader.byteReaderReadFull. split.
  - intros H. now rewrite (fill_read_bytes R ReadByte _ _ [] _ _ 0 H).
  - intros H Hk Hr. now rewrite (fill_read_error R ReadByte _ _ _ [] _ _ 0 _ _ _ H Hk Hr).
Qed.

Lemma byteReaderReadFull_reads_witness :
  bytereader.byteReaderReadFull string bytereader.from_string None "abc"
    ["x"; "y"]%char
  = (bytereader.mkOutcome ["a"; "b"]%char 2 None, "c"%string) /\
  bytereader.byteReaderReadFull string bytereader.from_string None "a"
    ["x"; "y"; "z"]%char
  = (bytereader.mkOutcome ["a"; "000"; "z"]%char 1
       (Some bytereader.ErrUnexpectedEOF), ""%string).
Proof.
  split.
  - refine (proj1 (byteReaderReadFull_reads string bytereader.from_string
                     "abc" "c" "" ["x"; "y"]%char ["a"; "b"]%char 0 "000"%char
                     bytereader.EOF) _).
    reflexivity.
  - refine (proj2 (byteReaderReadFull_reads string bytereader.from_string
                     "a" "" "" ["x"; "y"; "z"]%char ["a"]%char 1 "000"%char
                     bytereader.EOF) _ _ _).
    + reflexivity.
    + simpl. lia.
    + reflexivity.
Defined.

(** ** References and export *)

Section ExportFacts.

Import zbstore export.

Lemma References_in_Others (order : list string) (d : Derivation) :
  sortedset.ok (Others (References_in order d)) /\
  forall x, In x (Others (References_in order d))
            <-> In x (InputSources d) \/ In x order.
Proof.
  unfold References_in, sortedset.AddSet. simpl. split.
  - apply fold_Add_ok, fold_Add_ok. constructor.
  - intros x. rewrite !fold_Add_In. simpl. tauto.
Qed.

Lemma References_in_order (order order' : list string) (d : Derivation) :
  (forall k, In k order <-> In k order') ->
  References_in order d = References_in order' d.
Proof.
  intros H.
  destruct (References_in_Others order d) as [O1 I1].
  destruct (References_in_Others order' d) as [O2 I2].
  assert (E : Others (References_in order d) = Others (References_in order' d)).
  { apply ok_ext; [exact O1 | exact O2|]. intros x. rewrite I1, I2, H. tauto. }
  unfold References_in in *. simpl in *. now rewrite E.
Qed.

Lemma References_in_enumerates (order : list string) (d : Derivation) :
  enumerates order (InputDerivations d) ->
  References_in order d = Derivation_References d.
Proof.
  intros Hs. apply References_in_order. intros k.
  rewrite sortedKeys_In, <- (sortedKeys_In (InputDerivations d)), <- Hs.
  rewrite <- !list_elem_of_In. now rewrite merge_sort_Permutation.
Qed.

End ExportFacts.

(** X7. [Derivation.References] returns the input sources and the paths
    of the input derivations as one sorted set, without a self reference,
    and the same set in whatever order the map of the input derivations is
    ranged over. *)
Theorem Derivation_References_spec (order : list string) (d : zbstore.Derivation) :
  export.enumerates order (zbstore.InputDerivations d) ->
  zbstore.Self (export.References_in order d) = false /\
  sortedset.ok (zbstore.Others (export.References_in order d)) /\
  (forall x, In x (zbstore.Others (export.References_in order d))
             <-> In x (zbstore.InputSources d) \/
                 is_Some (zbstore.InputDerivations d !! x)) /\
  export.References_in order d = export.Derivation_References d.
Proof.
  intros Hs.
  assert (Hk : forall k, In k order <-> is_Some (zbstore.InputDerivations d !! k)).
  { intros k. rewrite <- sortedKeys_In, <- Hs, <- !list_elem_of_In.
    now rewrite merge_sort_Permutation. }
  destruct (References_in_Others order d) as [O I].
  split; [reflexivity|]. split; [exact O|]. split.
  - intros x. rewrite I, Hk. tauto.
  - apply References_in_order. intros k. now rewrite Hk, sortedKeys_In.
Qed.

Lemma Derivation_References_spec_witness :
  zbstore.Others
    (export.References_in ["/zb/store/00000000000000000000000000000000-a.drv"]
       example.drv)
  = zbstore.Others (export.Derivation_References example.drv).
Proof.
  refine (f_equal zbstore.Others
            (proj2 (proj2 (proj2 (Derivation_References_spec
               ["/zb/store/00000000000000000000000000000000-a.drv"]
               example.drv _))))).
  vm_compute. reflexivity.
Defined.

(** X8. [Export] returns data exactly when [MarshalText] succeeds, and
    then the bytes of [MarshalText], also when the path cannot be computed;
    the path is the one of [FixedCAOutputPath] for the name with [.drv], the
    text content address of the hash of these bytes and the references of
    the derivation, in whatever order the map is ranged over; and for a
    derivation that the parser has returned, the data parses to it. *)
Theorem Export_spec
    (F : storepath.Directory -> string -> nix.ContentAddress -> zbstore.References ->
         result storepath.Path)
    (Sum : nix.HashType -> string -> nix.Hash)
    (order : list string) (d : zbstore.Derivation) (hashType : nix.HashType) :
  export.enumerates order (zbstore.InputDerivations d) ->
  (forall x, zbstore.MarshalText F d = inr x ->
     export.Export F Sum order d hashType
     = match F (zbstore.Dir d) (zbstore.Name d +:+ ".drv")
               (nix.TextContentAddress (Sum hashType x))
               (export.Derivation_References d) with
       | inr p => (p, Some x, None)
       | inl e => (""%string, Some x, Some e)
       end) /\
  (is_ok (zbstore.MarshalText F d) = false ->
   exists e, export.Export F Sum order d hashType = (""%string, None, Some e)) /\
  (forall dir name data x,
     zbstore.ParseDerivation dir name data = inr d ->
     snd (fst (export.Export F Sum order d hashType)) = Some x ->
     zbstore.ParseDerivation dir name x = inr d).
Proof.
  intros Ho.
  pose proof (References_in_enumerates order d Ho) as ER.
  assert (H1 : forall x, zbstore.MarshalText F d = inr x ->
     export.Export F Sum order d hashType
     = match F (zbstore.Dir d) (zbstore.Name d +:+ ".drv")
               (nix.TextContentAddress (Sum hashType x))
               (export.Derivation_References d) with
       | inr p => (p, Some x, None)
       | inl e => (""%string, Some x, Some e)
       end).
  { unfold zbstore.MarshalText, export.Export. intros x Hx. rewrite Hx, ER.
    unfold zbstore.marshalText in Hx.
    destruct (String.eqb (zbstore.Name d) ""); [discriminate|].
    destruct (String.eqb (zbstore.Dir d) ""); [discriminate|].
    unfold zbstore.DerivationExt.
    now destruct (F _ _ _ _). }
  assert (H2 : is_ok (zbstore.MarshalText F d) = false ->
     exists e, export.Export F Sum order d hashType = (""%string, None, Some e)).
  { unfold zbstore.MarshalText, export.Export.
    destruct (String.eqb (zbstore.Name d) ""); [eauto|].
    destruct (String.eqb (zbstore.Dir d) ""); [eauto|].
    destruct (zbstore.marshalText F d false); [eauto|discriminate]. }
  split; [exact H1|]. split; [exact H2|].
  intros dir name data x Hp Hx.
  destruct (zbstore.MarshalText F d) as [e|y] eqn:Hm.
  - destruct (H2 eq_refl) as [e' He']. rewrite He' in Hx. discriminate.
  - rewrite (H1 y eq_refl) in Hx.
    assert (y = x) as -> by (destruct (F _ _ _ _); now injection Hx).
    apply ParseDerivation_inv in Hp as [t0 Ht0].
    pose proof (elab_derive_canonical _ _ _ _ Ht0) as Hc.
    apply elab_derive_inv in Ht0 as ((<- & <- & _) & _).
    apply MarshalText_tree in Hm as (t & Ht & ->).
    rewrite ParseDerivation_print. now apply (tree_derive F).
Qed.

Lemma Export_spec_witness :
  (exists p,
     export.Export example.sourcePath export.sha256_hasher
       ["/zb/store/00000000000000000000000000000000-a.drv"] cases.parsed nix.SHA256
     = (p, Some cases.sorted, None)) /\
  zbstore.ParseDerivation "/zb/store" "hello" cases.sorted = inr cases.parsed.
Proof.
  assert (Ho : export.enumerates
                 ["/zb/store/00000000000000000000000000000000-a.drv"]
                 (zbstore.InputDerivations cases.parsed))
    by (vm_compute; reflexivity).
  split.
  - rewrite (proj1 (Export_spec example.sourcePath export.sha256_hasher
                      ["/zb/store/00000000000000000000000000000000-a.drv"]
                      cases.parsed nix.SHA256 Ho) cases.sorted)
      by (vm_compute; reflexivity).
    eexists. vm_compute. reflexivity.
  - refine (proj2 (proj2 (Export_spec example.sourcePath export.sha256_hasher
                      ["/zb/store/00000000000000000000000000000000-a.drv"]
                      cases.parsed nix.SHA256 Ho))
              "/zb/store" "hello" cases.unsorted cases.sorted _ _);
      vm_compute; reflexivity.
Defined.

(** ** Marshalling with the outputs masked *)

Section Masked.

Import zbstore.

Variable F :
  storepath.Directory -> string -> nix.ContentAddress -> References ->
  result storepath.Path.
Variable d : Derivation.

Local Arguments aterm.quoted : simpl never.
Local Arguments grammar.items : simpl never.
Local Arguments DerivationOutput_Path : simpl never.

Lemma output_marshalText_masked_any
    (F' : storepath.Directory -> string -> nix.ContentAddress -> References ->
          result storepath.Path)
    (out : option DerivationOutput) (dst dir drvName n : string) :
  output_marshalText F out dst dir drvName n true
  = output_marshalText F' out dst dir drvName n true.
Proof.
  unfold output_marshalText. destruct out as [o|]; [|reflexivity].
  destruct (typ o); reflexivity.
Qed.

Lemma marshalOutputs_masked_any
    (F' : storepath.Directory -> string -> nix.ContentAddress -> References ->
          result storepath.Path)
    (keys : list string) (i : nat) (buf : string) :
  marshalOutputs F d true keys i buf = marshalOutputs F' d true keys i buf.
Proof.
  revert i buf. induction keys as [|n keys IH]; intros i buf; [reflexivity|].
  simpl. rewrite (output_marshalText_masked_any F').
  destruct (output_marshalText F' _ _ _ _ _ _); [reflexivity|apply IH].
Qed.

Lemma output_marshalText_masked (n : string) (dst : string) (g : grammar.Output) :
  view.output F d n = Some g ->
  output_marshalText F (default None (Outputs d !! n)) dst (Dir d) (Name d) n true
  = inr (dst +:+ grammar.print_output (masked.output g)).
Proof.
  unfold output_marshalText, view.output, view.output_of,
    aterm.AppendString, commaEmpty, masked.output.
  destruct (default None (Outputs d !! n)) as [o|]; simpl.
  - destruct (typ o); simpl; [discriminate| |].
    + destruct (DerivationOutput_Path F (Some o) (Dir d) (Name d) n) as [p [|]];
        simpl; [|discriminate].
      destruct (prefix (methodOfContentAddress (ca o))) as [e|pre]; simpl; [discriminate|].
      intros [= <-]. rewrite print_output_text. simpl. now rewrite !str_app_assoc.
    + destruct (prefix (method o)) as [e|pre]; simpl; [discriminate|].
      intros [= <-]. rewrite print_output_text. simpl. now rewrite !str_app_assoc.
  - intros [= <-]. rewrite print_output_text. simpl. now rewrite !str_app_assoc.
Qed.

Lemma marshalOutputs_masked (keys : list string) (outs : list grammar.Output) :
  mapM (view.output F d) keys = Some outs ->
  forall (i : nat) (buf : string),
    marshalOutputs F d true keys i buf
    = inr (buf +:+ grammar.items (0 <? i)%nat
                     (map grammar.print_output (map masked.output outs))).
Proof.
  revert outs. induction keys as [|n keys IH]; intros outs.
  - intros [= <-] i buf. simpl. now rewrite items_nil, str_app_nil_r.
  - simpl mapM. destruct (view.output F d n) as [g|] eqn:Eg; [|discriminate].
    destruct (mapM (view.output F d) keys) as [outs'|]; [|discriminate].
    simpl. intros [= <-] i buf.
    rewrite (output_marshalText_masked _ _ _ Eg).
    rewrite (IH outs' eq_refl). f_equal. apply sep_items.
Qed.

Lemma marshalText_masked_tree (t : grammar.Derive) :
  view.tree F d = Some t ->
  marshalText F d true = inr (grammar.print (masked.tree t)).
Proof.
  unfold marshalText, view.tree.
  destruct (String.eqb (Name d) ""); [discriminate|].
  destruct (String.eqb (Dir d) ""); [discriminate|].
  destruct (mapM (view.output F d) (sortedKeys (Outputs d))) as [outs|] eqn:Eo;
    [|discriminate].
  pose proof (marshalOutputs_masked _ _ Eo 0 ("" +:+ "Derive([")) as H1.
  rewrite H1. simpl.
  match goal with |- context [marshalInputDerivations d ?k 0 ?b] =>
    pose proof (marshalInputDerivations_view d k 0 b) as H2 end.
  unfold view.agrees in H2.
  destruct (mapM (view.inputDrv d) (sortedKeys (InputDerivations d))) as [ins|];
    simpl in H2 |- *; [|discriminate].
  rewrite H2. simpl.
  match goal with |- context [marshalInputSources d ?k 0 ?b] =>
    pose proof (marshalInputSources_view d b) as H3 end.
  unfold view.agrees in H3.
  destruct (mapM (view.inputSrc d) (InputSources d)) as [srcs|]; simpl in H3 |- *;
    [|discriminate].
  rewrite H3. simpl. intros [= <-].
  rewrite marshalArgs_view, marshalEnv_view. unfold aterm.AppendString.
  f_equal. rewrite print_text. simpl. rewrite !str_app_assoc. reflexivity.
Qed.

End Masked.

(** X9. With [maskOutputs] set, [marshalText] never computes an output
    path: it returns the same whatever [FixedCAOutputPath] is; and where
    [MarshalText] writes a text, it writes the same text with the path of
    every output left empty. *)
Theorem marshalText_masked
    (F F' : storepath.Directory -> string -> nix.ContentAddress -> zbstore.References ->
            result storepath.Path)
    (d : zbstore.Derivation) :
  zbstore.marshalText F d true = zbstore.marshalText F' d true /\
  (forall x, zbstore.MarshalText F d = inr x ->
     exists t, x = grammar.print t /\
               zbstore.marshalText F' d true = inr (grammar.print (masked.tree t))).
Proof.
  assert (E : zbstore.marshalText F d true = zbstore.marshalText F' d true).
  { unfold zbstore.marshalText.
    destruct (String.eqb (zbstore.Name d) ""); [reflexivity|].
    destruct (String.eqb (zbstore.Dir d) ""); [reflexivity|].
    now rewrite (marshalOutputs_masked_any F d F'). }
  split; [exact E|].
  intros x Hx. apply MarshalText_tree in Hx as (t & Ht & ->).
  exists t. split; [reflexivity|]. rewrite <- E. now apply marshalText_masked_tree.
Qed.

Lemma marshalText_masked_witness :
  exists t, example.text = grammar.print t /\
            zbstore.marshalText (fun _ _ _ _ => Fail (Panic "unused")) example.drv true
            = inr (grammar.print (masked.tree t)).
Proof.
  refine (proj2 (marshalText_masked example.sourcePath
                   (fun _ _ _ _ => Fail (Panic "unused")) example.drv)
            example.text _).
  vm_compute. reflexivity.
Defined.

(** ** When [MarshalText] succeeds *)

Section MarshalSucceeds.

Import zbstore.

Variable F :
  storepath.Directory -> string -> nix.ContentAddress -> References ->
  result storepath.Path.
Variable d : Derivation.

Local Arguments DerivationOutput_Path : simpl never.

Lemma prefix_methodOfContentAddress (c : nix.ContentAddress) :
  exists pre, prefix (methodOfContentAddress c) = inr pre.
Proof. destruct c; simpl; eauto. Qed.

Lemma view_output_is_Some (n : string) :
  is_Some (view.output F d n) <->
  match default None (Outputs d !! n) with
  | None => True
  | Some o =>
      match typ o with
      | fixedCAOutputType =>
          snd (DerivationOutput_Path F (Some o) (Dir d) (Name d) n) = true
      | floatingCAOutputType => method o <> unknownMethod
      | unknownOutputType => False
      end
  end.
Proof.
  unfold view.output, view.output_of.
  destruct (default None (Outputs d !! n)) as [o|]; [|split; eauto].
  destruct (typ o).
  - split; [intros [? [=]] | contradiction].
  - destruct (DerivationOutput_Path F (Some o) (Dir d) (Name d) n) as [p [|]]; simpl.
    + destruct (prefix_methodOfContentAddress (ca o)) as [pre ->]. split; eauto.
    + split; [intros [? [=]] | discriminate].
  - destruct (method o); simpl; split; eauto; try (intros [? [=]]); try discriminate;
      try contradiction; intros _; discriminate.
Qed.

Lemma view_tree_is_Some :
  is_Some (view.tree F d) <->
  Name d <> ""%string /\ Dir d <> ""%string /\
  Forall (fun n => is_Some (view.output F d n)) (sortedKeys (Outputs d)) /\
  Forall (fun p => storepath.Dir p = Dir d) (sortedKeys (InputDerivations d)) /\
  Forall (fun s => storepath.Dir s = Dir d) (InputSources d).
Proof.
  unfold view.tree.
  destruct (String.eqb (Name d) "") eqn:En.
  { apply String.eqb_eq in En. split; [intros [? [=]] | tauto]. }
  destruct (String.eqb (Dir d) "") eqn:Ed.
  { apply String.eqb_eq in Ed. split; [intros [? [=]] | tauto]. }
  apply String.eqb_neq in En, Ed.
  assert (Ho : is_Some (mapM (view.output F d) (sortedKeys (Outputs d))) <->
               Forall (fun n => is_Some (view.output F d n)) (sortedKeys (Outputs d)))
    by apply mapM_is_Some.
  assert (Hi : is_Some (mapM (view.inputDrv d) (sortedKeys (InputDerivations d))) <->
               Forall (fun p => storepath.Dir p = Dir d) (sortedKeys (InputDerivations d))).
  { rewrite mapM_is_Some. apply Forall_iff. intros p. unfold view.inputDrv. simpl.
    destruct (String.eqb (storepath.Dir p) (Dir d)) eqn:E.
    - apply String.eqb_eq in E. split; eauto.
    - apply String.eqb_neq in E. split; [intros [? [=]] | contradiction]. }
  assert (Hs : is_Some (mapM (view.inputSrc d) (InputSources d)) <->
               Forall (fun s => storepath.Dir s = Dir d) (InputSources d)).
  { rewrite mapM_is_Some. apply Forall_iff. intros p. unfold view.inputSrc. simpl.
    destruct (String.eqb (storepath.Dir p) (Dir d)) eqn:E.
    - apply String.eqb_eq in E. split; eauto.
    - apply String.eqb_neq in E. split; [intros [? [=]] | contradiction]. }
  destruct (mapM (view.output F d) _) as [outs|]; simpl.
  2:{ split; [intros [? [=]]|]. intros (_ & _ & H & _). apply Ho in H.
      destruct H as [? [=]]. }
  destruct (mapM (view.inputDrv d) _) as [ins|]; simpl.
  2:{ split; [intros [? [=]]|]. intros (_ & _ & _ & H & _). apply Hi in H.
      destruct H as [? [=]]. }
  destruct (mapM (view.inputSrc d) _) as [srcs|]; simpl.
  2:{ split; [intros [? [=]]|]. intros (_ & _ & _ & _ & H). apply Hs in H.
      destruct H as [? [=]]. }
  split; [|eauto]. intros _. repeat split; try assumption.
  - apply Ho. eauto.
  - apply Hi. eauto.
  - apply Hs. eauto.
Qed.

End MarshalSucceeds.

(** X10. [MarshalText] succeeds exactly when the name and the store
    directory are not empty, the path of every output of the fixed type can
    be computed, no output has another type than fixed or floating (a
    floating one with a method), and every input derivation and every input
    source lies in the store directory of the derivation. *)
Theorem MarshalText_succeeds
    (F : storepath.Directory -> string -> nix.ContentAddress -> zbstore.References ->
         result storepath.Path)
    (d : zbstore.Derivation) :
  is_ok (zbstore.MarshalText F d) = true <->
  zbstore.Name d <> ""%string /\ zbstore.Dir d <> ""%string /\
  (forall n o, zbstore.Outputs d !! n = Some (Some o) ->
     match zbstore.typ o with
     | zbstore.fixedCAOutputType =>
         snd (zbstore.DerivationOutput_Path F (Some o)
                (zbstore.Dir d) (zbstore.Name d) n) = true
     | zbstore.floatingCAOutputType => zbstore.method o <> zbstore.unknownMethod
     | zbstore.unknownOutputType => False
     end) /\
  (forall p : string, is_Some (zbstore.InputDerivations d !! p) ->
                      storepath.Dir p = zbstore.Dir d) /\
  (forall s, In s (zbstore.InputSources d) -> storepath.Dir s = zbstore.Dir d).
Proof.
  assert (H : is_ok (zbstore.MarshalText F d) = true <-> is_Some (view.tree F d)).
  { pose proof (MarshalText_view F d) as A. unfold view.agrees in A.
    destruct (view.tree F d) as [t|]; simpl in A.
    - rewrite A. simpl. split; eauto.
    - rewrite A. split; [discriminate | intros [? [=]]]. }
  rewrite H, view_tree_is_Some. clear H.
  rewrite !Forall_forall.
  split; intros (Hn & Hd & Ho & Hi & Hs); repeat split; try assumption.
  - intros n o L.
    assert (Hk : n ∈ zbstore.sortedKeys (zbstore.Outputs d))
      by (apply list_elem_of_In, sortedKeys_In; eauto).
    apply Ho, view_output_is_Some in Hk. now rewrite L in Hk.
  - intros p Hp. apply Hi, list_elem_of_In, sortedKeys_In, Hp.
  - intros s Hin. apply Hs, list_elem_of_In, Hin.
  - intros n Hk. apply view_output_is_Some.
    destruct (zbstore.Outputs d !! n) as [[o|]|] eqn:L; simpl; try exact I.
    now apply Ho.
  - intros p Hp. apply Hi, sortedKeys_In, list_elem_of_In, Hp.
  - intros s Hin. apply Hs, list_elem_of_In, Hin.
Qed.

(** ** [marshalText] and panics *)

Section NoPanic.

Import zbstore.

Variable F :
  storepath.Directory -> string -> nix.ContentAddress -> References ->
  result storepath.Path.
Variable d : Derivation.
Variable maskOutputs : bool.

Hypothesis floating_method :
  forall n o, Outputs d !! n = Some (Some o) ->
              typ o = floatingCAOutputType -> method o <> unknownMethod.

Local Arguments DerivationOutput_Path : simpl never.
Local Arguments String.append : simpl never.

Lemma output_marshalText_no_panic (n dst : string) (e : failure) :
  output_marshalText F (default None (Outputs d !! n)) dst (Dir d) (Name d) n maskOutputs
  = inl e ->
  panics e = false.
Proof.
  unfold output_marshalText.
  destruct (Outputs d !! n) as [[o|]|] eqn:L; simpl; try discriminate.
  destruct (typ o) eqn:T.
  - now intros [= <-].
  - destruct (prefix_methodOfContentAddress (ca o)) as [pre ->].
    destruct maskOutputs; simpl; [discriminate|].
    destruct (DerivationOutput_Path F (Some o) (Dir d) (Name d) n) as [p [|]]; simpl;
      [discriminate | now intros [= <-]].
  - pose proof (floating_method n o L T) as Hm.
    destruct (method o); simpl; try discriminate. contradiction.
Qed.

Lemma marshalOutputs_no_panic (keys : list string) (i : nat) (buf : string)
    (e : failure) :
  marshalOutputs F d maskOutputs keys i buf = inl e -> panics e = false.
Proof.
  revert i buf. induction keys as [|n keys IH]; intros i buf; simpl; [discriminate|].
  destruct (output_marshalText _ _ _ _ _ _ _) as [err|b] eqn:E.
  - intros [= <-]. simpl. apply output_marshalText_no_panic in E. now rewrite E.
  - apply IH.
Qed.

Lemma marshalInputDerivations_no_panic (keys : list string) (i : nat) (buf : string)
    (e : failure) :
  marshalInputDerivations d keys i buf = inl e -> panics e = false.
Proof.
  revert i buf. induction keys as [|p keys IH]; intros i buf; simpl; [discriminate|].
  destruct (negb _); [now intros [= <-] | apply IH].
Qed.

Lemma marshalInputSources_no_panic (k i : nat) (buf : string) (e : failure) :
  marshalInputSources d k i buf = inl e -> panics e = false.
Proof.
  revert i buf. induction k as [|k IH]; intros i buf; simpl; [discriminate|].
  destruct (negb _); [now intros [= <-] | apply IH].
Qed.

Lemma marshalText_no_panic (e : failure) :
  marshalText F d maskOutputs = inl e -> panics e = false.
Proof.
  unfold marshalText.
  destruct (String.eqb (Name d) ""); [now intros [= <-]|].
  destruct (String.eqb (Dir d) ""); [now intros [= <-]|].
  unfold mbind, result_bind.
  destruct (marshalOutputs _ _ _ _ _ _) as [e1|b1] eqn:E1.
  { intros [= <-]. now apply marshalOutputs_no_panic in E1. }
  destruct (marshalInputDerivations _ _ _ _) as [e2|b2] eqn:E2.
  { intros [= <-]. now apply marshalInputDerivations_no_panic in E2. }
  destruct (marshalInputSources _ _ _ _) as [e3|b3] eqn:E3.
  { intros [= <-]. now apply marshalInputSources_no_panic in E3. }
  discriminate.
Qed.

End NoPanic.

(** X11. [marshalText] does not panic when every output of the floating
    type has a method, as the outputs of [FlatFileFloatingCAOutput],
    [RecursiveFileFloatingCAOutput] and of the parser have: whatever it
    returns then is a text or an error.  [prefix] is never reached with a
    method it does not know. *)
Theorem marshalText_never_panics
    (F : storepath.Directory -> string -> nix.ContentAddress -> zbstore.References ->
         result storepath.Path)
    (d : zbstore.Derivation) (maskOutputs : bool) (e : failure) :
  (forall n o, zbstore.Outputs d !! n = Some (Some o) ->
     zbstore.typ o = zbstore.floatingCAOutputType ->
     zbstore.method o <> zbstore.unknownMethod) ->
  zbstore.marshalText F d maskOutputs = inl e ->
  panics e = false.
Proof. intros H. now apply marshalText_no_panic. Qed.

Lemma marshalText_never_panics_witness :
  panics (Errorf "marshal %s derivation: inputs: unexpected store directory %s (using %s)"
            [fStr "hello"; fStr "/other/store"; fStr "/zb/store"]) = false.
Proof.
  refine (marshalText_never_panics example.sourcePath cases.floating_foreign_drv
            false _ _ _).
  - intros n o H _. unfold cases.floating_foreign_drv in H.
    cbn [zbstore.Outputs] in H.
    apply lookup_insert_Some in H as [[_ H] | [_ H]].
    + injection H as <-. discriminate.
    + rewrite lookup_empty in H. discriminate H.
  - vm_compute. reflexivity.
Defined.

(** ** What the parser returns *)

Section Parsed.

Import zbstore.

Lemma ok_okb (s : sortedset.t) : sortedset.ok s -> sortedset.okb s = true.
Proof.
  induction s as [|x s IH]; [reflexivity|]. intros H.
  apply StronglySorted_inv in H as [Hs Hx]. destruct s as [|y s]; [reflexivity|].
  change (String.ltb x y && sortedset.okb (y :: s) = true).
  rewrite (IH Hs), andb_true_r.
  rewrite Forall_forall in Hx. apply Hx. now left.
Qed.

Lemma canonical_Derivation_ok (d : Derivation) :
  elab.canonical d -> Derivation_ok d = true.
Proof.
  intros (_ & HI & HS & _). unfold Derivation_ok.
  rewrite (ok_okb _ HS). simpl. apply forallb_forall. intros [p ns] Hin.
  apply list_elem_of_In, elem_of_map_to_list in Hin. simpl.
  apply ok_okb. exact (proj2 (HI _ _ Hin)).
Qed.

Lemma elab_derive_inputDrvs_dir (dir name : string) (t : grammar.Derive)
    (d : Derivation) :
  elab.derive dir name t = inr d ->
  Forall (fun i => storepath.Dir (fst i) = dir) (grammar.inputDrvs t).
Proof.
  rewrite derive_unfold.
  destruct (elab.outputs _ _) as [e|d1] eqn:E1; [discriminate|].
  destruct (elab.inputDrvs _ _) as [e|d2] eqn:E2; [discriminate|].
  intros _. apply elab_inputDrvs_ok in E2.
  apply elab_outputs_frame in E1 as (Hd & _). simpl in Hd, E2.
  now rewrite Hd in E2.
Qed.

End Parsed.

(** X12. A derivation that [ParseDerivation] returns has the directory
    and the name that were passed; its input sources and the output names
    of its input derivations are ascending without duplicates; no output is
    nil, a floating one has a method and an algorithm, a fixed one a hash of
    the size of its algorithm; every input derivation is a store path of the
    directory, and every input source is a store path. *)
Theorem ParseDerivation_invariants (dir name data : string) (d : zbstore.Derivation) :
  zbstore.ParseDerivation dir name data = inr d ->
  zbstore.Dir d = dir /\ zbstore.Name d = name /\
  zbstore.Derivation_ok d = true /\
  (forall n out, zbstore.Outputs d !! n = Some out ->
     out <> None /\ elab.canonical_output out = true) /\
  (forall p : string, is_Some (zbstore.InputDerivations d !! p) ->
     storepath.ParsePath p = inr p /\ storepath.Dir p = dir) /\
  (forall s, In s (zbstore.InputSources d) -> storepath.ParsePath s = inr s).
Proof.
  intros H. apply ParseDerivation_inv in H as [t Ht].
  pose proof (elab_derive_canonical _ _ _ _ Ht) as Hc.
  pose proof (elab_derive_inputDrvs_dir _ _ _ _ Ht) as Hdir.
  pose proof (elab_derive_inv _ _ _ _ Ht) as ((D1 & D2 & _) & _ & _ & (I1 & I2) & _).
  split; [exact D1|]. split; [exact D2|].
  split; [now apply canonical_Derivation_ok|].
  destruct Hc as (HO & HI & HS1 & HS2). repeat split.
  - intros ->. apply HO in H. discriminate H.
  - eapply HO, H.
  - destruct H as [ns Hns]. apply (HI _ _ Hns).
  - destruct (in_dec String.string_dec p (map fst (grammar.inputDrvs t))) as [Hin|Hni].
    + apply in_map_iff in Hin as (i & <- & Hi). rewrite Forall_forall in Hdir.
      now apply Hdir, list_elem_of_In.
    + rewrite (I1 p Hni) in H. now destruct H.
  - intros s Hs. rewrite Forall_forall in HS2. now apply HS2, list_elem_of_In.
Qed.

Lemma ParseDerivation_invariants_witness :
  zbstore.Dir cases.parsed = "/zb/store"%string /\
  zbstore.Derivation_ok cases.parsed = true.
Proof.
  pose proof (ParseDerivation_invariants "/zb/store" "hello" cases.unsorted cases.parsed)
    as H.
  refine (let H' := H _ in conj (proj1 H') (proj1 (proj2 (proj2 H')))).
  vm_compute. reflexivity.
Defined.

(** ** What the parser does not look at *)

Section ParserIgnores.

Import zbstore.

Variable paths : grammar.Output -> string.

Lemma elab_output_repath (g : grammar.Output) :
  grammar.oHash g <> ""%string ->
  elab.output (grammar.mkOutput (grammar.oName g) (paths g) (grammar.oCA g)
                 (grammar.oHash g))
  = elab.output g.
Proof.
  intros H. apply String.eqb_neq in H. unfold elab.output. simpl.
  now rewrite H, !andb_false_r.
Qed.

Lemma elab_outputs_repath (l : list grammar.Output) (drv : Derivation) :
  elab.outputs drv
    (map (fun g => if String.eqb (grammar.oHash g) "" then g
                   else grammar.mkOutput (grammar.oName g) (paths g) (grammar.oCA g)
                          (grammar.oHash g)) l)
  = elab.outputs drv l.
Proof.
  revert drv. induction l as [|g l IH]; intros drv; [reflexivity|].
  simpl. destruct (String.eqb (grammar.oHash g) "") eqn:E.
  - destruct (elab.output g) as [e|[n o]]; [reflexivity|].
    destruct (Outputs drv !! n); [reflexivity|apply IH].
  - apply String.eqb_neq in E. rewrite (elab_output_repath g E).
    destruct (elab.output g) as [e|[n o]]; [reflexivity|].
    destruct (Outputs drv !! n); [reflexivity|apply IH].
Qed.

End ParserIgnores.

(** X13. The parser does not look at the path of an output that has a
    hash: with any other strings in the place of these paths, the text of a
    derivation parses to the same derivation, or fails with the same
    error. *)
Theorem ParseDerivation_ignores_output_path
    (dir name : string) (t : grammar.Derive) (paths : grammar.Output -> string) :
  zbstore.ParseDerivation dir name
    (grammar.print
       (grammar.mkDerive
          (map (fun g => if String.eqb (grammar.oHash g) "" then g
                         else grammar.mkOutput (grammar.oName g) (paths g)
                                (grammar.oCA g) (grammar.oHash g))
               (grammar.outputs t))
          (grammar.inputDrvs t) (grammar.inputSrcs t) (grammar.system t)
          (grammar.builder t) (grammar.args t) (grammar.env t)))
  = zbstore.ParseDerivation dir name (grammar.print t).
Proof.
  rewrite !ParseDerivation_print, !derive_unfold. simpl.
  now rewrite elab_outputs_repath.
Qed.

(** ** The order of the entries in the text *)

Section ParserOrder.

Import zbstore.

Lemma elab_outputs_perm (l l' : list grammar.Output) :
  Permutation l l' ->
  forall drv d, elab.outputs drv l = inr d -> elab.outputs drv l' = inr d.
Proof.
  induction 1 as [|x l l' _ IH|x y l|l l' l'' _ IH1 _ IH2]; intros drv d.
  - trivial.
  - simpl. destruct (elab.output x) as [e|[n o]]; [trivial|].
    destruct (Outputs drv !! n); [trivial|apply IH].
  - simpl.
    destruct (elab.output y) as [e|[ny oy]] eqn:Ey; [discriminate|].
    destruct (Outputs drv !! ny) eqn:Ly; [discriminate|].
    destruct (elab.output x) as [e|[nx ox]] eqn:Ex; [discriminate|]. simpl.
    destruct (decide (ny = nx)) as [->|Hne].
    { rewrite lookup_insert_eq. discriminate. }
    rewrite lookup_insert_ne by exact Hne.
    destruct (Outputs drv !! nx) eqn:Lx; [discriminate|].
    rewrite lookup_insert_ne, Ly by congruence.
    unfold set_Outputs. simpl. now rewrite insert_insert_ne by congruence.
  - intros H. now apply IH2, IH1.
Qed.

Lemma elab_inputDrvs_perm (l l' : list (string * list string)) :
  Permutation l l' ->
  forall drv d, elab.inputDrvs drv l = inr d -> elab.inputDrvs drv l' = inr d.
Proof.
  induction 1 as [|x l l' _ IH|x y l|l l' l'' _ IH1 _ IH2]; intros drv d.
  - trivial.
  - simpl. destruct (elab.inputDrv x) as [e|[p ns]]; [trivial|].
    destruct (negb _); [trivial|]. destruct (_ !! _); [trivial|apply IH].
  - simpl.
    destruct (elab.inputDrv y) as [e|[py nsy]] eqn:Ey; [discriminate|].
    destruct (negb (String.eqb (storepath.Dir py) (Dir drv))) eqn:Dy; [discriminate|].
    destruct (InputDerivations drv !! py) eqn:Ly; [discriminate|].
    destruct (elab.inputDrv x) as [e|[px nsx]] eqn:Ex; [discriminate|]. simpl.
    destruct (negb (String.eqb (storepath.Dir px) (Dir drv))) eqn:Dx; [discriminate|].
    destruct (decide (py = px)) as [->|Hne].
    { rewrite lookup_insert_eq. discriminate. }
    rewrite lookup_insert_ne by exact Hne.
    destruct (InputDerivations drv !! px) eqn:Lx; [discriminate|].
    rewrite lookup_insert_ne, Ly by congruence.
    unfold set_InputDerivations. simpl. now rewrite insert_insert_ne by congruence.
  - intros H. now apply IH2, IH1.
Qed.

Lemma elab_env_perm (l l' : list (string * string)) :
  Permutation l l' ->
  forall drv d, elab.env drv l = inr d -> elab.env drv l' = inr d.
Proof.
  induction 1 as [|[k v] l l' _ IH|[kx vx] [ky vy] l|l l' l'' _ IH1 _ IH2]; intros drv d.
  - trivial.
  - simpl. destruct (Env drv !! k); [trivial|apply IH].
  - simpl.
    destruct (Env drv !! ky) eqn:Ly; [discriminate|].
    destruct (decide (ky = kx)) as [->|Hne].
    { rewrite lookup_insert_eq. discriminate. }
    rewrite lookup_insert_ne by exact Hne.
    destruct (Env drv !! kx) eqn:Lx; [discriminate|].
    rewrite lookup_insert_ne, Ly by congruence.
    unfold set_Env. simpl. now rewrite insert_insert_ne by congruence.
  - intros H. now apply IH2, IH1.
Qed.

Lemma elab_sources_perm (l l' : list string) (s : sortedset.t) :
  Permutation l l' ->
  elab.strings addInputSource [] l = inr s ->
  elab.strings addInputSource [] l' = inr s.
Proof.
  intros Hp H. apply elab_sources in H as [-> Hall].
  rewrite (elab_sources_accept' l' []).
  - f_equal. change (sortedset.of_list l' = sortedset.of_list l).
    apply ok_ext; try apply of_list_ok.
    intros x. rewrite !of_list_In. split; intros Hx.
    + apply list_elem_of_In. rewrite Hp. now apply list_elem_of_In.
    + apply list_elem_of_In. rewrite <- Hp. now apply list_elem_of_In.
  - now rewrite <- Hp.
Qed.

End ParserOrder.

(** X14. The parser does not ask for an order: when the text of a
    derivation is accepted, the text with its outputs, its input
    derivations, its input sources and its environment in any other order
    is accepted as the same derivation.  (The arguments of the builder keep
    their places.) *)
Theorem ParseDerivation_any_order
    (dir name : string) (t t' : grammar.Derive) (d : zbstore.Derivation) :
  Permutation (grammar.outputs t) (grammar.outputs t') ->
  Permutation (grammar.inputDrvs t) (grammar.inputDrvs t') ->
  Permutation (grammar.inputSrcs t) (grammar.inputSrcs t') ->
  Permutation (grammar.env t) (grammar.env t') ->
  grammar.system t = grammar.system t' ->
  grammar.builder t = grammar.builder t' ->
  grammar.args t = grammar.args t' ->
  zbstore.ParseDerivation dir name (grammar.print t) = inr d ->
  zbstore.ParseDerivation dir name (grammar.print t') = inr d.
Proof.
  intros Po Pi Ps Pe Es Eb Ea. rewrite !ParseDerivation_print, !derive_unfold.
  destruct (elab.outputs _ (grammar.outputs t)) as [e|d1] eqn:E1; [discriminate|].
  rewrite (elab_outputs_perm _ _ Po _ _ E1).
  destruct (elab.inputDrvs _ (grammar.inputDrvs t)) as [e|d2] eqn:E2; [discriminate|].
  rewrite (elab_inputDrvs_perm _ _ Pi _ _ E2).
  destruct (elab.strings _ _ (grammar.inputSrcs t)) as [e|srcs] eqn:E3; [discriminate|].
  rewrite (elab_sources_perm _ _ _ Ps E3), <- Es, <- Eb, <- Ea.
  apply elab_env_perm, Pe.
Qed.

Lemma ParseDerivation_any_order_witness :
  zbstore.ParseDerivation "/zb/store" "hello"
    (grammar.print
       (grammar.mkDerive (rev (grammar.outputs cases.unsorted_tree))
          (grammar.inputDrvs cases.unsorted_tree)
          (rev (grammar.inputSrcs cases.unsorted_tree))
          (grammar.system cases.unsorted_tree) (grammar.builder cases.unsorted_tree)
          (grammar.args cases.unsorted_tree)
          (rev (grammar.env cases.unsorted_tree))))
  = inr cases.parsed.
Proof.
  refine (ParseDerivation_any_order "/zb/store" "hello" cases.unsorted_tree
            (grammar.mkDerive (rev (grammar.outputs cases.unsorted_tree))
               (grammar.inputDrvs cases.unsorted_tree)
               (rev (grammar.inputSrcs cases.unsorted_tree))
               (grammar.system cases.unsorted_tree) (grammar.builder cases.unsorted_tree)
               (grammar.args cases.unsorted_tree)
               (rev (grammar.env cases.unsorted_tree)))
            cases.parsed _ _ _ _ _ _ _ _);
    [ apply Permutation_rev | reflexivity | apply Permutation_rev
    | apply Permutation_rev | reflexivity | reflexivity | reflexivity
    | vm_compute; reflexivity ].
Defined.

(** ** The hash algorithm of an output *)

(** X16. [parseHashAlgorithm] reads back what [prefix] and the name of a
    hash algorithm write: it returns the method [m] and the algorithm [a]
    exactly for the text of the prefix of [m] followed by the name of [a].
    The method it returns is never an unknown one. *)
Theorem parseHashAlgorithm_round_trip
    (s : string) (m : zbstore.contentAddressMethod) (a : nix.HashType) :
  zbstore.parseHashAlgorithm s = (m, inr a) <->
  a <> nix.NoHashType /\
  exists pre, zbstore.prefix m = inr pre /\ s = pre +:+ nix.HashType_String a.
Proof.
  split.
  - intros H. pose proof (parseHashAlgorithm_ok _ _ _ H) as [Hm Ha].
    split; [exact Ha|]. revert H. unfold zbstore.parseHashAlgorithm.
    destruct (bytes.CutPrefix s "r:") as [s1|] eqn:C1.
    { apply CutPrefix_Some in C1.
      destruct (nix.ParseHashType s1) eqn:P; intros [= <- <-].
      apply ParseHashType_String in P as [<- _]. now exists "r:"%string. }
    destruct (bytes.CutPrefix s "text:") as [s2|] eqn:C2.
    { apply CutPrefix_Some in C2.
      destruct (nix.ParseHashType s2) eqn:P; intros [= <- <-].
      apply ParseHashType_String in P as [<- _]. now exists "text:"%string. }
    destruct (nix.ParseHashType s) eqn:P; intros [= <- <-].
    apply ParseHashType_String in P as [<- _]. now exists ""%string.
  - intros (Ha & pre & Hpre & ->). rewrite (parseHashAlgorithm_print _ _ _ Hpre).
    destruct a; try reflexivity. contradiction.
Qed.

(** X15. [sortedKeys] returns every key of the map, each one once, in
    ascending order. *)
Theorem sortedKeys_spec {V} (m : gmap string V) :
  (forall k, In k (zbstore.sortedKeys m) <-> is_Some (m !! k)) /\
  NoDup (zbstore.sortedKeys m) /\
  StronglySorted sortedset.lt (zbstore.sortedKeys m) /\
  length (zbstore.sortedKeys m) = size m.
Proof.
  split; [apply sortedKeys_In|]. split; [apply sortedKeys_NoDup|].
  split; [apply sortedKeys_ascending|].
  unfold zbstore.sortedKeys.
  rewrite (Permutation_length (merge_sort_Permutation _ _)).
  now rewrite length_map, length_map_to_list.
Qed.

(** ** The cache lookup *)

Section CheckStamp.

Import zb.

Variable w : World.

Lemma counted_ParsePath (row : string) :
  counted w row = true ->
  storepath.ParsePath row = inr row /\
  String.eqb (storepath.Dir row) (storeDir w) = true /\ row <> ""%string.
Proof.
  unfold counted. destruct (storepath.ParsePath row) as [e|p] eqn:E; [discriminate|].
  pose proof (ParsePath_id _ _ E) as ->. intros H.
  repeat split; [exact H|]. now apply ParsePath_nonempty in E.
Qed.

Lemma checkStamp_rows_skip (path : string) (rows : list string) (found : storepath.Path) :
  List.filter (counted w) rows = [] ->
  checkStamp_rows w path rows found = inr found.
Proof.
  induction rows as [|row rows IH]; simpl; [reflexivity|].
  unfold counted at 1.
  destruct (storepath.ParsePath row) as [e|p] eqn:E; simpl; [exact IH|].
  destruct (String.eqb (storepath.Dir p) (storeDir w)); simpl; [discriminate|exact IH].
Qed.

Lemma checkStamp_rows_one (path : string) (rows : list string) (p : string) :
  List.filter (counted w) rows = [p] ->
  checkStamp_rows w path rows "" = inr p.
Proof.
  induction rows as [|row rows IH]; simpl; [discriminate|].
  destruct (counted w row) eqn:C.
  - intros [= -> Hrest]. apply counted_ParsePath in C as (E & D & _).
    rewrite E, D. simpl. now apply checkStamp_rows_skip.
  - intros H. unfold counted in C.
    destruct (storepath.ParsePath row) as [e|q]; [now apply IH|].
    rewrite C. simpl. now apply IH.
Qed.

End CheckStamp.

(** X17. [checkStamp] looks only at the rows that are store paths of the
    store directory of the evaluator: with exactly one of them it returns
    that path, with none it fails with "no match", and with more than one
    with the hash-collision error. *)
Theorem checkStamp_counts (w : zb.World) (path name : string) :
  zb.checkStamp w path name
  = match List.filter (zb.counted w) (zb.find_rows w name) with
    | [] => Fail (Errorf "check stamp for %s: no match" [fStr path])
    | [p] => Ok p
    | _ :: _ :: _ =>
        Fail (Errorf "check stamp for %s: find match: %v"
                [fStr path; fErr (zb.collision path)])
    end.
Proof.
  destruct (List.filter (zb.counted w) (zb.find_rows w name)) as [|p [|q l]] eqn:E.
  - unfold zb.checkStamp. now rewrite (checkStamp_rows_skip w path _ "" E).
  - unfold zb.checkStamp. rewrite (checkStamp_rows_one w path _ p E).
    assert (Hin : In p (List.filter (zb.counted w) (zb.find_rows w name)))
      by (rewrite E; now left).
    apply filter_In in Hin as [_ C]. apply counted_ParsePath in C as (_ & _ & Hne).
    apply String.eqb_neq in Hne. now rewrite Hne.
  - apply checkStamp_collision. rewrite E. simpl. lia.
Qed.

(** ** The events of [pathFunction] *)

Section PathTrace.

Import zb trace.

Variable w : World.

Lemma streamRow_trace (p : string) (written : list nar_header) (row : walk_row)
    (tr : list event) :
  exists evs, snd (streamRow w p written row tr) = tr ++ evs /\
              forallb is_nar_event evs = true.
Proof.
  unfold streamRow.
  cbv [mbind M_bind bind ret raise wrap lift emit Ok Fail].
  destruct (negb (String.eqb (row_path row) p)).
  - destruct (bytes.CutPrefix _ _); cbv iota beta.
    2:{ exists []. now rewrite app_nil_r. }
    destruct (Type_ (row_mode row) =? ModeDir).
    { destruct (WriteHeader w _ _); cbv iota beta;
        [exists []; now rewrite app_nil_r | eexists; split; [reflexivity|reflexivity]]. }
    destruct (Type_ (row_mode row) =? ModeSymlink).
    { destruct (WriteHeader w _ _); cbv iota beta;
        [exists []; now rewrite app_nil_r | eexists; split; [reflexivity|reflexivity]]. }
    destruct (WriteHeader w _ _); cbv iota beta; [exists []; now rewrite app_nil_r|].
    destruct (readFile w _); cbv iota beta;
      [eexists; split; [reflexivity|reflexivity]|].
    destruct (negb _); cbv iota beta; rewrite <- app_assoc;
      eexists; split; reflexivity.
  - cbv iota beta.
    destruct (Type_ (row_mode row) =? ModeDir).
    { destruct (WriteHeader w _ _); cbv iota beta;
        [exists []; now rewrite app_nil_r | eexists; split; [reflexivity|reflexivity]]. }
    destruct (Type_ (row_mode row) =? ModeSymlink).
    { destruct (WriteHeader w _ _); cbv iota beta;
        [exists []; now rewrite app_nil_r | eexists; split; [reflexivity|reflexivity]]. }
    destruct (WriteHeader w _ _); cbv iota beta; [exists []; now rewrite app_nil_r|].
    destruct (readFile w _); cbv iota beta;
      [eexists; split; [reflexivity|reflexivity]|].
    destruct (negb _); cbv iota beta; rewrite <- app_assoc;
      eexists; split; reflexivity.
Qed.

Lemma streamRows_trace (p : string) (rows : list walk_row)
    (done : list (nar_header * string)) (tr : list event) :
  exists evs, snd (streamRows w p rows done tr) = tr ++ evs /\
              forallb is_nar_event evs = true.
Proof.
  revert done tr. induction rows as [|row rows IH]; intros done tr; simpl.
  - exists []. now rewrite app_nil_r.
  - cbv [mbind M_bind bind].
    destruct (streamRow_trace p (map fst done) row tr) as (e1 & H1 & F1).
    destruct (streamRow w p (map fst done) row tr) as [[e|x] tr1]; simpl in H1; subst tr1.
    + now exists e1.
    + destruct (IH (done ++ [x]) (tr ++ e1)) as (e2 & H2 & F2).
      exists (e1 ++ e2). rewrite H2, <- app_assoc. split; [reflexivity|].
      now rewrite forallb_app, F1, F2.
Qed.

Lemma pathImport_shape (p name : string) (rows : list walk_row) (tr : list event) :
  let r := pathImport w p name rows tr in
  (is_error (fst r) /\ snd r = tr) \/
  exists (nar : list event) (stage : nat) (sp : string),
    forallb is_nar_event nar = true /\
    snd r = tr ++ EvStartImport :: nar ++ tail stage sp ++ [EvCloseImport] /\
    (stage <= 5)%nat /\
    (stage = 5%nat -> fst r = Ok 1) /\
    ((stage < 5)%nat -> is_error (fst r)) /\
    ((3 <= stage)%nat -> Trailer w sp [] = Ok tt) /\
    ((4 <= stage)%nat -> Close w = Ok tt) /\
    (stage = 5%nat -> updateCache w sp = Ok tt).
Proof.
  unfold pathImport.
  cbv [mbind M_bind bind ret raise wrap lift emit defer Ok Fail].
  destruct (startImport w) as [e|[]]; cbv iota beta.
  { left. split; [exact I|reflexivity]. }
  right.
  destruct (streamRows_trace p rows [] (tr ++ [EvStartImport])) as (nar & Hn & Fn).
  destruct (streamRows w p rows [] (tr ++ [EvStartImport])) as [[e|entries] tr2];
    simpl in Hn; subst tr2; cbv iota beta.
  { exists nar, 0%nat, ""%string. simpl.
    rewrite <- !app_assoc. simpl. repeat split; try lia; try exact Fn; try (intros _; assumption). }
  destruct (nar_Close w) as [e|[]]; cbv iota beta.
  { exists nar, 1%nat, ""%string. simpl.
    rewrite <- !app_assoc. simpl. repeat split; try lia; try exact Fn; try (intros _; assumption). }
  destruct (fixedCAOutputPath w _ _ _ _) as [e|sp]; cbv iota beta.
  { exists nar, 1%nat, ""%string. simpl.
    rewrite <- !app_assoc. simpl. repeat split; try lia; try exact Fn; try (intros _; assumption). }
  destruct (Trailer w sp []) as [e|[]] eqn:ET; cbv iota beta.
  { exists nar, 2%nat, sp. simpl.
    rewrite <- !app_assoc. simpl. repeat split; try lia; try exact Fn; try (intros _; assumption). }
  destruct (Close w) as [e|[]] eqn:EC; cbv iota beta.
  { exists nar, 3%nat, sp. simpl.
    rewrite <- !app_assoc. simpl. repeat split; try lia; try exact Fn; try (intros _; assumption). }
  destruct (updateCache w sp) as [e|[]] eqn:EU; cbv iota beta.
  { exists nar, 4%nat, sp. simpl.
    rewrite <- !app_assoc. simpl. repeat split; try lia; try exact Fn; try (intros _; assumption). }
  exists nar, 5%nat, sp. simpl.
  rewrite <- !app_assoc. simpl. repeat split; try lia; try exact Fn; try (intros _; assumption).
Qed.

Lemma pathFunction_named_shape (p0 name0 : string) (c c' : list string)
    (tr : list event) :
  let r := pathFunction w (LuaTable (LuaString p0 c) (LuaString name0 c')) tr in
  (is_error (fst r) /\ snd r = tr) \/
  (exists prev, fst r = Ok 1 /\
     snd r = tr ++ [EvPushStringContext prev [prev]; EvDropWalk]) \/
  (exists p name rows,
     fst r = fst (pathImport w p name rows tr) /\
     snd r = snd (pathImport w p name rows tr) ++ [EvDropWalk]).
Proof.
  unfold pathFunction.
  cbv [mbind M_bind bind ret raise wrap lift emit defer Ok Fail ToString].
  cbv iota beta zeta.
  destruct (absSourcePath w p0) as [e|p]; cbv iota beta zeta;
    [left; split; [exact I|reflexivity]|].
  destruct (walkPath w p) as [e|rows]; cbv iota beta zeta;
    [left; split; [exact I|reflexivity]|].
  destruct (checkStamp w p _) as [e|prev].
  - right. right. exists p, (if String.eqb name0 "" then filepath_Base w p else name0), rows.
    destruct (pathImport w p _ rows tr) as [r1 tr1]. simpl. split; reflexivity.
  - destruct (Lstat w prev).
    + right. left. exists prev. simpl. rewrite <- app_assoc. split; reflexivity.
    + right. right. exists p, (if String.eqb name0 "" then filepath_Base w p else name0), rows.
      destruct (pathImport w p _ rows tr) as [r1 tr1]. simpl. split; reflexivity.
Qed.

Lemma pathFunction_shape (arg : lua_value) (tr : list event) :
  let r := pathFunction w arg tr in
  (is_error (fst r) /\ snd r = tr) \/
  (exists prev, fst r = Ok 1 /\
     snd r = tr ++ [EvPushStringContext prev [prev]; EvDropWalk]) \/
  (exists p name rows,
     fst r = fst (pathImport w p name rows tr) /\
     snd r = snd (pathImport w p name rows tr) ++ [EvDropWalk]).
Proof.
  destruct arg as [|s ctx|fpath fname|].
  - left. split; [exact I|reflexivity].
  - apply (pathFunction_named_shape s "" ctx []).
  - destruct fpath as [|s ctx|? ?|]; try (left; split; [exact I|reflexivity]).
    destruct fname as [|n cn|? ?|];
      [apply (pathFunction_named_shape s "" ctx [])
      |apply (pathFunction_named_shape s n ctx cn)
      |apply (pathFunction_named_shape s "" ctx [])
      |apply (pathFunction_named_shape s "" ctx [])].
  - left. split; [exact I|reflexivity].
Qed.

(** Everything that [pathFunction] can append to the events. *)
Lemma pathFunction_events (arg : lua_value) (tr : list event) :
  let r := pathFunction w arg tr in
  exists evs, snd r = tr ++ evs /\
    ((is_error (fst r) /\ evs = []) \/
     (exists prev, fst r = Ok 1 /\ evs = [EvPushStringContext prev [prev]; EvDropWalk]) \/
     (is_error (fst r) /\ evs = [EvDropWalk]) \/
     (exists (nar : list event) (stage : nat) (sp : string),
        forallb is_nar_event nar = true /\
        evs = EvStartImport :: nar ++ tail stage sp ++ [EvCloseImport; EvDropWalk] /\
        (stage <= 5)%nat /\
        (stage = 5%nat -> fst r = Ok 1) /\
        ((stage < 5)%nat -> is_error (fst r)) /\
        ((3 <= stage)%nat -> Trailer w sp [] = Ok tt) /\
        ((4 <= stage)%nat -> Close w = Ok tt) /\
        (stage = 5%nat -> updateCache w sp = Ok tt))).
Proof.
  intros r. subst r.
  destruct (pathFunction_shape arg tr) as [[He Ht]|[(prev & Hr & Ht)|(p & name & rows & Hr & Ht)]].
  - exists []. rewrite app_nil_r. split; [exact Ht|]. left. now split.
  - eexists. split; [exact Ht|]. right. left. now exists prev.
  - rewrite Ht, Hr. clear Ht Hr.
    destruct (pathImport_shape p name rows tr)
      as [[He Ht]|(nar & stage & sp & Fn & Ht & Hs)].
    + rewrite Ht. exists [EvDropWalk]. split; [reflexivity|]. right. right. left.
      now split.
    + rewrite Ht. eexists. split.
      { rewrite <- app_assoc. simpl. rewrite <- !app_assoc. simpl. reflexivity. }
      right. right. right. exists nar, stage, sp. split; [exact Fn|].
      split; [reflexivity|]. exact Hs.
Qed.

Lemma nar_events_only (nar : list event) (e : event) :
  forallb is_nar_event nar = true -> In e nar -> is_nar_event e = true.
Proof. intros H. now apply forallb_forall. Qed.

Lemma nar_events_no_push (nar : list event) :
  forallb is_nar_event nar = true -> List.filter is_push nar = [].
Proof.
  induction nar as [|e nar IH]; [reflexivity|]. simpl.
  destruct (is_nar_event e) eqn:E; [|discriminate]. simpl. intros H.
  destruct e; try discriminate; simpl; now apply IH.
Qed.

End PathTrace.

(** X18. When the cache has a store path for the source and the path
    exists in the store, [pathFunction] pushes that path, with itself as
    its context, and drops the walk table: it opens no import connection
    and does not touch the cache.  When the path is gone from the store,
    it imports. *)
Theorem pathFunction_cache_hit
    (w : zb.World) (p0 : string) (context : list string) (p : string)
    (rows : list zb.walk_row) (prev : storepath.Path) (tr : list zb.event) :
  zb.absSourcePath w p0 = inr p ->
  zb.walkPath w p = inr rows ->
  zb.checkStamp w p (zb.filepath_Base w p) = inr prev ->
  zb.pathFunction w (zb.LuaString p0 context) tr
  = if zb.Lstat w prev
    then (Ok 1, tr ++ [zb.EvPushStringContext prev [prev]; zb.EvDropWalk])
    else (fst (zb.pathImport w p (zb.filepath_Base w p) rows tr),
          snd (zb.pathImport w p (zb.filepath_Base w p) rows tr) ++ [zb.EvDropWalk]).
Proof.
  intros Habs Hwalk Hcs.
  unfold zb.pathFunction.
  cbv [mbind zb.M_bind zb.bind zb.ret zb.wrap zb.lift zb.defer zb.emit Ok].
  cbv iota beta. rewrite Habs. cbv iota beta. rewrite Hwalk. cbv iota beta.
  rewrite String.eqb_refl. rewrite Hcs.
  destruct (zb.Lstat w prev); cbv iota beta.
  - simpl. now rewrite <- app_assoc.
  - destruct (zb.pathImport w p (zb.filepath_Base w p) rows tr) as [r tr']. reflexivity.
Qed.

Lemma pathFunction_cache_hit_witness :
  zb.pathFunction trace.world1 (zb.LuaString "/src" []) []
  = (Ok 1, [zb.EvPushStringContext example.cached1 [example.cached1]; zb.EvDropWalk]).
Proof.
  refine (pathFunction_cache_hit trace.world1 "/src" [] "/src"
            [zb.mkRow "/src" zb.ModeDir (-1) ""] example.cached1 [] _ _ _).
  - reflexivity.
  - reflexivity.
  - vm_compute. reflexivity.
Defined.

(** X19. Called with a string, [pathFunction] pushes one value, a store
    path with itself as its context, when it returns without error, and
    then it returns 1; when it fails it pushes nothing. *)
Theorem pathFunction_pushes
    (w : zb.World) (p0 : string) (context : list string) (tr : list zb.event) :
  exists evs,
    snd (zb.pathFunction w (zb.LuaString p0 context) tr) = tr ++ evs /\
    match fst (zb.pathFunction w (zb.LuaString p0 context) tr) with
    | inr n =>
        n = 1 /\
        exists sp, List.filter trace.is_push evs = [zb.EvPushStringContext sp [sp]]
    | inl _ => List.filter trace.is_push evs = []
    end.
Proof.
  set (arg := zb.LuaString p0 context).
  destruct (pathFunction_events w arg tr)
    as (evs & Ht & [[He ->]|[(prev & Hr & ->)|[[He ->]|(nar & stage & sp & Fn & -> & Hs)]]]).
  - exists []. split; [exact Ht|].
    destruct (fst (zb.pathFunction w arg tr)) as [e|n]; [reflexivity|contradiction].
  - eexists. split; [exact Ht|]. rewrite Hr. split; [reflexivity|]. now exists prev.
  - eexists. split; [exact Ht|].
    destruct (fst (zb.pathFunction w arg tr)) as [e|n]; [reflexivity|contradiction].
  - eexists. split; [exact Ht|].
    destruct Hs as (Hle & H5 & Hlt & _).
    assert (Hf : forall l, List.filter trace.is_push (zb.EvStartImport :: nar ++ l)
                           = List.filter trace.is_push l).
    { intros l. simpl. now rewrite List.filter_app, (nar_events_no_push nar Fn). }
    rewrite Hf.
    destruct stage as [|[|[|[|[|[|n]]]]]]; try lia; simpl;
      try (specialize (Hlt ltac:(lia));
           destruct (fst (zb.pathFunction w arg tr)) as [e|n]; [reflexivity|contradiction]).
    rewrite (H5 eq_refl). split; [reflexivity|]. now exists sp.
Qed.

(** X20. Whatever happens, an import connection that [pathFunction] has
    opened is closed when it returns, and the walk table is dropped after
    that: the events it appends are none, or they end with the drop of the
    walk table; and when they open an import, they open it once, first of
    all, and end with the close of the connection and the drop. *)
Theorem pathFunction_cleans_up (w : zb.World) (arg : zb.lua_value) (tr : list zb.event) :
  exists evs,
    snd (zb.pathFunction w arg tr) = tr ++ evs /\
    (evs = [] \/ exists l, evs = l ++ [zb.EvDropWalk] /\ ~ In zb.EvDropWalk l) /\
    (In zb.EvStartImport evs ->
     exists l, evs = zb.EvStartImport :: l ++ [zb.EvCloseImport; zb.EvDropWalk] /\
               ~ In zb.EvStartImport l).
Proof.
  destruct (pathFunction_events w arg tr)
    as (evs & Ht & [[He ->]|[(prev & Hr & ->)|[[He ->]|(nar & stage & sp & Fn & -> & Hs)]]]).
  - exists []. split; [exact Ht|]. split; [now left | contradiction].
  - eexists. split; [exact Ht|]. split.
    + right. exists [zb.EvPushStringContext prev [prev]]. split; [reflexivity|].
      intros [H|[]]; discriminate.
    + intros [H|[H|[]]]; discriminate.
  - eexists. split; [exact Ht|]. split.
    + right. exists []. split; [reflexivity | intros []].
    + intros [H|[]]; discriminate.
  - eexists. split; [exact Ht|].
    assert (Hnar : forall e, In e nar -> trace.is_nar_event e = true)
      by (intros e; now apply nar_events_only).
    assert (Htail : forall e, In e (trace.tail stage sp) ->
                              e <> zb.EvDropWalk /\ e <> zb.EvStartImport).
    { intros e He. unfold trace.tail in He.
      apply list_elem_of_In, (subseteq_take stage), list_elem_of_In in He. simpl in He.
      destruct He as [<-|[<-|[<-|[<-|[<-|[]]]]]]; split; discriminate. }
    split.
    + right. exists (zb.EvStartImport :: nar ++ trace.tail stage sp ++ [zb.EvCloseImport]).
      split; [simpl; now rewrite <- !app_assoc|].
      intros [H|H]; [discriminate|].
      apply in_app_or in H as [H|H].
      * apply Hnar in H. discriminate.
      * apply in_app_or in H as [H|[H|[]]]; [|discriminate].
        now apply Htail in H.
    + intros _. exists (nar ++ trace.tail stage sp). split.
      * now rewrite <- app_assoc.
      * intros H. apply in_app_or in H as [H|H].
        -- apply Hnar in H. discriminate.
        -- now apply Htail in H.
Qed.

(** X21. [pathFunction] updates the cache only at the end of an import
    that went through: only after the trailer with the same store path was
    sent and the connection was closed, both without error. *)
Theorem pathFunction_cache_update
    (w : zb.World) (arg : zb.lua_value) (tr : list zb.event) (sp : storepath.Path) :
  exists evs,
    snd (zb.pathFunction w arg tr) = tr ++ evs /\
    (In (zb.EvUpdateCache sp) evs ->
     zb.Trailer w sp [] = Ok tt /\ zb.Close w = Ok tt /\
     exists l1 l2,
       evs = l1 ++ [zb.EvTrailer sp []; zb.EvCloseImport; zb.EvUpdateCache sp] ++ l2 /\
       ~ In (zb.EvUpdateCache sp) l1).
Proof.
  destruct (pathFunction_events w arg tr)
    as (evs & Ht & [[He ->]|[(prev & Hr & ->)|[[He ->]|(nar & stage & sp' & Fn & -> & Hs)]]]).
  - exists []. split; [exact Ht|]. contradiction.
  - eexists. split; [exact Ht|]. intros [H|[H|[]]]; discriminate.
  - eexists. split; [exact Ht|]. intros [H|[]]; discriminate.
  - eexists. split; [exact Ht|]. intros Hin.
    assert (Hnar : forall e, In e nar -> trace.is_nar_event e = true)
      by (intros e; now apply nar_events_only).
    destruct Hs as (Hle & _ & _ & H3 & H4 & _).
    destruct Hin as [H|H]; [discriminate|].
    apply in_app_or in H as [H|H]; [apply Hnar in H; discriminate|].
    apply in_app_or in H as [H|[H|[H|[]]]]; try discriminate.
    assert (Hst : (4 <= stage)%nat /\ sp' = sp).
    { destruct stage as [|[|[|[|[|[|n]]]]]]; try lia; simpl in H;
        repeat (destruct H as [H|H]; try discriminate H); try contradiction;
        injection H as ->; (split; [lia|reflexivity]). }
    destruct Hst as [Hst ->].
    split; [apply H3; lia|]. split; [apply H4; lia|].
    exists (zb.EvStartImport :: nar ++ [zb.EvNarClose]).
    destruct stage as [|[|[|[|[|[|n]]]]]]; try lia; simpl.
    + eexists. split; [rewrite <- !app_assoc; simpl; reflexivity|].
      intros [E|E]; [discriminate|].
      apply in_app_or in E as [E|[E|[]]]; [apply Hnar in E|]; discriminate.
    + eexists. split; [rewrite <- !app_assoc; simpl; reflexivity|].
      intros [E|E]; [discriminate|].
      apply in_app_or in E as [E|[E|[]]]; [apply Hnar in E|]; discriminate.
Qed.

(** ** The references of [toFile] *)

Section ToFileRefs.

Import zb.

Lemma collectRefs_fold (name : string) (deps : list string) (others : sortedset.t) :
  collectRefs name deps others
  = if existsb (fun dep => bytes.HasPrefix dep "!") deps
    then Fail (Errorf "toFile %q: cannot depend on derivation outputs" [fStr name])
    else Ok (fold_left sortedset.Add deps others).
Proof.
  revert others. induction deps as [|dep deps IH]; intros others; [reflexivity|].
  simpl. destruct (bytes.HasPrefix dep "!"); [reflexivity|apply IH].
Qed.

Lemma collectRefs_same (name : string) (deps deps' : list string) :
  (forall x, In x deps <-> In x deps') ->
  collectRefs name deps sortedset.empty = collectRefs name deps' sortedset.empty.
Proof.
  intros H. rewrite !collectRefs_fold.
  assert (E : existsb (fun dep => bytes.HasPrefix dep "!") deps
              = existsb (fun dep => bytes.HasPrefix dep "!") deps').
  { apply eq_true_iff_eq. rewrite !existsb_exists.
    split; intros (x & Hx & Hp); exists x; (split; [now apply H|exact Hp]). }
  rewrite E. destruct (existsb _ deps'); [reflexivity|].
  f_equal. change (sortedset.of_list deps = sortedset.of_list deps').
  apply ok_ext; try apply of_list_ok. intros x. now rewrite !of_list_In.
Qed.

End ToFileRefs.

(** X22. [toFile] does not depend on the order of the string context of
    the contents, nor on how often a dependency occurs in it: with the same
    dependencies it returns the same and appends the same events. *)
Theorem toFileFunction_context_set
    (w : zb.World) (arg1 : zb.lua_value) (s : string) (context context' : list string)
    (tr : list zb.event) :
  (forall x, In x context <-> In x context') ->
  zb.toFileFunction w arg1 (zb.LuaString s context) tr
  = zb.toFileFunction w arg1 (zb.LuaString s context') tr.
Proof.
  intros H. unfold zb.toFileFunction.
  cbv [mbind zb.M_bind zb.bind zb.lift zb.ToString zb.StringContext Ok].
  destruct arg1 as [|name c| |]; try reflexivity. cbv iota beta.
  now rewrite (collectRefs_same name context context' H).
Qed.

Lemma toFileFunction_context_set_witness :
  zb.toFileFunction example.world2 (zb.LuaString "f" [])
    (zb.LuaString "text" [example.cached2; example.cached1; example.cached2]) []
  = zb.toFileFunction example.world2 (zb.LuaString "f" [])
      (zb.LuaString "text" [example.cached1; example.cached2]) [].
Proof.
  refine (toFileFunction_context_set example.world2 (zb.LuaString "f" []) "text"
            [example.cached2; example.cached1; example.cached2]
            [example.cached1; example.cached2] [] _).
  intros x. simpl. tauto.
Defined.

(** X23. With no derivation output among the dependencies, [toFile]
    computes the store path for the name, the text content address of the
    SHA-256 of the contents and the sorted dependencies.  When the path
    exists in the store, it pushes it and opens no import connection.
    Otherwise, when every step succeeds, it sends an archive of the one
    file, with the length of the contents as its size, then the trailer
    with the store path and the sorted dependencies, closes the connection
    and pushes the path.  When the copy of the contents into the archive
    fails, it returns that error under its own name, sends no trailer,
    pushes nothing and closes the connection. *)
Theorem toFileFunction_import
    (w : zb.World) (name s : string) (nameContext context : list string)
    (sp : storepath.Path) (tr : list zb.event) :
  (forall dep, In dep context -> bytes.HasPrefix dep "!" = false) ->
  zb.fixedCAOutputPath w (zb.storeDir w) name
    (nix.TextContentAddress (nix.mkHash nix.SHA256 (sha256.Sum256 s)))
    (zbstore.mkReferences false (sortedset.of_list context)) = inr sp ->
  (zb.Lstat w sp = true ->
   zb.toFileFunction w (zb.LuaString name nameContext) (zb.LuaString s context) tr
   = (Ok 1, tr ++ [zb.EvPushStringContext sp [sp]])) /\
  (zb.Lstat w sp = false ->
   zb.startImport w = Ok tt ->
   zb.WriteHeader w [] (zb.mkHeader "" 0 (Z.of_nat (String.length s)) "") = Ok tt ->
   zb.nar_Write w s = Ok tt ->
   zb.nar_Close w = Ok tt ->
   zb.Trailer w sp (sortedset.of_list context) = Ok tt ->
   zb.Close w = Ok tt ->
   zb.toFileFunction w (zb.LuaString name nameContext) (zb.LuaString s context) tr
   = (Ok 1,
      tr ++ [zb.EvStartImport;
             zb.EvNarHeader (zb.mkHeader "" 0 (Z.of_nat (String.length s)) "");
             zb.EvNarData s; zb.EvNarClose;
             zb.EvTrailer sp (sortedset.of_list context);
             zb.EvCloseImport;
             zb.EvPushStringContext sp [sp];
             zb.EvCloseImport])) /\
  (forall err,
   zb.Lstat w sp = false ->
   zb.startImport w = Ok tt ->
   zb.WriteHeader w [] (zb.mkHeader "" 0 (Z.of_nat (String.length s)) "") = Ok tt ->
   zb.nar_Write w s = inl err ->
   zb.toFileFunction w (zb.LuaString name nameContext) (zb.LuaString s context) tr
   = (Fail (Errorf "toFile %q: %v" [fStr name; fErr err]),
      tr ++ [zb.EvStartImport;
             zb.EvNarHeader (zb.mkHeader "" 0 (Z.of_nat (String.length s)) "");
             zb.EvCloseImport])).
Proof.
  intros Hdeps Hsp.
  assert (Hc : zb.collectRefs name context sortedset.empty
               = Ok (sortedset.of_list context)).
  { rewrite collectRefs_fold.
    assert (existsb (fun dep => bytes.HasPrefix dep "!") context = false) as ->;
      [|reflexivity].
    apply not_true_is_false. rewrite existsb_exists. intros (x & Hx & Hp).
    rewrite (Hdeps x Hx) in Hp. discriminate. }
  unfold zb.toFileFunction.
  cbv [mbind zb.M_bind zb.bind zb.lift zb.ret zb.wrap zb.emit zb.defer
       zb.ToString zb.StringContext Ok].
  cbv iota beta. rewrite Hc. unfold Ok. cbv iota beta.
  unfold nix.SumHash, nix.WriteString, nix.NewHasher. rewrite str_app_nil_l.
  unfold nix.TextContentAddress in Hsp |- *. rewrite Hsp. cbv iota beta.
  split; [|split].
  - intros ->. reflexivity.
  - intros -> -> -> -> -> -> ->. cbv iota beta. simpl.
    rewrite <- !app_assoc. reflexivity.
  - intros err -> -> -> ->. cbv iota beta. simpl.
    rewrite <- !app_assoc. reflexivity.
Qed.

Lemma toFileFunction_import_witness :
  (exists sp,
     zb.toFileFunction example.world2 (zb.LuaString "f" [])
       (zb.LuaString "text" [example.cached2; example.cached1]) []
     = (Ok 1, [zb.EvPushStringContext sp [sp]])) /\
  (exists sp,
     zb.toFileFunction trace.world0 (zb.LuaString "f" [])
       (zb.LuaString "text" [example.cached2; example.cached1]) []
     = (Ok 1,
        [zb.EvStartImport; zb.EvNarHeader (zb.mkHeader "" 0 4 "");
         zb.EvNarData "text"; zb.EvNarClose;
         zb.EvTrailer sp [example.cached1; example.cached2];
         zb.EvCloseImport; zb.EvPushStringContext sp [sp]; zb.EvCloseImport])).
Proof.
  split; eexists.
  - refine (proj1 (toFileFunction_import example.world2 "f" "text" []
                     [example.cached2; example.cached1] _ [] _ _) _).
    + intros dep [<-|[<-|[]]]; reflexivity.
    + vm_compute. reflexivity.
    + reflexivity.
  - refine (proj1 (proj2 (toFileFunction_import trace.world0 "f" "text" []
                            [example.cached2; example.cached1] _ [] _ _))
              _ _ _ _ _ _ _).
    + intros dep [<-|[<-|[]]]; reflexivity.
    + vm_compute. reflexivity.
    + reflexivity.
    + reflexivity.
    + reflexivity.
    + reflexivity.
    + reflexivity.
    + reflexivity.
    + reflexivity.
Defined.

(** X24. The archive that [pathFunction] streams does not see the
    permissions of a directory or of a symbolic link, nor the size recorded
    for them, and of another file only the permission bits of its mode: two
    rows of the walk with the same path and the same type that agree on
    what is left are streamed alike. *)
Theorem streamRow_mode_bits
    (w : zb.World) (p : string) (written : list zb.nar_header) (row row' : zb.walk_row) :
  zb.row_path row = zb.row_path row' ->
  zb.Type_ (zb.row_mode row) = zb.Type_ (zb.row_mode row') ->
  (zb.Type_ (zb.row_mode row) = zb.ModeDir \/
   (zb.Type_ (zb.row_mode row) = zb.ModeSymlink /\
    zb.row_link_target row = zb.row_link_target row') \/
   (zb.Perm (zb.row_mode row) = zb.Perm (zb.row_mode row') /\
    zb.row_size row = zb.row_size row' /\
    zb.row_link_target row = zb.row_link_target row')) ->
  zb.streamRow w p written row = zb.streamRow w p written row'.
Proof.
  intros Hp Ht H. unfold zb.streamRow. rewrite <- Hp, <- Ht.
  destruct H as [H|[[H Hl]|(H & Hs & Hl)]].
  - rewrite H, Z.eqb_refl. reflexivity.
  - rewrite H, Z.eqb_refl, Hl. reflexivity.
  - rewrite H, Hs, Hl. reflexivity.
Qed.

Lemma streamRow_mode_bits_witness :
  zb.streamRow example.world2 "/src" []
    (zb.mkRow "/src" (Z.lor zb.ModeDir 493) (-1) "")
  = zb.streamRow example.world2 "/src" []
      (zb.mkRow "/src" (Z.lor zb.ModeDir 448) 4096 "").
Proof.
  refine (streamRow_mode_bits example.world2 "/src" []
            (zb.mkRow "/src" (Z.lor zb.ModeDir 493) (-1) "")
            (zb.mkRow "/src" (Z.lor zb.ModeDir 448) 4096 "") _ _ _).
  - reflexivity.
  - reflexivity.
  - left. reflexivity.
Defined.

(** ** Stamps *)

Section Stamps.

Import stamps.

Lemma string_of_uint_digits (d : Decimal.uint) :
  forallb is_digit (list_ascii_of_string (NilEmpty.string_of_uint d)) = true.
Proof. induction d; simpl; auto. Qed.

Lemma to_uint_not_Nil (n : N) : N.to_uint n <> Decimal.Nil.
Proof.
  destruct n as [|p]; [discriminate|]. simpl.
  unfold Pos.to_uint. intros H.
  pose proof (DecimalPos.Unsigned.to_of (Pos.to_uint p)) as T.
  assert (E : Pos.of_uint (Pos.to_uint p) = N.pos p) by apply DecimalPos.Unsigned.of_to.
  unfold Pos.to_uint in E. rewrite H in E. discriminate E.
Qed.

Lemma udec_digits (n : N) :
  forallb is_digit (list_ascii_of_string (udec n)) = true /\ udec n <> ""%string.
Proof.
  unfold udec, NilZero.string_of_uint.
  pose proof (to_uint_not_Nil n) as Hn.
  destruct (N.to_uint n) eqn:E; try contradiction;
    (split; [apply string_of_uint_digits| discriminate]).
Qed.

Lemma udec_inj (a b : N) : udec a = udec b -> a = b.
Proof.
  unfold udec. intros H.
  apply (f_equal NilZero.uint_of_string) in H.
  rewrite !NilZero.usu in H by apply to_uint_not_Nil.
  injection H as H. now apply DecimalN.Unsigned.to_uint_inj.
Qed.

(** A string without the byte [c] ends where [c] comes first. *)
Lemma split_at (c : ascii) (a a' r r' : string) :
  existsb (Ascii.eqb c) (list_ascii_of_string a) = false ->
  existsb (Ascii.eqb c) (list_ascii_of_string a') = false ->
  a +:+ String c r = a' +:+ String c r' -> a = a' /\ r = r'.
Proof.
  revert a'. induction a as [|x a IH]; intros [|y a']; simpl; intros Ha Ha'.
  - rewrite !str_app_nil_l. now intros [= ->].
  - rewrite str_app_nil_l, str_app_cons. intros [= <- _].
    now rewrite Ascii.eqb_refl in Ha'.
  - rewrite str_app_nil_l, str_app_cons. intros [= -> _].
    now rewrite Ascii.eqb_refl in Ha.
  - apply orb_false_iff in Ha as [_ Ha]. apply orb_false_iff in Ha' as [_ Ha'].
    rewrite !str_app_cons. intros [= -> H].
    destruct (IH a' Ha Ha' H) as [-> ->]. now split.
Qed.

Lemma digits_without (c : ascii) (s : string) :
  is_digit c = false ->
  forallb is_digit (list_ascii_of_string s) = true ->
  existsb (Ascii.eqb c) (list_ascii_of_string s) = false.
Proof.
  intros Hc. induction s as [|x s IH]; simpl; [reflexivity|].
  intros H. apply andb_true_iff in H as [Hx Hs]. rewrite (IH Hs), orb_false_r.
  apply Ascii.eqb_neq. intros ->. congruence.
Qed.

(** A number as [%d] writes it: digits, after a minus sign or not. *)
Lemma fmt_d_shape (z : Z) :
  exists s, forallb is_digit (list_ascii_of_string s) = true /\ s <> ""%string /\
            (fmt_d z = s \/ fmt_d z = String "-" s).
Proof.
  unfold fmt_d. destruct (z <? 0).
  - exists (udec (Z.to_N (- z))). destruct (udec_digits (Z.to_N (- z))). auto.
  - exists (udec (Z.to_N z)). destruct (udec_digits (Z.to_N z)). auto.
Qed.

Lemma fmt_d_inj (a b : Z) : fmt_d a = fmt_d b -> a = b.
Proof.
  unfold fmt_d.
  destruct (a <? 0) eqn:A, (b <? 0) eqn:B.
  - intros [= H]. apply udec_inj in H. apply Z.ltb_lt in A, B. lia.
  - intros H. destruct (udec_digits (Z.to_N b)) as [Hd Hn].
    rewrite <- H in Hd. simpl in Hd. discriminate Hd.
  - intros H. destruct (udec_digits (Z.to_N a)) as [Hd Hn].
    rewrite H in Hd. simpl in Hd. discriminate Hd.
  - intros H. apply udec_inj in H. apply Z.ltb_ge in A, B. lia.
Qed.

(** Two numbers written by [%d] before the same byte, a minus sign or a
    dot, are told apart by that byte. *)
Lemma fmt_d_split (c : ascii) (a b : Z) (r r' : string) :
  c = "-"%char \/ c = "."%char ->
  fmt_d a +:+ String c r = fmt_d b +:+ String c r' -> a = b /\ r = r'.
Proof.
  intros Hc H.
  assert (Hnd : is_digit c = false) by (destruct Hc; subst; reflexivity).
  destruct (fmt_d_shape a) as (sa & Da & Na & Ea).
  destruct (fmt_d_shape b) as (sb & Db & Nb & Eb).
  assert (Hsplit : forall x y, x = sa \/ x = String "-" sa -> y = sb \/ y = String "-" sb ->
            x +:+ String c r = y +:+ String c r' -> x = y /\ r = r').
  { intros x y [-> | ->] [-> | ->]; rewrite ?str_app_cons.
    - apply split_at; now apply digits_without.
    - destruct sa as [|x sa]; [contradiction|]. rewrite str_app_cons.
      intros [= -> _]. simpl in Da. discriminate Da.
    - destruct sb as [|y sb]; [contradiction|]. rewrite str_app_cons.
      intros [= <- _]. simpl in Db. discriminate Db.
    - intros [= E]. apply split_at in E as [-> ->]; try now apply digits_without.
      now split. }
  destruct (Hsplit _ _ Ea Eb H) as [E ->]. split; [now apply fmt_d_inj|reflexivity].
Qed.

(** The number that digits stand for, leading zeros or not. *)
Lemma value_zeros (k : nat) (s : string) (d : Decimal.uint) :
  NilEmpty.uint_of_string s = Some d ->
  exists d', NilEmpty.uint_of_string
               (string_of_list_ascii (repeat "0"%char k) +:+ s) = Some d' /\
             N.of_uint d' = N.of_uint d.
Proof.
  intros H. induction k as [|k (d' & E & V)]; simpl.
  - rewrite str_app_nil_l. now exists d.
  - rewrite ?str_app_cons. simpl. rewrite E. simpl. now exists (Decimal.D0 d').
Qed.

Lemma pad_inj (width : nat) (a b : N) :
  pad width (udec a) = pad width (udec b) -> a = b.
Proof.
  assert (V : forall n, exists d, NilEmpty.uint_of_string (pad width (udec n)) = Some d /\
                                  N.of_uint d = n).
  { intros n. unfold pad.
    assert (U : NilEmpty.uint_of_string (udec n) = Some (N.to_uint n)).
    { unfold udec, NilZero.string_of_uint. pose proof (to_uint_not_Nil n).
      destruct (N.to_uint n) eqn:E; try contradiction; rewrite <- E; apply NilEmpty.usu. }
    destruct (value_zeros (width - String.length (udec n)) _ _ U) as (d' & E & Vd).
    exists d'. split; [exact E|]. rewrite Vd. apply DecimalN.Unsigned.of_to. }
  intros H. destruct (V a) as (da & Ea & <-). destruct (V b) as (db & Eb & <-).
  rewrite H in Ea. rewrite Ea in Eb. now injection Eb as ->.
Qed.

Lemma pad_digits (width : nat) (s : string) :
  forallb is_digit (list_ascii_of_string s) = true ->
  forallb is_digit (list_ascii_of_string (pad width s)) = true.
Proof.
  intros H. unfold pad. induction (width - String.length s)%nat as [|k IH]; simpl.
  - now rewrite str_app_nil_l.
  - rewrite ?str_app_cons. simpl. exact IH.
Qed.

Lemma fmt_06d_split (a b : Z) (r r' : string) :
  0 <= a -> 0 <= b ->
  fmt_06d a +:+ String "-" r = fmt_06d b +:+ String "-" r' -> a = b /\ r = r'.
Proof.
  intros Ha Hb. unfold fmt_06d.
  assert ((a <? 0) = false) as -> by (apply Z.ltb_ge; lia).
  assert ((b <? 0) = false) as -> by (apply Z.ltb_ge; lia).
  intros H. apply split_at in H as [H ->].
  - apply pad_inj in H. split; [lia|reflexivity].
  - apply digits_without; [reflexivity|]. apply pad_digits, udec_digits.
  - apply digits_without; [reflexivity|]. apply pad_digits, udec_digits.
Qed.

End Stamps.

(** X25. The stamp tells the kinds of entries apart: the stamp of a
    symbolic link is ["link:"] and its target, the stamp of a directory is
    ["dir"], and the stamp of any other file begins with a digit or a minus
    sign; two entries with the same stamp are of the same kind. *)
Theorem stamp_kinds
    (inode : stamps.FileInfo -> Z) (owner : stamps.FileInfo -> Z * Z)
    (Readlink : string -> result string)
    (path path' : string) (info info' : stamps.FileInfo) (s : string) :
  stamps.stamp inode owner Readlink path info = inr s ->
  match stamps.kind_of info with
  | stamps.symlink => exists target, Readlink path = inr target /\ s = "link:" +:+ target
  | stamps.directory => s = "dir"%string
  | stamps.file =>
      exists c rest, s = String c rest /\ (c = "-"%char \/ stamps.is_digit c = true)
  end /\
  (stamps.stamp inode owner Readlink path' info' = inr s ->
   stamps.kind_of info = stamps.kind_of info').
Proof.
  assert (K : forall p i x, stamps.stamp inode owner Readlink p i = inr x ->
    match stamps.kind_of i with
    | stamps.symlink => exists target, Readlink p = inr target /\ x = "link:" +:+ target
    | stamps.directory => x = "dir"%string
    | stamps.file =>
        exists c rest, x = String c rest /\ (c = "-"%char \/ stamps.is_digit c = true)
    end).
  { intros p i x. unfold stamps.stamp, stamps.kind_of, stamps.stampFileInfo.
    destruct (zb.Type_ (stamps.Mode i) =? zb.ModeSymlink).
    - destruct (Readlink p) as [e|target]; [discriminate|]. intros [= <-]. now exists target.
    - destruct (stamps.IsDir i); [now intros [= <-]|].
      destruct (owner i) as [uid gid]. intros [= <-].
      destruct (fmt_d_shape (stamps.ModTime_Unix i)) as (d & Dd & Nd & [E | E]);
        rewrite E.
      + destruct d as [|c d]; [contradiction|]. rewrite str_app_cons.
        eexists _, _. split; [reflexivity|]. right. simpl in Dd.
        now apply andb_true_iff in Dd as [Dc _].
      + rewrite str_app_cons. eexists _, _. split; [reflexivity|]. now left. }
  intros H. split; [now apply K|]. intros H'.
  apply K in H, H'.
  destruct (stamps.kind_of info), (stamps.kind_of info'); try reflexivity; exfalso.
  - destruct H as (t & _ & ->). discriminate H'.
  - destruct H as (t & _ & ->). destruct H' as (c & rest & E & Hc).
    rewrite str_app_cons in E. injection E as <- _.
    destruct Hc as [Hc | Hc]; discriminate Hc.
  - destruct H' as (t & _ & ->). discriminate H.
  - destruct H' as (c & rest & E & Hc). rewrite H in E. injection E as <- _.
    destruct Hc as [Hc | Hc]; discriminate Hc.
  - destruct H' as (t & _ & ->). destruct H as (c & rest & E & Hc).
    rewrite str_app_cons in E. injection E as <- _.
    destruct Hc as [Hc | Hc]; discriminate Hc.
  - destruct H as (c & rest & E & Hc). rewrite H' in E. injection E as <- _.
    destruct Hc as [Hc | Hc]; discriminate Hc.
Qed.

Lemma stamp_kinds_witness :
  stamps.kind_of (stamps.mkInfo (Z.lor zb.ModeDir 493) 1700000000 5000 4096)
  = stamps.kind_of (stamps.mkInfo (Z.lor zb.ModeDir 448) 1 2 3).
Proof.
  refine (proj2 (stamp_kinds (fun _ => 7) (fun _ => (1000, 1000)) (fun _ => Ok ""%string)
                   "/src" "/other"
                   (stamps.mkInfo (Z.lor zb.ModeDir 493) 1700000000 5000 4096)
                   (stamps.mkInfo (Z.lor zb.ModeDir 448) 1 2 3) "dir" _) _);
    vm_compute; reflexivity.
Defined.

(** X26. The stamp of a file that is no directory determines what it was
    made of: two such files with the same stamp have the same modification
    time up to the microsecond, the same size, inode, mode, user and
    group. *)
Theorem stampFileInfo_injective
    (inode : stamps.FileInfo -> Z) (owner : stamps.FileInfo -> Z * Z)
    (a b : stamps.FileInfo) :
  stamps.IsDir a = false -> stamps.IsDir b = false ->
  0 <= stamps.ModTime_Nanosecond a -> 0 <= stamps.ModTime_Nanosecond b ->
  stamps.stampFileInfo inode owner a = stamps.stampFileInfo inode owner b ->
  stamps.ModTime_Unix a = stamps.ModTime_Unix b /\
  Z.quot (stamps.ModTime_Nanosecond a) 1000 = Z.quot (stamps.ModTime_Nanosecond b) 1000 /\
  stamps.Size a = stamps.Size b /\
  inode a = inode b /\
  stamps.Mode a = stamps.Mode b /\
  owner a = owner b.
Proof.
  intros Da Db Na Nb. unfold stamps.stampFileInfo. rewrite Da, Db.
  destruct (owner a) as [ua ga], (owner b) as [ub gb].
  rewrite !(str_app_cons _ ""), !str_app_nil_l.
  intros H.
  apply fmt_d_split in H as [E1 H]; [|now right].
  apply fmt_06d_split in H as [E2 H]; [| apply Z.quot_pos; lia | apply Z.quot_pos; lia].
  apply fmt_d_split in H as [E3 H]; [|now left].
  apply fmt_d_split in H as [E4 H]; [|now left].
  apply fmt_d_split in H as [E5 H]; [|now left].
  apply fmt_d_split in H as [E6 H]; [|now left].
  apply fmt_d_inj in H. repeat split; congruence.
Qed.

Lemma stampFileInfo_injective_witness :
  stamps.Size (stamps.mkInfo 420 1700000000 5000 4096) = 4096.
Proof.
  refine (eq_trans
    (proj1 (proj2 (proj2 (stampFileInfo_injective (fun _ => 7) (fun _ => (1000, 1000))
       (stamps.mkInfo 420 1700000000 5000 4096)
       (stamps.mkInfo 420 1700000000 5999 4096) _ _ _ _ _)))) _);
    try reflexivity; try (vm_compute; discriminate).
Defined.

(** ** The placeholder of an unknown output *)

Section Placeholder.

Import placeholder.

Lemma substring_prefix (a b : string) :
  substring 0 (String.length a) (a +:+ b) = a.
Proof.
  induction a as [|c a IH].
  - rewrite str_app_nil_l. now destruct b.
  - rewrite str_app_cons. simpl. now rewrite IH.
Qed.

Lemma substring_suffix (a b : string) :
  substring (String.length a) (String.length b) (a +:+ b) = b.
Proof.
  induction a as [|c a IH].
  - rewrite str_app_nil_l. change (String.length "") with 0%nat.
    induction b as [|x b IHb]; simpl; [reflexivity|]. now rewrite IHb.
  - rewrite str_app_cons. simpl. exact IH.
Qed.

Lemma TrimSuffix_app (a suffix : string) : TrimSuffix (a +:+ suffix) suffix = a.
Proof.
  unfold TrimSuffix. rewrite str_length_app.
  replace (String.length a + String.length suffix - String.length suffix)%nat
    with (String.length a) by lia.
  rewrite substring_suffix, String.eqb_refl, substring_prefix.
  assert ((String.length suffix <=? String.length a + String.length suffix)%nat = true)
    as -> by (apply Nat.leb_le; lia).
  reflexivity.
Qed.

Lemma split_last_app (dir b : string) :
  existsb (Ascii.eqb "/") (list_ascii_of_string b) = false ->
  storepath.split_last (dir +:+ "/" +:+ b) = Some (dir, b).
Proof.
  intros Hb.
  assert (Hn : storepath.split_last b = None).
  { induction b as [|c b IH]; [reflexivity|].
    cbn [list_ascii_of_string existsb] in Hb. cbn [storepath.split_last].
    apply orb_false_iff in Hb as [Hc Hb]. rewrite (IH Hb).
    now rewrite Ascii.eqb_sym, Hc. }
  induction dir as [|c dir IH].
  - rewrite str_app_nil_l, str_app_cons, str_app_nil_l.
    cbn [storepath.split_last]. now rewrite Hn.
  - rewrite str_app_cons. cbn [storepath.split_last]. now rewrite IH.
Qed.

End Placeholder.

(** X27. For the derivation [<dir>/<digest>-<name>.drv],
    [UnknownCAOutputPlaceholder] is a slash and the Nix base-32 form of the
    SHA-256 digest of ["nix-upstream-output:<digest>:<name>"], followed by
    a dash and the output name unless the output is ["out"]; whatever the
    path, it has 53 characters. *)
Theorem UnknownCAOutputPlaceholder_spec
    (dir digest name : string) (drvPath : storepath.Path) (outputName : string) :
  String.length digest = 32%nat ->
  existsb (Ascii.eqb "/") (list_ascii_of_string (digest +:+ "-" +:+ name)) = false ->
  placeholder.UnknownCAOutputPlaceholder
    (dir +:+ "/" +:+ digest +:+ "-" +:+ name +:+ ".drv") outputName
  = "/" +:+ nixbase32.EncodeToString
      (sha256.Sum256
         ("nix-upstream-output:" +:+ digest +:+ ":" +:+ name +:+
          (if String.eqb outputName "out" then "" else "-" +:+ outputName))) /\
  String.length (placeholder.UnknownCAOutputPlaceholder drvPath outputName) = 53%nat.
Proof.
  intros Hd Hs. split.
  - unfold placeholder.UnknownCAOutputPlaceholder, placeholder.Digest, storepath.Name.
    assert (Hb : existsb (Ascii.eqb "/")
                   (list_ascii_of_string (digest +:+ "-" +:+ name +:+ ".drv")) = false).
    { rewrite <- (str_app_assoc digest), <- (str_app_assoc (digest +:+ "-")).
      rewrite str_to_list_app, existsb_app. rewrite str_app_assoc, Hs. reflexivity. }
    rewrite (split_last_app dir _ Hb).
    assert (Hl : storepath.digestLength = length (list_ascii_of_string digest))
      by (rewrite str_length_to_list, Hd; reflexivity).
    rewrite Hl, (str_to_list_app digest).
    rewrite firstn_app, firstn_all, Nat.sub_diag, firstn_0, app_nil_r.
    rewrite string_of_list_ascii_of_string.
    rewrite <- Nat.add_1_r, skipn_app, skipn_all2 by lia.
    replace (length (list_ascii_of_string digest) + 1 - length (list_ascii_of_string digest))%nat
      with 1%nat by lia.
    change (drop 1 (list_ascii_of_string ("-" +:+ name +:+ ".drv")))
      with (list_ascii_of_string (name +:+ ".drv")).
    rewrite app_nil_l, string_of_list_ascii_of_string.
    unfold zbstore.DerivationExt. rewrite TrimSuffix_app.
    unfold nix.RawBase32, nix.SumHash, nix.WriteString, nix.NewHasher,
      zbstore.DefaultDerivationOutputName. simpl nix.hash_bytes.
    destruct (String.eqb outputName "out"); simpl negb; cbv iota;
      rewrite ?str_app_nil_l, ?str_app_nil_r, ?str_app_assoc; reflexivity.
  - unfold placeholder.UnknownCAOutputPlaceholder, nix.RawBase32, nix.SumHash.
    simpl nix.hash_bytes.
    rewrite str_length_app, length_EncodeToString, length_Sum256. reflexivity.
Qed.

Lemma UnknownCAOutputPlaceholder_spec_witness :
  placeholder.UnknownCAOutputPlaceholder
    ("/zb/store" +:+ "/" +:+ "00000000000000000000000000000000" +:+ "-" +:+ "a" +:+ ".drv")
    "dev"
  = "/" +:+ nixbase32.EncodeToString
      (sha256.Sum256
         ("nix-upstream-output:" +:+ "00000000000000000000000000000000" +:+ ":" +:+ "a" +:+
          (if String.eqb "dev" "out" then "" else "-" +:+ "dev"))) /\
  String.length
    (placeholder.UnknownCAOutputPlaceholder
       "/zb/store/00000000000000000000000000000000-a.drv" "dev") = 53%nat.
Proof.
  exact (UnknownCAOutputPlaceholder_spec "/zb/store"
           "00000000000000000000000000000000" "a"
           "/zb/store/00000000000000000000000000000000-a.drv" "dev"
           eq_refl eq_refl).
Defined.
